(** * tiny-router: the path compiler and the route middleware of
    [src/tinyRouter.js], embedded in Rocq.

    The file has three layers.

    - [Js]: the part of the ECMAScript runtime the router calls: strings as
      sequences of UTF-16 code units, the regular expression constructor
      ([RegExp], pattern text to syntax tree), the backtracking matcher
      ([exec]), [String.prototype.replace] with a global regular expression,
      [toUpperCase] and [decodeURIComponent].
    - [Hoa]: the two operations of the host framework the router relies on,
      [compose] and [use].
    - [TinyRouter]: [compile], [matches], [decode], [createRoute] and
      [createRouteMethod], each following its JavaScript text. *)

From Stdlib Require Import List NArith Bool Ascii String Arith Lia.
Import ListNotations.

Set Implicit Arguments.

(* ================================================================== *)
(** * The ECMAScript runtime *)
(* ================================================================== *)

Module Js.

(** ** Strings *)

(** A JavaScript string is a sequence of 16-bit code units. *)
Definition codeunit := N.
Definition jsstring := list codeunit.

Definition cu (a : ascii) : codeunit := N_of_ascii a.

(** [str] turns an ASCII literal of this file into a JavaScript string. *)
Definition str (s : string) : jsstring := List.map cu (list_ascii_of_string s).

Definition jseqb (a b : jsstring) : bool :=
  if list_eq_dec N.eq_dec a b then true else false.

Definition is_upper (c : codeunit) : bool := (65 <=? c)%N && (c <=? 90)%N.
Definition is_lower (c : codeunit) : bool := (97 <=? c)%N && (c <=? 122)%N.
Definition is_digit (c : codeunit) : bool := (48 <=? c)%N && (c <=? 57)%N.

(** [\w] is [[A-Za-z0-9_]]. *)
Definition is_word (c : codeunit) : bool :=
  is_upper c || is_lower c || is_digit c || (c =? 95)%N.

(** [.] matches every code unit but the four line terminators. *)
Definition is_line_terminator (c : codeunit) : bool :=
  (c =? 10)%N || (c =? 13)%N || (c =? 8232)%N || (c =? 8233)%N.

(** [String.prototype.toUpperCase], on the Basic Latin letters.  The router
    applies it to the seven method names only. *)
Definition upcase (c : codeunit) : codeunit :=
  if is_lower c then (c - 32)%N else c.
Definition toUpperCase (s : jsstring) : jsstring := List.map upcase s.

(** [Canonicalize] of the regular expression semantics (no [u] flag): with
    [ignoreCase] a code unit is compared through its upper case.  A code unit
    of 128 or more never canonicalizes to one below 128, so on a pattern
    whose text is Basic Latin the comparison below is the one of the
    language for every input; the upper case of the other code units is not
    modelled. *)
Definition canon (ignoreCase : bool) (c : codeunit) : codeunit :=
  if ignoreCase then upcase c else c.

(** ** Regular expressions: syntax *)

Inductive class_item : Type :=
| CChar (c : codeunit)
| CRange (lo hi : codeunit)
| CWord
| CDigit.

Inductive regex : Type :=
| REmpty
| RChar (c : codeunit)
| RAny
| RClass (negated : bool) (items : list class_item)
| RBol
| REol
| RSeq (r1 r2 : regex)
| RAlt (r1 r2 : regex)
| RGroup (idx : nat) (name : option jsstring) (r : regex)
| RRepeat (min : nat) (max : option nat) (greedy : bool) (r : regex).

(** The capturing groups of a term, in the order of their left
    parentheses. *)
Fixpoint groups (r : regex) : list (nat * option jsstring) :=
  match r with
  | RSeq r1 r2 | RAlt r1 r2 => groups r1 ++ groups r2
  | RGroup i n r' => (i, n) :: groups r'
  | RRepeat _ _ _ r' => groups r'
  | _ => []
  end.

Fixpoint named (gs : list (nat * option jsstring)) : list (nat * jsstring) :=
  match gs with
  | [] => []
  | (i, Some n) :: gs' => (i, n) :: named gs'
  | (_, None) :: gs' => named gs'
  end.

Fixpoint has_alt (r : regex) : bool :=
  match r with
  | RAlt _ _ => true
  | RSeq r1 r2 => has_alt r1 || has_alt r2
  | RGroup _ _ r' | RRepeat _ _ _ r' => has_alt r'
  | _ => false
  end.

(** ** Regular expressions: the matcher

    The matcher is the continuation-passing one of the language
    specification.  A state is the position reached in the input together
    with the captures made so far; a continuation decides whether the rest
    of the pattern matches from a state. *)

Record mstate : Type := MState {
  m_idx : nat;                       (* endIndex *)
  m_rest : jsstring;                 (* the input from endIndex on *)
  m_caps : list (option jsstring)    (* captures, group i at position i-1 *)
}.

Definition cont := mstate -> option mstate.

Fixpoint set_nth {A} (n : nat) (v : A) (l : list A) : list A :=
  match l, n with
  | [], _ => []
  | _ :: l', O => v :: l'
  | a :: l', S n' => a :: set_nth n' v l'
  end.

Definition set_cap (i : nat) (v : option jsstring) (x : mstate) : mstate :=
  MState (m_idx x) (m_rest x) (set_nth (Nat.pred i) v (m_caps x)).

Definition clear_caps (gs : list (nat * option jsstring)) (x : mstate) : mstate :=
  fold_left (fun y g => set_cap (fst g) None y) gs x.

(** What was consumed between the states [x] and [y]. *)
Definition consumed (x y : mstate) : jsstring :=
  firstn (m_idx y - m_idx x) (m_rest x).

Definition item_has (ic : bool) (c : codeunit) (it : class_item) : bool :=
  match it with
  | CChar a => (canon ic a =? canon ic c)%N
  | CRange lo hi =>
      ((lo <=? c)%N && (c <=? hi)%N)
      || (ic && (((lo <=? upcase c)%N && (upcase c <=? hi)%N && is_lower c)
                 || ((lo <=? c + 32)%N && (c + 32 <=? hi)%N && is_upper c)))
  | CWord => is_word c
  | CDigit => is_digit c
  end.

Definition class_has (ic neg : bool) (items : list class_item) (c : codeunit) : bool :=
  xorb neg (existsb (item_has ic c) items).

(** One code unit is consumed when [p] accepts it. *)
Definition step_char (p : codeunit -> bool) (x : mstate) (c : cont) : option mstate :=
  match m_rest x with
  | a :: rest => if p a then c (MState (S (m_idx x)) rest (m_caps x)) else None
  | [] => None
  end.

Definition or_else (a : option mstate) (b : unit -> option mstate) : option mstate :=
  match a with
  | Some z => Some z
  | None => b tt
  end.

Definition pred_max (mx : option nat) : option nat :=
  match mx with
  | Some n => Some (Nat.pred n)
  | None => None
  end.

Definition max_is_zero (mx : option nat) : bool :=
  match mx with
  | Some O => true
  | _ => false
  end.

(** RepeatMatcher for an atom whose matcher is [m] and whose capturing
    groups are [gs]: the captures of [gs] are cleared before each
    iteration, and an iteration that consumes nothing once the minimum is
    reached is refused.  Every iteration lowers the minimum or consumes a
    code unit, so [1 + min + |rest|] rounds are never exhausted. *)
Fixpoint repeat_matcher (m : mstate -> cont -> option mstate)
  (gs : list (nat * option jsstring)) (greedy : bool) (c : cont)
  (fuel mn : nat) (mx : option nat) (x : mstate) {struct fuel} : option mstate :=
  match fuel with
  | O => None
  | S fuel' =>
      if max_is_zero mx then c x else
      let d := fun y =>
        if (mn =? 0)%nat && (m_idx y =? m_idx x)%nat then None
        else repeat_matcher m gs greedy c fuel' (Nat.pred mn) (pred_max mx) y in
      let xr := clear_caps gs x in
      if negb (mn =? 0)%nat then m xr d
      else if greedy then or_else (m xr d) (fun _ => c x)
      else or_else (c x) (fun _ => m xr d)
  end.

(** [rmatch ic r x c]: the matcher of [r] at state [x] with continuation
    [c]; [ic] is the [ignoreCase] flag. *)
Fixpoint rmatch (ic : bool) (r : regex) (x : mstate) (c : cont) {struct r}
  : option mstate :=
  match r with
  | REmpty => c x
  | RChar ch => step_char (fun a => (canon ic a =? canon ic ch)%N) x c
  | RAny => step_char (fun a => negb (is_line_terminator a)) x c
  | RClass neg items => step_char (class_has ic neg items) x c
  | RBol => if (m_idx x =? 0)%nat then c x else None
  | REol => match m_rest x with [] => c x | _ :: _ => None end
  | RSeq r1 r2 => rmatch ic r1 x (fun y => rmatch ic r2 y c)
  | RAlt r1 r2 => or_else (rmatch ic r1 x c) (fun _ => rmatch ic r2 x c)
  | RGroup i _ r' =>
      rmatch ic r' x (fun y => c (set_cap i (Some (consumed x y)) y))
  | RRepeat mn mx greedy r' =>
      repeat_matcher (rmatch ic r') (groups r') greedy c
                     (S (mn + List.length (m_rest x))) mn mx x
  end.

(** ** Regular expressions: the constructor

    [RegExp(source, flags)] parses the pattern text.  The outcome is a
    syntax tree, a [SyntaxError], or [PUnsupported] for the constructs of
    the language this model leaves out (look-around, back references,
    braced quantifiers, the escapes other than the ones below). *)

Inductive presult (A : Type) : Type :=
| POk (a : A)
| PSyntaxError
| PUnsupported.
Arguments POk {A} a.
Arguments PSyntaxError {A}.
Arguments PUnsupported {A}.

Definition is_ch (a : ascii) (c : codeunit) : bool := (c =? cu a)%N.

(** SyntaxCharacter, and the solidus. *)
Definition is_syntax_char (c : codeunit) : bool :=
  existsb (N.eqb c) (str "^$\.*+?()[]{}|/").

Definition mk_seq (terms : list regex) : regex := fold_right RSeq REmpty terms.

Fixpoint mk_alt (first : regex) (others : list regex) : regex :=
  match others with
  | [] => first
  | r :: rs => RAlt first (mk_alt r rs)
  end.

(** The alternatives are accumulated in reverse. *)
Definition close_disj (alts cur : list regex) : regex :=
  match rev (mk_seq (rev cur) :: alts) with
  | [] => REmpty
  | r :: rs => mk_alt r rs
  end.

(** A quantifier after an atom, with its optional [?]. *)
Definition parse_lazy (s : jsstring) : bool * jsstring :=
  match s with
  | c :: s' => if is_ch "?" c then (false, s') else (true, s)
  | [] => (true, [])
  end.

Definition parse_quant (r : regex) (s : jsstring) : presult (regex * jsstring) :=
  match s with
  | c :: s' =>
      if is_ch "*" c then let (g, s'') := parse_lazy s' in POk (RRepeat 0 None g r, s'')
      else if is_ch "+" c then let (g, s'') := parse_lazy s' in POk (RRepeat 1 None g r, s'')
      else if is_ch "?" c then let (g, s'') := parse_lazy s' in POk (RRepeat 0 (Some 1) g r, s'')
      else if is_ch "{" c then PUnsupported
      else POk (r, s)
  | [] => POk (r, [])
  end.

(** An escape outside a class. *)
Definition parse_escape (s : jsstring) : presult (regex * jsstring) :=
  match s with
  | [] => PSyntaxError
  | c :: s' =>
      if is_syntax_char c then POk (RChar c, s')
      else if is_ch "w" c then POk (RClass false [CWord], s')
      else if is_ch "W" c then POk (RClass true [CWord], s')
      else if is_ch "d" c then POk (RClass false [CDigit], s')
      else if is_ch "D" c then POk (RClass true [CDigit], s')
      else PUnsupported
  end.

(** One member of a class. *)
Definition parse_class_atom (s : jsstring) : presult (class_item * jsstring) :=
  match s with
  | [] => PSyntaxError
  | c :: s' =>
      if is_ch "\" c then
        match s' with
        | [] => PSyntaxError
        | e :: s'' =>
            if is_syntax_char e || is_ch "-" e then POk (CChar e, s'')
            else if is_ch "w" e then POk (CWord, s'')
            else if is_ch "d" e then POk (CDigit, s'')
            else PUnsupported
        end
      else POk (CChar c, s')
  end.

(** The members of a class up to its [[]]]; [fuel] bounds the text left. *)
Fixpoint parse_class (fuel : nat) (acc : list class_item) (s : jsstring)
  : presult (list class_item * jsstring) :=
  match fuel with
  | O => PSyntaxError
  | S fuel' =>
      match s with
      | [] => PSyntaxError
      | c :: s' =>
          if is_ch "]" c then POk (rev acc, s')
          else
            match parse_class_atom s with
            | POk (a, s1) =>
                match s1 with
                | d :: e :: s2 =>
                    if is_ch "-" d && negb (is_ch "]" e) then
                      match a, parse_class_atom (e :: s2) with
                      | CChar lo, POk (CChar hi, s3) =>
                          if (hi <? lo)%N then PSyntaxError
                          else parse_class fuel' (CRange lo hi :: acc) s3
                      | _, POk _ => PUnsupported
                      | _, PSyntaxError => PSyntaxError
                      | _, PUnsupported => PUnsupported
                      end
                    else parse_class fuel' (a :: acc) s1
                | _ => parse_class fuel' (a :: acc) s1
                end
            | PSyntaxError => PSyntaxError
            | PUnsupported => PUnsupported
            end
      end
  end.

(** A group name: an identifier closed by [>]. *)
Definition is_ident_start (c : codeunit) : bool :=
  is_upper c || is_lower c || is_ch "_" c || is_ch "$" c.
Definition is_ident_part (c : codeunit) : bool :=
  is_ident_start c || is_digit c.

Fixpoint parse_name_rest (acc : jsstring) (s : jsstring) : presult (jsstring * jsstring) :=
  match s with
  | [] => PSyntaxError
  | c :: s' =>
      if is_ch ">" c then POk (rev acc, s')
      else if is_ident_part c then parse_name_rest (c :: acc) s'
      else if (128 <=? c)%N then PUnsupported
      else PSyntaxError
  end.

Definition parse_name (s : jsstring) : presult (jsstring * jsstring) :=
  match s with
  | [] => PSyntaxError
  | c :: s' =>
      if is_ident_start c then parse_name_rest [c] s'
      else if (128 <=? c)%N || is_ch "\" c then PUnsupported
      else PSyntaxError
  end.

(** What follows a left parenthesis. *)
Inductive group_kind : Type :=
| GCapture (name : option jsstring)
| GNonCapture.

Definition parse_group_open (s : jsstring) : presult (group_kind * jsstring) :=
  match s with
  | q :: s1 =>
      if is_ch "?" q then
        match s1 with
        | k :: s2 =>
            if is_ch ":" k then POk (GNonCapture, s2)
            else if is_ch "=" k || is_ch "!" k then PUnsupported
            else if is_ch "<" k then
              match s2 with
              | b :: _ =>
                  if is_ch "=" b || is_ch "!" b then PUnsupported
                  else
                    match parse_name s2 with
                    | POk (n, s3) => POk (GCapture (Some n), s3)
                    | PSyntaxError => PSyntaxError
                    | PUnsupported => PUnsupported
                    end
              | [] => PSyntaxError
              end
            else PSyntaxError
        | [] => PSyntaxError
        end
      else POk (GCapture None, s)
  | [] => POk (GCapture None, s)
  end.

(** An atom that is not a group. *)
Definition parse_atom (c : codeunit) (s : jsstring) : presult (regex * jsstring) :=
  if is_ch "." c then POk (RAny, s)
  else if is_ch "\" c then parse_escape s
  else if is_ch "[" c then
    let (neg, s1) := match s with
                     | h :: s' => if is_ch "^" h then (true, s') else (false, s)
                     | [] => (false, s)
                     end in
    match parse_class (S (List.length s1)) [] s1 with
    | POk (items, s2) => POk (RClass neg items, s2)
    | PSyntaxError => PSyntaxError
    | PUnsupported => PUnsupported
    end
  else if is_ch "{" c then PUnsupported
  else POk (RChar c, s).

(** A Disjunction, read up to the end of the text or to an unmatched right
    parenthesis, which is left in place.  [n] counts the capturing groups
    opened so far. *)
Fixpoint parse_disj (fuel : nat) (alts cur : list regex) (s : jsstring) (n : nat)
  : presult (regex * jsstring * nat) :=
  match fuel with
  | O => PUnsupported
  | S fuel' =>
      match s with
      | [] => POk (close_disj alts cur, [], n)
      | c :: s' =>
          if is_ch ")" c then POk (close_disj alts cur, s, n)
          else if is_ch "|" c then parse_disj fuel' (mk_seq (rev cur) :: alts) [] s' n
          else if is_ch "^" c then parse_disj fuel' alts (RBol :: cur) s' n
          else if is_ch "$" c then parse_disj fuel' alts (REol :: cur) s' n
          else if is_ch "*" c || is_ch "+" c || is_ch "?" c then PSyntaxError
          else if is_ch "(" c then
            match parse_group_open s' with
            | POk (kind, s1) =>
                let n1 := match kind with GCapture _ => S n | GNonCapture => n end in
                match parse_disj fuel' [] [] s1 n1 with
                | POk (body, s2, n2) =>
                    match s2 with
                    | _ :: s3 =>
                        let atom := match kind with
                                    | GCapture name => RGroup n1 name body
                                    | GNonCapture => body
                                    end in
                        match parse_quant atom s3 with
                        | POk (t, s4) => parse_disj fuel' alts (t :: cur) s4 n2
                        | PSyntaxError => PSyntaxError
                        | PUnsupported => PUnsupported
                        end
                    | [] => PSyntaxError
                    end
                | PSyntaxError => PSyntaxError
                | PUnsupported => PUnsupported
                end
            | PSyntaxError => PSyntaxError
            | PUnsupported => PUnsupported
            end
          else
            match parse_atom c s' with
            | POk (a, s1) =>
                match parse_quant a s1 with
                | POk (t, s2) => parse_disj fuel' alts (t :: cur) s2 n
                | PSyntaxError => PSyntaxError
                | PUnsupported => PUnsupported
                end
            | PSyntaxError => PSyntaxError
            | PUnsupported => PUnsupported
            end
      end
  end.

Fixpoint has_dup (l : list jsstring) : bool :=
  match l with
  | [] => false
  | a :: l' => existsb (jseqb a) l' || has_dup l'
  end.

(** A regular expression object: its text, its syntax tree and its flags. *)
Record regexp : Type := MkRegExp {
  re_source : jsstring;
  re_ast : regex;
  re_ngroups : nat;
  re_ignoreCase : bool;
  re_global : bool
}.

Definition parse_flags (flags : jsstring) : presult (bool * bool) :=
  if jseqb flags (str "") then POk (false, false)
  else if jseqb flags (str "i") then POk (true, false)
  else if jseqb flags (str "g") then POk (false, true)
  else PUnsupported.

(** [RegExp(source, flags)]. *)
Definition RegExp (source flags : jsstring) : presult regexp :=
  match parse_flags flags with
  | POk (i, g) =>
      match parse_disj (S (List.length source)) [] [] source 0 with
      | POk (r, [], n) =>
          if has_dup (List.map snd (named (groups r))) then
            if has_alt r then PUnsupported else PSyntaxError
          else POk (MkRegExp source r n i g)
      | POk (_, _ :: _, _) => PSyntaxError       (* unmatched right parenthesis *)
      | PSyntaxError => PSyntaxError
      | PUnsupported => PUnsupported
      end
  | PSyntaxError => PSyntaxError
  | PUnsupported => PUnsupported
  end.

(** ** [RegExp.prototype.exec] *)

Record match_result : Type := MkMatch {
  mr_index : nat;                                   (* where the match starts *)
  mr_end : nat;                                     (* where it ends *)
  mr_text : jsstring;                               (* m[0] *)
  mr_captures : list (option jsstring);             (* m[1], m[2], ... *)
  mr_groups : option (list (jsstring * option jsstring))   (* m.groups *)
}.

(** [m.groups] is [undefined] for a pattern without a named group, and
    otherwise has one property per group name, in the order of the
    pattern. *)
Definition groups_object (r : regex) (caps : list (option jsstring))
  : option (list (jsstring * option jsstring)) :=
  match named (groups r) with
  | [] => None
  | ns => Some (List.map (fun g => (snd g, nth (Nat.pred (fst g)) caps None)) ns)
  end.

(** One attempt at index [i], the input from there on being [rest]. *)
Definition match_at (re : regexp) (i : nat) (rest : jsstring) : option match_result :=
  let x := MState i rest (repeat None (re_ngroups re)) in
  match rmatch (re_ignoreCase re) (re_ast re) x (fun y => Some y) with
  | Some y =>
      Some (MkMatch i (m_idx y) (consumed x y) (m_caps y)
                    (groups_object (re_ast re) (m_caps y)))
  | None => None
  end.

(** The search of [exec]: the first index from [i] on at which the pattern
    matches. *)
Fixpoint search (re : regexp) (i : nat) (rest : jsstring) : option match_result :=
  match match_at re i rest with
  | Some m => Some m
  | None =>
      match rest with
      | [] => None
      | _ :: rest' => search re (S i) rest'
      end
  end.

(** [re.exec(input)] for a pattern without the [g] flag: the search starts
    at index 0. *)
Definition exec (re : regexp) (input : jsstring) : option match_result :=
  search re 0 input.

(** ** [String.prototype.replace] with a global pattern *)

(** GetSubstitution, for the forms [$$], [$&] and [$1] to [$9]; a [$]
    followed by anything else stands for itself.  (The templates of the
    router use [$1] and [$2], each followed by a character that is not a
    digit.) *)
Fixpoint substitute (tpl : jsstring) (m : match_result) : jsstring :=
  match tpl with
  | [] => []
  | c :: tpl' =>
      if is_ch "$" c then
        match tpl' with
        | d :: tpl'' =>
            if is_ch "$" d then d :: substitute tpl'' m
            else if is_ch "&" d then mr_text m ++ substitute tpl'' m
            else if (49 <=? d)%N && (d <=? 57)%N
                    && (N.to_nat (d - 48) <=? List.length (mr_captures m))%nat then
              match nth (Nat.pred (N.to_nat (d - 48))) (mr_captures m) None with
              | Some v => v ++ substitute tpl'' m
              | None => substitute tpl'' m
              end
            else c :: substitute tpl' m
        | [] => [c]
        end
      else c :: substitute tpl' m
  end.

(** The loop of [replace]: at index [i] the pattern is tried; a match is
    replaced by the expansion of the template and the loop goes on after
    it (one code unit further when the match is empty); where the pattern
    does not match, the code unit is kept. *)
Fixpoint replace_from (fuel : nat) (re : regexp) (tpl : jsstring) (i : nat)
  (rest : jsstring) : jsstring :=
  match fuel with
  | O => rest
  | S fuel' =>
      match match_at re i rest with
      | Some m =>
          let len := (mr_end m - i)%nat in
          substitute tpl m ++
          match len, rest with
          | O, [] => []
          | O, c :: rest' => c :: replace_from fuel' re tpl (S i) rest'
          | _, _ => replace_from fuel' re tpl (mr_end m) (skipn len rest)
          end
      | None =>
          match rest with
          | [] => []
          | c :: rest' => c :: replace_from fuel' re tpl (S i) rest'
          end
      end
  end.

(** [s.replace(re, tpl)] for a pattern with the [g] flag. *)
Definition replace (s : jsstring) (re : regexp) (tpl : jsstring) : jsstring :=
  replace_from (S (List.length s)) re tpl 0 s.

(** A regular expression literal of the program text.  The literals of the
    router all parse ([literals_parse] below), so the second branch is
    never taken. *)
Definition literal (source flags : string) : regexp :=
  match RegExp (str source) (str flags) with
  | POk re => re
  | _ => MkRegExp (str source) REmpty 0 false false
  end.

(** ** Completions: a call returns a value or throws *)

Inductive error : Type :=
| ErrorMsg (message : jsstring)      (* new Error(message) *)
| SyntaxError                        (* thrown by RegExp *)
| URIError                           (* thrown by decodeURIComponent *)
| Unsupported.                       (* a construct outside this model *)

Inductive completion (A : Type) : Type :=
| Normal (a : A)
| Throw (e : error).
Arguments Normal {A} a.
Arguments Throw {A} e.

Definition of_presult {A} (r : presult A) : completion A :=
  match r with
  | POk a => Normal a
  | PSyntaxError => Throw SyntaxError
  | PUnsupported => Throw Unsupported
  end.

(** ** [decodeURIComponent] *)

Definition hexval (c : codeunit) : option N :=
  if is_digit c then Some (c - 48)%N
  else if (65 <=? c)%N && (c <=? 70)%N then Some (c - 55)%N
  else if (97 <=? c)%N && (c <=? 102)%N then Some (c - 87)%N
  else None.

(** An escape [%XX] at the head of the text: its octet and the text after
    it. *)
Definition read_escape (s : jsstring) : option (N * jsstring) :=
  match s with
  | p :: h :: l :: s' =>
      if is_ch "%" p then
        match hexval h, hexval l with
        | Some a, Some b => Some (16 * a + b, s')%N
        | _, _ => None
        end
      else None
  | _ => None
  end.

(** The [n] escapes that continue a multi-octet sequence; each octet must
    be of the form 10xxxxxx.  The result is the accumulated code point. *)
Fixpoint read_continuation (n : nat) (acc : N) (s : jsstring) : option (N * jsstring) :=
  match n with
  | O => Some (acc, s)
  | S n' =>
      match read_escape s with
      | Some (b, s') =>
          if (128 <=? b)%N && (b <=? 191)%N
          then read_continuation n' (64 * acc + (b - 128))%N s'
          else None
      | None => None
      end
  end.

(** The number of octets announced by a leading octet of 128 or more, with
    the payload bits of that octet and the least code point that needs so
    many octets. *)
Definition leading (b : N) : option (nat * N * N) :=
  if (b <? 192)%N then None                              (* 10xxxxxx *)
  else if (b <? 224)%N then Some (1%nat, b - 192, 128)%N     (* 110xxxxx *)
  else if (b <? 240)%N then Some (2%nat, b - 224, 2048)%N    (* 1110xxxx *)
  else if (b <? 248)%N then Some (3%nat, b - 240, 65536)%N   (* 11110xxx *)
  else None.

Definition is_surrogate (v : N) : bool := (55296 <=? v)%N && (v <=? 57343)%N.

(** UTF16EncodeCodePoint. *)
Definition utf16 (v : N) : jsstring :=
  if (v <? 65536)%N then [v]
  else [55296 + (v - 65536) / 1024; 56320 + (v - 65536) mod 1024]%N.

(** Decode with an empty reserved set; [None] is the [URIError]. *)
Fixpoint decode_from (fuel : nat) (s : jsstring) : option jsstring :=
  match fuel with
  | O => None
  | S fuel' =>
      match s with
      | [] => Some []
      | c :: s' =>
          if is_ch "%" c then
            match read_escape s with
            | Some (b, s1) =>
                if (b <? 128)%N then option_map (cons b) (decode_from fuel' s1)
                else
                  match leading b with
                  | Some (n, bits, least) =>
                      match read_continuation n bits s1 with
                      | Some (v, s2) =>
                          if (least <=? v)%N && (v <=? 1114111)%N && negb (is_surrogate v)
                          then option_map (app (utf16 v)) (decode_from fuel' s2)
                          else None
                      | None => None
                      end
                  | None => None
                  end
            | None => None
            end
          else option_map (cons c) (decode_from fuel' s')
      end
  end.

Definition decodeURIComponent (s : jsstring) : completion jsstring :=
  match decode_from (S (List.length s)) s with
  | Some r => Normal r
  | None => Throw URIError
  end.

(** ** Objects with string keys

    The properties of an object in the order of their creation; [obj[k] = v]
    overwrites the property [k] in place or adds it at the end. *)
Definition object (V : Type) := list (jsstring * V).

Fixpoint obj_set {V} (o : object V) (k : jsstring) (v : V) : object V :=
  match o with
  | [] => [(k, v)]
  | (k', v') :: o' => if jseqb k' k then (k', v) :: o' else (k', v') :: obj_set o' k v
  end.

Fixpoint obj_get {V} (o : object V) (k : jsstring) : option V :=
  match o with
  | [] => None
  | (k', v') :: o' => if jseqb k' k then Some v' else obj_get o' k
  end.

End Js.

(* ================================================================== *)
(** * The host framework *)
(* ================================================================== *)

Module Hoa.
Import Js.

(** The request context.  [ctx] is one mutable object in JavaScript; here
    its state is passed along: a middleware receives the state it is called
    in and [next] receives the state the middleware calls it in. *)
Record request : Type := Request {
  method : jsstring;
  pathname : jsstring;
  params : option (object (option jsstring));   (* undefined until a route matches *)
  routePath : option jsstring
}.

Record response : Type := Response {
  status : option N;
  body : option jsstring
}.

Record context : Type := Context {
  req : request;
  res : response;
  state : object jsstring
}.

Definition next_fn := context -> completion context.
Definition middleware := context -> next_fn -> completion context.

(** Modelled from the spec: [compose] of the package [hoa] is imported by
    the router and is not part of its sources.  A composed handler "runs
    them in order, each explicitly invoking continue to proceed to the next
    handler in its own chain"; after the last handler, continue is the
    continuation the composed handler was called with. *)
Fixpoint compose (ms : list middleware) : middleware :=
  fun ctx next =>
    match ms with
    | [] => next ctx
    | m :: ms' => m ctx (fun ctx' => compose ms' ctx' next)
    end.

(** The application: its pipeline, in registration order. *)
Record application : Type := App {
  middlewares : list middleware
}.

(** Modelled from the spec: [app.use] of the package [hoa] adds one step at
    the end of the pipeline ("an ordered pipeline of steps", "routes are
    tested strictly in registration order"). *)
Definition use (app : application) (m : middleware) : application :=
  App (middlewares app ++ [m]).


End Hoa.

(* ================================================================== *)
(** * The router *)
(* ================================================================== *)

Module TinyRouter.
Import Js Hoa.

Definition methods : list jsstring :=
  List.map str ["options"; "head"; "get"; "post"; "put"; "patch"; "delete"]%string.

(** The options object: a property that is absent is [None]. *)
Record options : Type := Options {
  sensitive : option bool;
  trailing : option bool
}.

Definition default (d : bool) (v : option bool) : bool :=
  match v with
  | Some b => b
  | None => d
  end.

(** The five regular expression literals of [compile]. *)
Definition re_slashes : regexp := literal "\/+(\/|$)" "g".
Definition re_greedy : regexp := literal "(\/?\.?):(\w+)\+" "g".
Definition re_named : regexp := literal "(\/?\.?):(\w+)" "g".
Definition re_dot : regexp := literal "\." "g".
Definition re_wildcard : regexp := literal "(\/?)\*" "g".

(** The text of the pattern after the five rewriting steps. *)
Definition rewrite (path : jsstring) : jsstring :=
  replace (replace (replace (replace (replace path
    re_slashes (str "$1"))                     (* strip double & trailing slash *)
    re_greedy (str "($1(?<$2>*))"))            (* greedy params *)
    re_named (str "($1(?<$2>[^$1/]+?))"))      (* named params and image format *)
    re_dot (str "\."))                         (* dot in path *)
    re_wildcard (str "($1.*)?").               (* wildcard *)

(** [compile(path, options)]; the constructor [RegExp] may throw. *)
Definition compile (path : jsstring) (o : options) : presult regexp :=
  let sensitive := default false (sensitive o) in
  let trailing := default true (trailing o) in
  let pattern := rewrite path in
  let patternWithTrailing := if trailing then pattern ++ str "(?:\/)?" else pattern in
  let flags := if sensitive then str "" else str "i" in
  RegExp (str "^" ++ patternWithTrailing ++ str "$") flags.

(** A string or [undefined] is truthy when it is a string that is not
    empty. *)
Definition truthy (v : option jsstring) : bool :=
  match v with
  | Some (_ :: _) => true
  | _ => false
  end.

(** [===] between a value that is a string or [undefined] and a string. *)
Definition strict_eq (a : option jsstring) (b : jsstring) : bool :=
  match a with
  | Some a' => jseqb a' b
  | None => false
  end.

(** [decode(val)]: [if (val) return decodeURIComponent(val)]; otherwise the
    function returns [undefined]. *)
Definition decode (val : option jsstring) : completion (option jsstring) :=
  if truthy val then
    match decodeURIComponent (match val with Some v => v | None => [] end) with
    | Normal r => Normal (Some r)
    | Throw e => Throw e
    end
  else Normal None.

(** [matches(ctx, method)]; the route method is [undefined] for [app.all]. *)
Definition matches (ctx : context) (route_method : option jsstring) : bool :=
  if negb (truthy route_method) then true
  else if strict_eq route_method (method (req ctx)) then true
  else if strict_eq route_method (str "GET") && jseqb (method (req ctx)) (str "HEAD")
  then true
  else false.

(** The loop [for (const [key, value] of Object.entries(m.groups))
    params[key] = decode(value)]. *)
Fixpoint decode_entries (entries : object (option jsstring))
  (params : object (option jsstring)) : completion (object (option jsstring)) :=
  match entries with
  | [] => Normal params
  | (key, value) :: entries' =>
      match decode value with
      | Normal v => decode_entries entries' (obj_set params key v)
      | Throw e => Throw e
      end
  end.

Definition decode_groups (m : match_result) : completion (object (option jsstring)) :=
  match mr_groups m with
  | Some gs => decode_entries gs []
  | None => Normal []
  end.

(** [ctx.req.params = params; ctx.req.routePath = path]. *)
Definition attach (ctx : context) (ps : object (option jsstring)) (path : jsstring)
  : context :=
  Context (Request (method (req ctx)) (pathname (req ctx)) (Some ps) (Some path))
          (res ctx) (state ctx).

(** The closure [routeMiddleware] returned by [createRoute], with the
    variables it captures as arguments. *)
Definition routeMiddleware (route_method : option jsstring) (path : jsstring)
  (regexp : Js.regexp) (composed : middleware) : middleware :=
  fun ctx next =>
    if negb (matches ctx route_method) then next ctx
    else
      match exec regexp (pathname (req ctx)) with
      | None => next ctx
      | Some m =>
          match decode_groups m with
          | Normal ps => composed (attach ctx ps path) next
          | Throw e => Throw e
          end
      end.

(** [createRoute(method, path, handlers, options)]. *)
Definition createRoute (route_method : option jsstring) (path : jsstring)
  (handlers : list middleware) (o : options) : completion middleware :=
  match of_presult (compile path o) with
  | Normal regexp =>
      let composed := match handlers with
                      | [h] => h
                      | _ => compose handlers
                      end in
      Normal (routeMiddleware route_method path regexp composed)
  | Throw e => Throw e
  end.

(** The value a route helper returns: the application object it was
    called on. *)
Inductive returned : Type := TheApp.

(** The function returned by [createRouteMethod(method)], called on the
    application [app]: what it returns or throws, and the application
    afterwards. *)
Definition createRouteMethod (o : options) (route_method : option jsstring)
  (app : application) (path : jsstring) (handlers : list middleware)
  : completion returned * application :=
  if (List.length handlers =? 0)%nat then
    (Throw (ErrorMsg (str "Route "
                      ++ (if truthy route_method
                          then match route_method with Some m => m | None => [] end
                          else str "ALL")
                      ++ str " " ++ path ++ str " must have at least one handler")),
     app)
  else
    match createRoute route_method path handlers o with
    | Normal routeMiddleware => (Normal TheApp, use app routeMiddleware)
    | Throw e => (Throw e, app)
    end.


End TinyRouter.

(* ================================================================== *)
(** * Properties *)
(* ================================================================== *)

Import Js Hoa TinyRouter.

Unset Implicit Arguments.

(** Whether a compiled matcher accepts a path, and the raw capture bound
    to a name. *)
Definition accepts (re : regexp) (path : jsstring) : bool :=
  match exec re path with
  | Some _ => true
  | None => false
  end.

Definition raw_param (re : regexp) (path name : jsstring) : option (option jsstring) :=
  match exec re path with
  | Some m =>
      match mr_groups m with
      | Some gs => obj_get gs name
      | None => None
      end
  | None => None
  end.

(** ** The language of a term

    [lang ic r i w rest]: at index [i] of the input the term [r] can consume
    the string [w] when [rest] follows.  It is what the matcher consumes,
    without the order in which a backtracking matcher tries the
    alternatives. *)
Fixpoint lang_iter (L : nat -> jsstring -> jsstring -> Prop) (ws : list jsstring)
  (i : nat) (rest : jsstring) : Prop :=
  match ws with
  | [] => True
  | w :: ws' =>
      L i w (List.concat ws' ++ rest) /\ lang_iter L ws' (i + List.length w) rest
  end.

Fixpoint lang (ic : bool) (r : regex) (i : nat) (w rest : jsstring) : Prop :=
  match r with
  | REmpty => w = []
  | RBol => w = [] /\ i = 0
  | REol => w = [] /\ rest = []
  | RChar ch => exists a, w = [a] /\ canon ic a = canon ic ch
  | RAny => exists a, w = [a] /\ is_line_terminator a = false
  | RClass neg items => exists a, w = [a] /\ class_has ic neg items a = true
  | RSeq r1 r2 =>
      exists w1 w2, w = w1 ++ w2 /\ lang ic r1 i w1 (w2 ++ rest)
                    /\ lang ic r2 (i + List.length w1) w2 rest
  | RAlt r1 r2 => lang ic r1 i w rest \/ lang ic r2 i w rest
  | RGroup _ _ r' => lang ic r' i w rest
  | RRepeat mn mx _ r' =>
      exists ws, w = List.concat ws /\ lang_iter (lang ic r') ws i rest
                 /\ match mx with Some k => Nat.min mn k | None => mn end <= List.length ws
                 /\ match mx with Some k => List.length ws <= k | None => True end
  end.

(** The state [y] is reached from [x] by consuming [w]. *)
Definition extends (x y : mstate) (w : jsstring) : Prop :=
  m_rest x = w ++ m_rest y /\ m_idx y = m_idx x + List.length w.

(** Every capture satisfies [Q], a property of the position of the group
    and of the captured string. *)
Definition caps_ok (Q : nat -> jsstring -> Prop) (caps : list (option jsstring)) : Prop :=
  forall k s, nth_error caps k = Some (Some s) -> Q k s.

(** Every group of the term captures only strings that satisfy [Q]. *)
Fixpoint groups_sat (ic : bool) (Q : nat -> jsstring -> Prop) (r : regex) : Prop :=
  match r with
  | RSeq r1 r2 | RAlt r1 r2 => groups_sat ic Q r1 /\ groups_sat ic Q r2
  | RGroup i _ r' =>
      (forall k s rest, lang ic r' k s rest -> Q (Nat.pred i) s) /\ groups_sat ic Q r'
  | RRepeat _ _ _ r' => groups_sat ic Q r'
  | _ => True
  end.

(** The groups of a term with their bodies. *)
Fixpoint bodies (r : regex) : list (nat * regex) :=
  match r with
  | RSeq r1 r2 | RAlt r1 r2 => bodies r1 ++ bodies r2
  | RGroup i _ r' => (i, r') :: bodies r'
  | RRepeat _ _ _ r' => bodies r'
  | _ => []
  end.

(** A term without an assertion: what it consumes does not depend on
    where in the input it is tried. *)
Fixpoint anchor_free (r : regex) : bool :=
  match r with
  | RBol | REol => false
  | RSeq r1 r2 | RAlt r1 r2 => anchor_free r1 && anchor_free r2
  | RGroup _ _ r' | RRepeat _ _ _ r' => anchor_free r'
  | _ => true
  end.

(** The members of the class when the term is a negated class repeated
    at least once: the form of [[^...]+?]. *)
Definition negated_class_run (body : regex) : option (list class_item) :=
  match body with
  | RSeq (RRepeat (S _) None _ (RClass true items)) REmpty => Some items
  | _ => None
  end.

Definition excluded (items : list class_item) (c : codeunit) : bool :=
  existsb (fun it => match it with CChar a => (a =? c)%N | _ => false end) items.

(** The matcher [compile] returns, where it returns one. *)
Definition compiled (path : jsstring) (o : options) : regexp :=
  match compile path o with
  | POk re => re
  | _ => MkRegExp [] REmpty 0 false false
  end.

(** The match [exec] returns, where it returns one. *)
Definition matched (re : regexp) (input : jsstring) : match_result :=
  match exec re input with
  | Some m => m
  | None => MkMatch 0 0 [] [] None
  end.

(** A handler that calls [next] and does nothing else. *)
Definition some_handler : middleware := fun ctx next => next ctx.


(** The parameters the middleware of a route for [pattern] attaches on a
    request for [path]: [None] when the matcher does not match. *)
Definition route_params (o : options) (pattern path : jsstring)
  : completion (option (object (option jsstring))) :=
  match of_presult (compile pattern o) with
  | Normal re =>
      match exec re path with
      | Some m =>
          match decode_groups m with
          | Normal ps => Normal (Some ps)
          | Throw e => Throw e
          end
      | None => Normal None
      end
  | Throw e => Throw e
  end.

(** The syntax trees of the three regions the rewriting steps produce: a
    negated class repeated lazily at least once, for a named parameter; an
    optional group [g] around a run of any code units, for a greedy
    parameter; an optional group [g] around a slash (when the marker had
    one) and a run of any code units, for a wildcard. *)
Definition named_body (items : list class_item) : regex :=
  RSeq (RRepeat 1 None false (RClass true items)) REmpty.

Definition any_run : regex := RSeq (RRepeat 0 None true RAny) REmpty.

Definition greedy_body (g : nat) : regex :=
  RSeq (RRepeat 0 (Some 1) true (RGroup g None any_run)) REmpty.

Definition wildcard_region (g : nat) (slash : bool) : regex :=
  RRepeat 0 (Some 1) true
    (RGroup g None (if slash then RSeq (RChar (cu "/")) any_run else any_run)).

Definition no_line_terminator (s : jsstring) : Prop :=
  Forall (fun a => is_line_terminator a = false) s.

(** ** The rewriting steps, said directly

    Each of the five [replace] calls of [compile] scans the text from left
    to right; at each position either a marker starts there, and it is
    replaced, or the code unit is kept.  A scanner says, for the text at a
    position, what replaces the marker that starts there and where the
    scan goes on. *)
Definition scanner := jsstring -> option (jsstring * jsstring).

Fixpoint scan (fuel : nat) (sc : scanner) (s : jsstring) : jsstring :=
  match fuel with
  | O => s
  | S fuel' =>
      match sc s with
      | Some (out, rest) => out ++ scan fuel' sc rest
      | None =>
          match s with
          | [] => []
          | c :: s' => c :: scan fuel' sc s'
          end
      end
  end.

Definition scan_all (sc : scanner) (s : jsstring) : jsstring :=
  scan (S (List.length s)) sc s.

Fixpoint skip_slashes (s : jsstring) : jsstring :=
  match s with
  | c :: s' => if is_ch "/" c then skip_slashes s' else s
  | [] => []
  end.

(** Step 1: a run of slashes that reaches the end of the text is removed;
    any other run of two or more slashes becomes one slash. *)
Definition sc_slashes : scanner := fun s =>
  match s with
  | c :: s' =>
      if is_ch "/" c then
        match skip_slashes s', s' with
        | [], _ => Some ([], [])
        | rest, d :: _ => if is_ch "/" d then Some (str "/", rest) else None
        | _, [] => None
        end
      else None
  | [] => None
  end.

(** The longest run of word characters at the head of the text. *)
Fixpoint word_run (s : jsstring) : jsstring * jsstring :=
  match s with
  | c :: s' => if is_word c then let (w, r) := word_run s' in (c :: w, r) else ([], s)
  | [] => ([], [])
  end.

Definition take_ch (a : ascii) (s : jsstring) : jsstring * jsstring :=
  match s with
  | c :: s' => if is_ch a c then ([c], s') else ([], s)
  | [] => ([], [])
  end.

(** A parameter marker at the head of the text: an optional slash, an
    optional dot, a colon and a name of one or more word characters, as
    long as possible.  The result is the prefix, the name and the text
    after the name. *)
Definition marker (s : jsstring) : option (jsstring * jsstring * jsstring) :=
  let (p1, s1) := take_ch "/" s in
  let (p2, s2) := take_ch "." s1 in
  match s2 with
  | c :: s3 =>
      if is_ch ":" c then
        match word_run s3 with
        | ([], _) => None
        | (name, s4) => Some (p1 ++ p2, name, s4)
        end
      else None
  | [] => None
  end.

(** Step 2: a marker followed by [+] becomes a group for the prefix and,
    inside it, a named group that holds a lone star (which step 5
    rewrites). *)
Definition sc_greedy : scanner := fun s =>
  match marker s with
  | Some (p, name, c :: rest) =>
      if is_ch "+" c
      then Some (str "(" ++ p ++ str "(?<" ++ name ++ str ">*))", rest)
      else None
  | _ => None
  end.

(** Step 3: a marker becomes a group for the prefix and, inside it, a
    named group for one or more code units, as few as possible, other than
    those of the prefix and the slash. *)
Definition sc_named : scanner := fun s =>
  match marker s with
  | Some (p, name, rest) =>
      Some (str "(" ++ p ++ str "(?<" ++ name ++ str ">[^" ++ p ++ str "/]+?))", rest)
  | None => None
  end.

(** Step 4: a dot is escaped. *)
Definition sc_dot : scanner := fun s =>
  match s with
  | c :: rest => if is_ch "." c then Some (str "\.", rest) else None
  | [] => None
  end.

(** Step 5: a star, with the slash before it if there is one, becomes an
    optional group around that slash and a run of any code units. *)
Definition sc_wildcard : scanner := fun s =>
  match s with
  | c :: rest =>
      if is_ch "*" c then Some (str "(.*)?", rest)
      else if is_ch "/" c then
        match rest with
        | d :: rest' => if is_ch "*" d then Some (str "(/.*)?", rest') else None
        | [] => None
        end
      else None
  | [] => None
  end.

Definition rewrite_steps (path : jsstring) : jsstring :=
  scan_all sc_wildcard
    (scan_all sc_dot (scan_all sc_named (scan_all sc_greedy (scan_all sc_slashes path)))).

(** The scanner [sc] says what [replace] with the pattern [re] and the
    template [tpl] does at a position. *)
Definition refines (re : regexp) (tpl : jsstring) (sc : scanner) : Prop :=
  forall i s,
    match sc s with
    | Some (out, rest) =>
        exists m k, match_at re i s = Some m /\ substitute tpl m = out
                    /\ 0 < k /\ mr_end m = i + k /\ skipn k s = rest
    | None => match_at re i s = None
    end.

(** What follows the run of slashes in the first pattern of [compile]: one
    more slash, or the end of the text. *)
Definition slash_or_end : regex :=
  RSeq (RGroup 1 None (RAlt (RSeq (RChar (cu "/")) REmpty) (RSeq REol REmpty))) REmpty.

(** The two patterns for markers, in parts: the optional slash and dot, the
    colon, and the name with what follows it. *)
Definition marker_prefix : regex :=
  RGroup 1 None
    (RSeq (RRepeat 0 (Some 1) true (RChar (cu "/")))
          (RSeq (RRepeat 0 (Some 1) true (RChar (cu "."))) REmpty)).

Definition name_then (tail : regex) : regex :=
  RSeq (RGroup 2 None (RSeq (RRepeat 1 None true (RClass false [CWord])) REmpty)) tail.

(** What completeness says: [succeeds c i rest] when the continuation [c]
    succeeds at index [i] before [rest], whatever the captures. *)
Definition succeeds (c : cont) (i : nat) (rest : jsstring) : Prop :=
  forall caps, exists z, c (MState i rest caps) = Some z.

Definition complete_for (m : mstate -> cont -> option mstate)
  (L : nat -> jsstring -> jsstring -> Prop) : Prop :=
  forall i w rest c, L i w rest -> succeeds c (i + List.length w) rest ->
  succeeds (fun x => m x c) i (w ++ rest).

(** What soundness says of a matcher [m] for a language [L], the captures
    keeping the property [Q]. *)
Definition sound_for (Q : nat -> jsstring -> Prop) (m : mstate -> cont -> option mstate)
  (L : nat -> jsstring -> jsstring -> Prop) : Prop :=
  forall x c z, m x c = Some z -> caps_ok Q (m_caps x) ->
  exists y w, c y = Some z /\ extends x y w /\ L (m_idx x) w (m_rest y)
              /\ caps_ok Q (m_caps y).

(** The syntax tree of the matcher of [/docs/:path+], with and without the
    optional trailing slash. *)
Definition trailing_slash : regex :=
  RRepeat 0 (Some 1) true (RSeq (RChar (cu "/")) REmpty).

Definition docs_ast (trail : bool) : regex :=
  mk_seq ([RBol] ++ List.map RChar (str "/docs")
          ++ [RGroup 1 None
                (mk_seq [RChar (cu "/"); RGroup 2 (Some (str "path")) (greedy_body 3)])]
          ++ (if trail then [trailing_slash] else [])
          ++ [REol]).

(** ** The grammar of patterns

    A pattern of the grammar is a sequence of tokens: a slash and a literal
    segment, a slash and a named parameter, a slash and a greedy
    parameter, a slash and a wildcard, and a dot and a named parameter (an
    extension, as in [/img/:name.:ext]). *)
Inductive token : Type :=
| TLit (w : jsstring)
| TParam (name : jsstring)
| TGreedy (name : jsstring)
| TWild
| TExt (name : jsstring).

(** A Basic Latin code unit that means itself in every step of [compile]
    and to [RegExp]. *)
Definition plain (c : codeunit) : bool :=
  (c <? 128)%N && negb (existsb (N.eqb c) (str "/.:*+?()[]{}\^$|")).

Definition render_token (t : token) : jsstring :=
  match t with
  | TLit w => str "/" ++ w
  | TParam n => str "/:" ++ n
  | TGreedy n => str "/:" ++ n ++ str "+"
  | TWild => str "/*"
  | TExt n => str ".:" ++ n
  end.

Definition render (ts : list token) : jsstring := flat_map render_token ts.

(** A literal segment is one or more plain code units; a name is one or
    more word characters. *)
Definition token_ok (t : token) : Prop :=
  match t with
  | TLit w => w <> [] /\ Forall (fun c => plain c = true) w
  | TParam n | TGreedy n | TExt n => n <> [] /\ Forall (fun c => is_word c = true) n
  | TWild => True
  end.

(** The text of a token after steps 2, 3, 4 and 5. *)
Definition text2 (t : token) : jsstring :=
  match t with
  | TGreedy n => str "(/(?<" ++ n ++ str ">*))"
  | _ => render_token t
  end.

Definition text3 (t : token) : jsstring :=
  match t with
  | TParam n => str "(/(?<" ++ n ++ str ">[^//]+?))"
  | TExt n => str "(.(?<" ++ n ++ str ">[^./]+?))"
  | _ => text2 t
  end.

Definition text4 (t : token) : jsstring :=
  match t with
  | TExt n => str "(\.(?<" ++ n ++ str ">[^\./]+?))"
  | _ => text3 t
  end.

Definition text5 (t : token) : jsstring :=
  match t with
  | TGreedy n => str "(/(?<" ++ n ++ str ">(.*)?))"
  | TWild => str "(/.*)?"
  | _ => text4 t
  end.

(** A text that does not go on with a name or with a plus sign. *)
Definition breaks (rest : jsstring) : Prop :=
  match rest with
  | [] => True
  | c :: _ => is_word c = false /\ is_ch "+" c = false
  end.

(** A name that [RegExp] takes as the name of a group: word characters, the
    first of them not a digit. *)
Definition name_ok (n : jsstring) : Prop :=
  match n with
  | c :: _ => is_digit c = false
  | [] => False
  end /\ Forall (fun c => is_word c = true) n.

Definition token_names (t : token) : list jsstring :=
  match t with
  | TParam n | TGreedy n | TExt n => [n]
  | TLit _ | TWild => []
  end.

(** The terms [RegExp] makes of the text of a token, [g] groups having been
    opened before it, and the number of groups after it. *)
Definition token_terms (g : nat) (t : token) : list regex * nat :=
  match t with
  | TLit w => (RChar (cu "/") :: List.map RChar w, g)
  | TParam n =>
      ([RGroup (S g) None
          (mk_seq [RChar (cu "/");
                   RGroup (S (S g)) (Some n) (named_body [CChar (cu "/"); CChar (cu "/")])])],
       S (S g))
  | TGreedy n =>
      ([RGroup (S g) None
          (mk_seq [RChar (cu "/");
                   RGroup (S (S g)) (Some n) (greedy_body (S (S (S g))))])],
       S (S (S g)))
  | TWild => ([wildcard_region (S g) true], S g)
  | TExt n =>
      ([RGroup (S g) None
          (mk_seq [RChar (cu ".");
                   RGroup (S (S g)) (Some n) (named_body [CChar (cu "."); CChar (cu "/")])])],
       S (S g))
  end.

Fixpoint tokens_terms (g : nat) (ts : list token) : list regex * nat :=
  match ts with
  | [] => ([], g)
  | t :: ts' =>
      let (a, g1) := token_terms g t in
      let (b, g2) := tokens_terms g1 ts' in
      (a ++ b, g2)
  end.

(** The syntax tree of the matcher of a pattern of the grammar. *)
Definition grammar_ast (trail : bool) (ts : list token) : regex :=
  mk_seq ([RBol] ++ fst (tokens_terms 0 ts)
          ++ (if trail then [trailing_slash] else []) ++ [REol]).

(** A text that does not go on with a quantifier. *)
Definition no_quant (rest : jsstring) : Prop :=
  match rest with
  | [] => True
  | c :: _ => is_ch "*" c = false /\ is_ch "+" c = false /\ is_ch "?" c = false
              /\ is_ch "{" c = false
  end.

(** A code unit that [RegExp] reads as itself. *)
Definition literal_char (c : codeunit) : bool :=
  negb (existsb (N.eqb c) (str ")|^$*+?(.\[{")).

(** A pattern of the grammar written with more slashes: [k] slashes more
    before a token, and [e] slashes at the end. *)
Fixpoint render_slashes (ts : list (nat * token)) (e : nat) : jsstring :=
  match ts with
  | [] => repeat (cu "/") e
  | (k, t) :: ts' => repeat (cu "/") k ++ render_token t ++ render_slashes ts' e
  end.

(** The tokens that start with a slash. *)
Definition slash_token (t : token) : bool :=
  match t with
  | TExt _ => false
  | _ => true
  end.


(** Two strings that differ at most by the case of Basic Latin letters. *)
Definition same_ci (w w' : jsstring) : Prop :=
  Forall2 (fun a b => upcase a = upcase b) w w'.

(** A text without two slashes in a row and without a slash at its end. *)
Fixpoint tidy (s : jsstring) : bool :=
  match s with
  | [] => true
  | c :: s' =>
      if is_ch "/" c
      then match s' with
           | [] => false
           | d :: _ => negb (is_ch "/" d) && tidy s'
           end
      else tidy s'
  end.

(** A code unit of a pattern without markers: a plain one, a slash or a
    dot. *)
Definition static (c : codeunit) : bool :=
  plain c || is_ch "/" c || is_ch "." c.

(** The text with a backslash before each dot. *)
Definition escape_dots (s : jsstring) : jsstring :=
  flat_map (fun c => if is_ch "." c then str "\." else [c]) s.

(** The syntax tree of the matcher of a pattern without markers. *)
Definition static_ast (trail : bool) (q : jsstring) : regex :=
  mk_seq ([RBol] ++ List.map RChar q
          ++ (if trail then [trailing_slash] else []) ++ [REol]).

(** The tokens that stand for one segment of a path: a literal segment and
    a named parameter. *)
Definition segment_token (t : token) : bool :=
  match t with
  | TLit _ | TParam _ => true
  | _ => false
  end.

(** A segment of a path fits a token: it is the literal segment (in any
    case unless the matcher is case sensitive), or, for a named parameter,
    it is not empty and holds no slash. *)
Definition fits (sens : bool) (t : token) (seg : jsstring) : Prop :=
  match t with
  | TLit w => if sens then seg = w else same_ci seg w
  | TParam _ => seg <> [] /\ ~ In (cu "/") seg
  | _ => False
  end.

(** The path made of segments, a slash before each. *)
Definition join (segs : list jsstring) : jsstring :=
  flat_map (fun seg => cu "/" :: seg) segs.

(** The segments that stand where the named parameters are, under the
    names of the parameters. *)
Fixpoint bindings (ts : list token) (segs : list jsstring) : object (option jsstring) :=
  match ts, segs with
  | TParam n :: ts', seg :: segs' => (n, Some seg) :: bindings ts' segs'
  | _ :: ts', _ :: segs' => bindings ts' segs'
  | _, _ => []
  end.


(** The captures once the terms of segment tokens, [g] groups having been
    opened before them, have consumed the segments: a named parameter
    fills two groups, the outer one with the slash. *)
Fixpoint captured (g : nat) (ts : list token) (segs : list jsstring)
  (caps : list (option jsstring)) : list (option jsstring) :=
  match ts, segs with
  | TParam _ :: ts', seg :: segs' =>
      captured (S (S g)) ts' segs'
               (set_nth g (Some (cu "/" :: seg)) (set_nth (S g) (Some seg) caps))
  | _ :: ts', _ :: segs' => captured g ts' segs' caps
  | _, _ => caps
  end.

(** Terms that consume nothing but a slash first. *)
Definition slash_led (ic : bool) (R : list regex) : Prop :=
  forall i b s caps c, b <> cu "/" -> rmatch ic (mk_seq R) (MState i (b :: s) caps) c = None.

(** A scanner makes progress when what it leaves is shorter than what it
    was given. *)
Definition progresses (sc : scanner) : Prop :=
  forall s out rest, sc s = Some (out, rest) -> List.length rest < List.length s.

(** The five literals of [compile] are well-formed. *)
Lemma literals_parse :
  RegExp (str "\/+(\/|$)") (str "g") = POk re_slashes /\
  RegExp (str "(\/?\.?):(\w+)\+") (str "g") = POk re_greedy /\
  RegExp (str "(\/?\.?):(\w+)") (str "g") = POk re_named /\
  RegExp (str "\.") (str "g") = POk re_dot /\
  RegExp (str "(\/?)\*") (str "g") = POk re_wildcard.
Proof. repeat split; reflexivity. Qed.

(** ** Method matching *)

Lemma jseqb_eq (a b : jsstring) : jseqb a b = true <-> a = b.
Proof.
  unfold jseqb. destruct (list_eq_dec N.eq_dec a b); split; congruence.
Qed.

Lemma jseqb_refl (a : jsstring) : jseqb a a = true.
Proof. now apply jseqb_eq. Qed.

Lemma jseqb_neq (a b : jsstring) : a <> b -> jseqb a b = false.
Proof.
  intro H. destruct (jseqb a b) eqn:E; [|reflexivity].
  apply jseqb_eq in E. contradiction.
Qed.

Lemma matches_some (ctx : context) (m : jsstring) :
  m <> [] ->
  matches ctx (Some m) = true <->
  method (req ctx) = m \/ (m = str "GET" /\ method (req ctx) = str "HEAD").
Proof.
  intro Hm. unfold matches, strict_eq.
  destruct m as [|c m]; [congruence|]. cbn [truthy negb].
  destruct (jseqb (c :: m) (method (req ctx))) eqn:E1.
  - apply jseqb_eq in E1. split; auto.
  - destruct (jseqb (c :: m) (str "GET")) eqn:E2;
      destruct (jseqb (method (req ctx)) (str "HEAD")) eqn:E3; cbn [andb].
    + apply jseqb_eq in E2, E3. split; auto.
    + split; [discriminate|]. intros [H|[_ H]].
      * rewrite H, jseqb_refl in E1. discriminate.
      * rewrite H, jseqb_refl in E3. discriminate.
    + split; [discriminate|]. intros [H|[H _]].
      * rewrite H, jseqb_refl in E1. discriminate.
      * rewrite H, jseqb_refl in E2. discriminate.
    + split; [discriminate|]. intros [H|[H _]].
      * rewrite H, jseqb_refl in E1. discriminate.
      * rewrite H, jseqb_refl in E2. discriminate.
Qed.

Lemma in_methods_upper (name : jsstring) :
  In name methods ->
  In (toUpperCase name)
     (List.map str ["OPTIONS"; "HEAD"; "GET"; "POST"; "PUT"; "PATCH"; "DELETE"]%string)
  /\ (toUpperCase name = str "GET" <-> name = str "get").
Proof.
  unfold methods. cbn [List.map In].
  intros [H|[H|[H|[H|[H|[H|[H|[]]]]]]]]; subst name; (split; [vm_compute; tauto|]);
    split; intro H; try reflexivity; try (vm_compute in H; discriminate H).
Qed.

(** C3, as the claim states it: the two method strings are not compared
    through their upper case.  The request method [patch] is the route
    method of [app.patch] but for its case, and the route does not match
    the request. *)
Lemma lowercase_method_not_matched :
  toUpperCase (str "patch") = toUpperCase (str "PATCH")
  /\ matches (Context (Request (str "patch") (str "/hoa") None None)
                      (Response None None) [])
             (Some (toUpperCase (str "patch"))) = false.
Proof. split; reflexivity. Qed.

(** C3.  A route registered for no method ([app.all]) matches every request
    method.  A route registered for a method matches a request exactly when
    the request method is that string, code unit for code unit, or the
    route method is GET and the request method is HEAD.  The route method
    of the helper [app[name]] is the upper-cased name, so the statement
    reads the same for every helper; the request method is taken as it
    is.  A POST route does not match PUT, and a route for a method other
    than GET (and other than HEAD itself) does not match HEAD. *)
Theorem matches_characterised :
  (forall ctx, matches ctx None = true) /\
  (forall ctx m, m <> [] ->
     (matches ctx (Some m) = true <->
      method (req ctx) = m \/ (m = str "GET" /\ method (req ctx) = str "HEAD"))) /\
  (forall ctx name, In name methods ->
     (matches ctx (Some (toUpperCase name)) = true <->
      method (req ctx) = toUpperCase name
      \/ (name = str "get" /\ method (req ctx) = str "HEAD"))) /\
  (forall ctx, method (req ctx) = str "PUT" -> matches ctx (Some (str "POST")) = false) /\
  (forall ctx m, method (req ctx) = str "HEAD" ->
     m <> [] -> m <> str "GET" -> m <> str "HEAD" -> matches ctx (Some m) = false).
Proof.
  split; [reflexivity|]. split; [exact matches_some|]. split; [|split].
  - intros ctx name Hin. destruct (in_methods_upper name Hin) as [Hup Hget].
    rewrite matches_some.
    + rewrite Hget. reflexivity.
    + intro E. rewrite E in Hup. vm_compute in Hup.
      repeat (destruct Hup as [Hup|Hup]; [discriminate Hup|]). exact Hup.
  - intros ctx H. destruct (matches ctx (Some (str "POST"))) eqn:E; [|reflexivity].
    apply matches_some in E; [|discriminate].
    rewrite H in E. destruct E as [E|[E _]]; vm_compute in E; discriminate E.
  - intros ctx m H Hne Hg Hh.
    destruct (matches ctx (Some m)) eqn:E; [|reflexivity].
    apply matches_some in E; [|exact Hne].
    destruct E as [E|[E _]]; congruence.
Qed.

Lemma matches_characterised_witness :
  matches (Context (Request (str "HEAD") (str "/hoa") None None) (Response None None) [])
          (Some (str "GET")) = true.
Proof.
  apply (proj1 (proj2 matches_characterised)
           (Context (Request (str "HEAD") (str "/hoa") None None) (Response None None) [])
           (str "GET")).
  - discriminate.
  - right. split; reflexivity.
Defined.

(** ** Soundness of the matcher

    Whatever the matcher of a term returns was returned by its continuation,
    called in a state reached by consuming a string of the language of the
    term; and the captures keep any property the groups of the term
    guarantee. *)

Lemma nth_error_set_nth {A} (n : nat) (v : A) (l : list A) (k : nat) (a : A) :
  nth_error (set_nth n v l) k = Some a ->
  (k = n /\ a = v) \/ nth_error l k = Some a.
Proof.
  revert n k. induction l as [|b l IH]; intros n k H; cbn in H.
  - destruct n; right; exact H.
  - destruct n as [|n]; destruct k as [|k]; cbn in H |- *.
    + left. split; congruence.
    + right. exact H.
    + right. exact H.
    + destruct (IH _ _ H) as [[-> ->]|H']; auto.
Qed.

Lemma caps_ok_set (Q : nat -> jsstring -> Prop) (i : nat) (v : option jsstring) (x : mstate) :
  caps_ok Q (m_caps x) ->
  (forall s, v = Some s -> Q (Nat.pred i) s) ->
  caps_ok Q (m_caps (set_cap i v x)).
Proof.
  intros Hx Hv k s H. cbn in H.
  apply nth_error_set_nth in H. destruct H as [[-> H]|H].
  - apply Hv. congruence.
  - exact (Hx _ _ H).
Qed.

Lemma clear_caps_frame (gs : list (nat * option jsstring)) (x : mstate) :
  m_idx (clear_caps gs x) = m_idx x /\ m_rest (clear_caps gs x) = m_rest x.
Proof.
  unfold clear_caps. revert x.
  induction gs as [|g gs IH]; intro x; cbn; [tauto|].
  destruct (IH (set_cap (fst g) None x)) as [-> ->]. tauto.
Qed.

Lemma caps_ok_clear (Q : nat -> jsstring -> Prop) (gs : list (nat * option jsstring))
  (x : mstate) :
  caps_ok Q (m_caps x) -> caps_ok Q (m_caps (clear_caps gs x)).
Proof.
  unfold clear_caps. revert x.
  induction gs as [|g gs IH]; intros x Hx; cbn; [exact Hx|].
  apply IH, caps_ok_set; [exact Hx|discriminate].
Qed.

Lemma extends_refl (x : mstate) : extends x x [].
Proof. split; cbn; auto. Qed.

Lemma extends_trans (x y z : mstate) (w1 w2 : jsstring) :
  extends x y w1 -> extends y z w2 -> extends x z (w1 ++ w2).
Proof.
  intros [R1 I1] [R2 I2]. split.
  - rewrite R1, R2, app_assoc. reflexivity.
  - rewrite I2, I1, length_app. lia.
Qed.

Lemma consumed_extends (x y : mstate) (w : jsstring) :
  extends x y w -> consumed x y = w.
Proof.
  intros [R I]. unfold consumed. rewrite I, R.
  replace (m_idx x + List.length w - m_idx x) with (List.length w + 0) by lia.
  rewrite firstn_app_2. cbn. apply app_nil_r.
Qed.

Lemma step_char_sound (p : codeunit -> bool) (x : mstate) (c : cont) (z : mstate) :
  step_char p x c = Some z ->
  exists y a, c y = Some z /\ extends x y [a] /\ p a = true /\ m_caps y = m_caps x.
Proof.
  unfold step_char. destruct (m_rest x) as [|a rest] eqn:E; [discriminate|].
  destruct (p a) eqn:Ep; [|discriminate]. intro H.
  exists (MState (S (m_idx x)) rest (m_caps x)), a. repeat split; auto.
  cbn. lia.
Qed.

Section Soundness.

Variable ic : bool.
Variable Q : nat -> jsstring -> Prop.

Lemma repeat_sound (m : mstate -> cont -> option mstate)
  (L : nat -> jsstring -> jsstring -> Prop)
  (gs : list (nat * option jsstring)) (greedy : bool) (c : cont) :
  sound_for Q m L ->
  forall fuel mn mx x z,
    repeat_matcher m gs greedy c fuel mn mx x = Some z ->
    caps_ok Q (m_caps x) ->
    exists y ws, c y = Some z /\ extends x y (List.concat ws)
                 /\ lang_iter L ws (m_idx x) (m_rest y)
                 /\ match mx with Some k => Nat.min mn k | None => mn end <= List.length ws
                 /\ match mx with Some k => List.length ws <= k | None => True end
                 /\ caps_ok Q (m_caps y).
Proof.
  intro Hm. induction fuel as [|fuel IH]; intros mn mx x z H Hx; [discriminate|].
  cbn [repeat_matcher] in H.
  set (d := fun y : mstate =>
              if (mn =? 0) && (m_idx y =? m_idx x) then None
              else repeat_matcher m gs greedy c fuel (Nat.pred mn) (pred_max mx) y) in H.
  assert (Hstop : c x = Some z ->
          mn = 0 ->
          exists y ws, c y = Some z /\ extends x y (List.concat ws)
                 /\ lang_iter L ws (m_idx x) (m_rest y)
                 /\ match mx with Some k => Nat.min mn k | None => mn end <= List.length ws
                 /\ match mx with Some k => List.length ws <= k | None => True end
                 /\ caps_ok Q (m_caps y)).
  { intros Hc ->. exists x, [].
    split; [exact Hc|]. split; [apply extends_refl|]. split; [exact I|].
    split; [destruct mx; cbn; lia|]. split; [destruct mx; cbn; [lia|exact I]|exact Hx]. }
  assert (Hiter : m (clear_caps gs x) d = Some z ->
          max_is_zero mx = false ->
          exists y ws, c y = Some z /\ extends x y (List.concat ws)
                 /\ lang_iter L ws (m_idx x) (m_rest y)
                 /\ match mx with Some k => Nat.min mn k | None => mn end <= List.length ws
                 /\ match mx with Some k => List.length ws <= k | None => True end
                 /\ caps_ok Q (m_caps y)).
  { intros Hi Hmx.
    destruct (Hm _ _ _ Hi (caps_ok_clear Q gs x Hx)) as (y1 & w1 & Hd & He1 & HL1 & Hy1).
    unfold d in Hd.
    destruct ((mn =? 0) && (m_idx y1 =? m_idx x)); [discriminate|].
    destruct (IH _ _ _ _ Hd Hy1) as (y & ws & Hc & He & HLs & Hmn & Hmax & Hy).
    destruct (clear_caps_frame gs x) as [Ei Er].
    destruct He1 as [R1 I1]. rewrite Er in R1. rewrite Ei in I1, HL1.
    exists y, (w1 :: ws). cbn [List.concat List.length lang_iter].
    split; [exact Hc|]. split; [|split; [|split; [|split]]].
    - apply extends_trans with (y := y1); [split; assumption|exact He].
    - destruct He as [R2 _]. rewrite <- R2, <- I1. auto.
    - destruct mx as [[|k]|]; cbn in *; try discriminate; lia.
    - destruct mx as [[|k]|]; cbn in *; try discriminate; auto. lia.
    - exact Hy. }
  destruct (max_is_zero mx) eqn:Hmx.
  - destruct mx as [[|k]|]; try discriminate.
    exists x, [].
    split; [exact H|]. split; [apply extends_refl|]. split; [exact I|].
    cbn. split; [lia|]. split; [lia|exact Hx].
  - destruct (mn =? 0) eqn:Emn; cbn [negb] in H.
    + apply Nat.eqb_eq in Emn.
      destruct greedy; unfold or_else in H.
      * destruct (m (clear_caps gs x) d) eqn:Ei.
        -- injection H as ->. apply Hiter; auto.
        -- apply Hstop; auto.
      * destruct (c x) eqn:Ec.
        -- injection H as ->. apply Hstop; auto.
        -- apply Hiter; auto.
    + apply Hiter; auto.
Qed.

Lemma rmatch_sound (r : regex) :
  groups_sat ic Q r -> sound_for Q (rmatch ic r) (lang ic r).
Proof.
  induction r as [ |ch| |neg items| | |r1 IH1 r2 IH2|r1 IH1 r2 IH2|i n r IH|mn mx g r IH];
    intros Hg x c z H Hx; cbn [rmatch] in H; cbn [lang].
  - exists x, []. auto using extends_refl.
  - apply step_char_sound in H. destruct H as (y & a & Hc & He & Hp & Hcaps).
    exists y, [a]. rewrite Hcaps. split; [exact Hc|]. split; [exact He|]. split; [|exact Hx].
    exists a. split; [reflexivity|]. now apply N.eqb_eq.
  - apply step_char_sound in H. destruct H as (y & a & Hc & He & Hp & Hcaps).
    exists y, [a]. rewrite Hcaps. split; [exact Hc|]. split; [exact He|]. split; [|exact Hx].
    exists a. split; [reflexivity|]. now apply negb_true_iff.
  - apply step_char_sound in H. destruct H as (y & a & Hc & He & Hp & Hcaps).
    exists y, [a]. rewrite Hcaps. split; [exact Hc|]. split; [exact He|]. split; [|exact Hx].
    exists a. split; [reflexivity|exact Hp].
  - destruct (m_idx x =? 0) eqn:E; [|discriminate]. apply Nat.eqb_eq in E.
    exists x, []. auto using extends_refl.
  - destruct (m_rest x) eqn:E; [|discriminate].
    exists x, []. auto using extends_refl.
  - destruct Hg as [Hg1 Hg2].
    destruct (IH1 Hg1 _ _ _ H Hx) as (y1 & w1 & H1 & He1 & HL1 & Hy1).
    destruct (IH2 Hg2 _ _ _ H1 Hy1) as (y2 & w2 & H2 & He2 & HL2 & Hy2).
    exists y2, (w1 ++ w2). split; [exact H2|]. split; [eapply extends_trans; eassumption|].
    split; [|exact Hy2]. exists w1, w2. split; [reflexivity|].
    destruct He1 as [_ I1]. destruct He2 as [R2 _].
    rewrite <- R2, <- I1. auto.
  - destruct Hg as [Hg1 Hg2]. unfold or_else in H.
    destruct (rmatch ic r1 x c) eqn:E1.
    + injection H as ->.
      destruct (IH1 Hg1 _ _ _ E1 Hx) as (y & w & Hc & He & HL & Hy).
      exists y, w. auto.
    + destruct (IH2 Hg2 _ _ _ H Hx) as (y & w & Hc & He & HL & Hy).
      exists y, w. auto.
  - destruct Hg as [Hq Hg].
    destruct (IH Hg _ _ _ H Hx) as (y & w & Hc & He & HL & Hy).
    exists (set_cap i (Some (consumed x y)) y), w.
    split; [exact Hc|]. split; [exact He|]. split; [exact HL|].
    apply caps_ok_set; [exact Hy|].
    intros s Hs. injection Hs as <-. rewrite (consumed_extends _ _ _ He). eauto.
  - cbn [groups_sat] in Hg.
    destruct (repeat_sound _ _ (groups r) g c (IH Hg) _ _ _ _ _ H Hx)
      as (y & ws & Hc & He & HL & Hmn & Hmx & Hy).
    exists y, (List.concat ws). split; [exact Hc|]. split; [exact He|].
    split; [|exact Hy]. exists ws. auto.
Qed.

End Soundness.

(** ** What [exec] returns *)

Lemma caps_ok_init (Q : nat -> jsstring -> Prop) (n : nat) : caps_ok Q (repeat None n).
Proof.
  intros k s H. apply nth_error_In, repeat_spec in H. discriminate.
Qed.

Lemma match_at_sound (Q : nat -> jsstring -> Prop) (re : regexp) (i : nat)
  (rest : jsstring) (m : match_result) :
  groups_sat (re_ignoreCase re) Q (re_ast re) ->
  match_at re i rest = Some m ->
  caps_ok Q (mr_captures m)
  /\ mr_groups m = groups_object (re_ast re) (mr_captures m)
  /\ mr_index m = i
  /\ exists post, rest = mr_text m ++ post
                  /\ lang (re_ignoreCase re) (re_ast re) i (mr_text m) post.
Proof.
  intros Hg H. unfold match_at in H.
  destruct (rmatch _ _ _ _) as [y|] eqn:E; [|discriminate].
  injection H as <-. cbn.
  destruct (rmatch_sound _ Q _ Hg _ _ _ E (caps_ok_init Q _))
    as (y' & w & Hy & He & HL & Hc).
  injection Hy as ->.
  rewrite (consumed_extends _ _ _ He).
  repeat split; auto. exists (m_rest y). split; [apply He|exact HL].
Qed.

Lemma search_sound (re : regexp) (i : nat) (rest : jsstring) (m : match_result) :
  search re i rest = Some m ->
  exists k pre post, rest = pre ++ post /\ k = i + List.length pre
                     /\ match_at re k post = Some m.
Proof.
  revert i. induction rest as [|a rest IH]; intros i H; cbn [search] in H.
  - destruct (match_at re i []) eqn:E; [|discriminate].
    injection H as ->. exists i, [], []. cbn. auto.
  - destruct (match_at re i (a :: rest)) eqn:E.
    + injection H as ->. exists i, [], (a :: rest). cbn. auto.
    + destruct (IH _ H) as (k & pre & post & -> & -> & Hm).
      exists (S i + List.length pre), (a :: pre), post. cbn.
      split; [reflexivity|]. split; [lia|exact Hm].
Qed.

Lemma exec_sound (Q : nat -> jsstring -> Prop) (re : regexp) (input : jsstring)
  (m : match_result) :
  groups_sat (re_ignoreCase re) Q (re_ast re) ->
  exec re input = Some m ->
  caps_ok Q (mr_captures m)
  /\ mr_groups m = groups_object (re_ast re) (mr_captures m)
  /\ exists pre post, input = pre ++ mr_text m ++ post /\ mr_index m = List.length pre
                      /\ lang (re_ignoreCase re) (re_ast re) (List.length pre)
                              (mr_text m) post.
Proof.
  intros Hg H. apply search_sound in H.
  destruct H as (k & pre & post & -> & -> & H).
  destruct (match_at_sound Q _ _ _ _ Hg H) as (Hc & Hgo & Hi & post' & -> & HL).
  split; [exact Hc|]. split; [exact Hgo|]. exists pre, post'. cbn in *. auto.
Qed.

(** A pattern that starts with [^] matches at index 0 or nowhere. *)
Lemma search_anchored (re : regexp) (r : regex) (i : nat) (rest : jsstring) :
  re_ast re = RSeq RBol r -> search re (S i) rest = None.
Proof.
  intro Hr. revert i. induction rest as [|a rest IH]; intro i; cbn [search].
  - unfold match_at. rewrite Hr. reflexivity.
  - unfold match_at at 1. rewrite Hr. cbn. apply IH.
Qed.

Lemma exec_anchored (re : regexp) (r : regex) (input : jsstring) :
  re_ast re = RSeq RBol r -> exec re input = match_at re 0 input.
Proof.
  intro Hr. unfold exec. destruct input as [|a rest]; cbn [search].
  - destruct (match_at re 0 []); reflexivity.
  - destruct (match_at re 0 (a :: rest)); [reflexivity|].
    apply (search_anchored _ _ _ _ Hr).
Qed.

(** ** A greedy run

    A greedy quantifier over single code units consumes the whole run of
    code units its atom accepts, when the continuation succeeds after the
    run. *)
Lemma repeat_greedy_run (m : mstate -> cont -> option mstate) (p : codeunit -> bool)
  (c : cont) (rest : jsstring) (caps : list (option jsstring)) (z : mstate) :
  (forall x k, m x k = step_char p x k) ->
  match rest with [] => True | a :: _ => p a = false end ->
  forall run idx fuel,
    List.length run < fuel ->
    Forall (fun a => p a = true) run ->
    c (MState (idx + List.length run) rest caps) = Some z ->
    repeat_matcher m [] true c fuel 0 None (MState idx (run ++ rest) caps) = Some z.
Proof.
  intros Hm Hrest. induction run as [|a run IH]; intros idx fuel Hf Hp Hc;
    (destruct fuel as [|fuel]; [cbn in Hf; lia|]); cbn [repeat_matcher max_is_zero].
  - cbn [Nat.eqb negb app List.length] in *. rewrite Nat.add_0_r in Hc.
    rewrite Hm. unfold or_else, step_char, clear_caps. cbn.
    destruct rest as [|a rest]; [exact Hc|]. rewrite Hrest. exact Hc.
  - inversion Hp as [|? ? Ha Hrun]; subst.
    rewrite Hm. unfold or_else, step_char, clear_caps.
    cbn -[Nat.eqb repeat_matcher].
    rewrite Ha. cbn -[Nat.eqb repeat_matcher].
    replace (S idx =? idx) with false by (symmetry; apply Nat.eqb_neq; lia).
    rewrite IH; auto.
    + cbn in Hf. lia.
    + cbn in Hc. rewrite <- Hc. f_equal. f_equal. lia.
Qed.

Lemma repeat_greedy_all (m : mstate -> cont -> option mstate) (p : codeunit -> bool)
  (c : cont) (caps : list (option jsstring)) (z : mstate) (run : jsstring)
  (idx fuel : nat) :
  (forall x k, m x k = step_char p x k) ->
  List.length run < fuel ->
  Forall (fun a => p a = true) run ->
  c (MState (idx + List.length run) [] caps) = Some z ->
  repeat_matcher m [] true c fuel 0 None (MState idx run caps) = Some z.
Proof.
  intros Hm Hf Hp Hc.
  pose proof (repeat_greedy_run m p c [] caps z Hm I run idx fuel Hf Hp Hc) as R.
  rewrite app_nil_r in R. exact R.
Qed.

(** ** Captures of a negated class *)

Lemma groups_sat_of_bodies (ic : bool) (Q : nat -> jsstring -> Prop) (r : regex) :
  (forall j b, In (j, b) (bodies r) ->
     forall k s rest, lang ic b k s rest -> Q (Nat.pred j) s) ->
  groups_sat ic Q r.
Proof.
  induction r; intro H; cbn [groups_sat bodies] in *; auto.
  - split; [apply IHr1|apply IHr2]; intros; eapply H; eauto using in_or_app.
  - split; [apply IHr1|apply IHr2]; intros; eapply H; eauto using in_or_app.
  - split.
    + intros k s rest Hs. eapply H; [left; reflexivity|exact Hs].
    + apply IHr. intros. eapply H; [right; eassumption|eassumption].
Qed.

Lemma excluded_not_in_class (ic : bool) (items : list class_item) (c : codeunit) :
  excluded items c = true -> class_has ic true items c = false.
Proof.
  unfold excluded, class_has. intro H. apply existsb_exists in H.
  destruct H as (it & Hin & Hit). destruct it as [a| | |]; try discriminate.
  apply N.eqb_eq in Hit. subst a.
  replace (existsb (item_has ic c) items) with true; [reflexivity|].
  symmetry. apply existsb_exists. exists (CChar c). split; [exact Hin|].
  cbn. apply N.eqb_refl.
Qed.

Lemma lang_iter_class (ic neg : bool) (items : list class_item) (ws : list jsstring)
  (i : nat) (rest : jsstring) :
  lang_iter (lang ic (RClass neg items)) ws i rest ->
  Forall (fun w => exists a, w = [a] /\ class_has ic neg items a = true) ws.
Proof.
  revert i. induction ws as [|w ws IH]; intros i H; constructor.
  - exact (proj1 H).
  - exact (IH _ (proj2 H)).
Qed.

Lemma negated_class_run_lang (ic : bool) (body : regex) (items : list class_item)
  (k : nat) (s rest : jsstring) :
  negated_class_run body = Some items -> lang ic body k s rest ->
  s <> [] /\ forall c, excluded items c = true -> ~ In c s.
Proof.
  unfold negated_class_run.
  destruct body as [ | | | | | |r1 r2| | | ]; try discriminate.
  destruct r1 as [ | | | | | | | | |mn mx g r]; try discriminate.
  destruct mn as [|mn]; try discriminate.
  destruct mx; try discriminate.
  destruct r as [ | | |neg its| | | | | | ]; try discriminate.
  destruct neg; try discriminate.
  destruct r2; try discriminate.
  intros Hi. injection Hi as ->.
  cbn [lang]. intros (w1 & w2 & -> & (ws & -> & Hws & Hmin & _) & ->).
  rewrite app_nil_r. apply lang_iter_class in Hws.
  assert (Hall : forall w, In w ws ->
            exists a, w = [a] /\ class_has ic true items a = true)
    by (apply Forall_forall; exact Hws).
  split.
  - destruct ws as [|w ws]; [cbn in Hmin; lia|].
    destruct (Hall w (or_introl eq_refl)) as (a & -> & _). discriminate.
  - intros c Hc Hin. apply in_concat in Hin. destruct Hin as (w & Hw & Hcw).
    destruct (Hall w Hw) as (a & -> & Ha).
    destruct Hcw as [->|[]].
    rewrite (excluded_not_in_class ic items c Hc) in Ha. discriminate.
Qed.

(** The capture of a group whose body is a negated class repeated at least
    once is not empty and holds none of the code units the class names. *)
Lemma negated_class_capture (re : regexp) (input : jsstring) (m : match_result)
  (i : nat) (items : list class_item) (s : jsstring) :
  exec re input = Some m ->
  (forall j b, In (j, b) (bodies (re_ast re)) -> Nat.pred j = Nat.pred i ->
               negated_class_run b = Some items) ->
  nth_error (mr_captures m) (Nat.pred i) = Some (Some s) ->
  s <> [] /\ forall c, excluded items c = true -> ~ In c s.
Proof.
  intros Hex Hb Hs.
  set (Q := fun (k : nat) (w : jsstring) =>
              k = Nat.pred i -> w <> [] /\ forall c, excluded items c = true -> ~ In c w).
  assert (Hg : groups_sat (re_ignoreCase re) Q (re_ast re)).
  { apply groups_sat_of_bodies. intros j b Hin k w rest Hw Hj.
    eapply negated_class_run_lang; [apply (Hb j b Hin Hj)|exact Hw]. }
  destruct (exec_sound Q re input m Hg Hex) as (Hc & _).
  exact (Hc _ _ Hs eq_refl).
Qed.

(** ** The middleware of a route *)

Lemma createRoute_inv (rm : option jsstring) (path : jsstring) (hs : list middleware)
  (o : options) (mw : middleware) :
  createRoute rm path hs o = Normal mw ->
  exists re, compile path o = POk re
             /\ mw = routeMiddleware rm path re
                       (match hs with [h] => h | _ => compose hs end).
Proof.
  unfold createRoute. destruct (compile path o) as [re| |]; cbn; try discriminate.
  intro H. injection H as <-. exists re. auto.
Qed.


(** C9.  When the method check fails, or the matcher does not match the
    request path, the step calls [next] in the very state it was called in
    and returns what [next] returns: the context is not touched and the
    step throws nothing of its own. *)
Theorem nonmatching_route_defers (rm : option jsstring) (path : jsstring)
  (hs : list middleware) (o : options) (mw : middleware) (ctx : context)
  (next : next_fn) :
  createRoute rm path hs o = Normal mw ->
  (matches ctx rm = false
   \/ exists re, compile path o = POk re /\ exec re (pathname (req ctx)) = None) ->
  mw ctx next = next ctx.
Proof.
  intros Hc Hno. destruct (createRoute_inv _ _ _ _ _ Hc) as (re & Hre & ->).
  unfold routeMiddleware. destruct Hno as [Hm|(re' & Hre' & Hex)].
  - rewrite Hm. reflexivity.
  - assert (re' = re) by congruence. subst re'.
    destruct (matches ctx rm); cbn [negb]; [|reflexivity].
    rewrite Hex. reflexivity.
Qed.

Lemma createRoute_ok (rm : option jsstring) (path : jsstring) (hs : list middleware)
  (o : options) (re : regexp) :
  compile path o = POk re ->
  createRoute rm path hs o
  = Normal (routeMiddleware rm path re (match hs with [h] => h | _ => compose hs end)).
Proof. intro H. unfold createRoute. rewrite H. reflexivity. Qed.

Lemma nonmatching_route_defers_witness :
  let ctx := Context (Request (str "POST") (str "/hoa") None None)
                     (Response None None) [] in
  exists mw,
    createRoute (Some (str "GET")) (str "/hoa") [fun c next => next c]
                (Options None None) = Normal mw
    /\ mw ctx (fun c => Normal c) = Normal ctx.
Proof.
  intro ctx.
  assert (Hc : compile (str "/hoa") (Options None None)
               = POk (compiled (str "/hoa") (Options None None)))
    by (vm_compute; reflexivity).
  pose proof (createRoute_ok (Some (str "GET")) _ [fun c next => next c] _ _ Hc) as Hr.
  eexists. split; [exact Hr|].
  apply (nonmatching_route_defers (Some (str "GET")) (str "/hoa")
           [fun c next => next c] (Options None None) _ ctx (fun c => Normal c) Hr).
  left. vm_compute. reflexivity.
Defined.

(** ** Decoding the captures *)

Lemma obj_set_fresh {V} (o : object V) (k : jsstring) (v : V) :
  ~ In k (List.map fst o) -> obj_set o k v = o ++ [(k, v)].
Proof.
  induction o as [|[k' v'] o IH]; intro H; cbn; [reflexivity|].
  cbn in H. rewrite jseqb_neq by tauto. rewrite IH by tauto. reflexivity.
Qed.

Lemma obj_get_app_fresh {V} (o o' : object V) (k : jsstring) :
  ~ In k (List.map fst o) -> obj_get (o ++ o') k = obj_get o' k.
Proof.
  induction o as [|[k' v'] o IH]; intro H; cbn; [reflexivity|].
  cbn in H. rewrite jseqb_neq by tauto. apply IH. tauto.
Qed.

(** With distinct keys the loop builds one property per entry, in the
    order of the entries, holding the decoded value. *)
Lemma decode_entries_spec (es acc ps : object (option jsstring)) :
  NoDup (List.map fst acc ++ List.map fst es) ->
  decode_entries es acc = Normal ps ->
  exists ps', ps = acc ++ ps'
              /\ Forall2 (fun e p => fst p = fst e /\ decode (snd e) = Normal (snd p)) es ps'.
Proof.
  revert acc. induction es as [|[k v] es IH]; intros acc Hnd H; cbn in H.
  - injection H as <-. exists []. rewrite app_nil_r. auto.
  - destruct (decode v) as [dv|e] eqn:Ed; [|discriminate].
    cbn in Hnd.
    assert (Hk : ~ In k (List.map fst acc)).
    { apply NoDup_remove_2 in Hnd. intro Hin. apply Hnd. apply in_or_app. auto. }
    rewrite obj_set_fresh in H by exact Hk.
    destruct (IH (acc ++ [(k, dv)])) as (ps' & -> & HF); [|exact H|].
    + rewrite map_app. cbn. rewrite <- app_assoc. exact Hnd.
    + exists ((k, dv) :: ps'). rewrite <- app_assoc. split; [reflexivity|].
      constructor; auto.
Qed.

Lemma has_dup_false (l : list jsstring) : has_dup l = false -> NoDup l.
Proof.
  induction l as [|a l IH]; cbn; intro H; constructor.
  - apply orb_false_iff in H. destruct H as [H _]. intro Hin.
    assert (existsb (jseqb a) l = true)
      by (apply existsb_exists; exists a; split; [exact Hin|apply jseqb_refl]).
    congruence.
  - apply IH. apply orb_false_iff in H. tauto.
Qed.

(** The group names of a regular expression that was constructed are
    distinct. *)
Lemma RegExp_names (source flags : jsstring) (re : regexp) :
  RegExp source flags = POk re ->
  NoDup (List.map snd (named (groups (re_ast re)))).
Proof.
  unfold RegExp. destruct (parse_flags flags) as [[i g]| |]; try discriminate.
  destruct (parse_disj _ _ _ _ _) as [[[r rest] n]| |]; try discriminate.
  destruct rest; try discriminate.
  destruct (has_dup _) eqn:E; [destruct (has_alt r); discriminate|].
  intro H. injection H as <-. cbn. apply has_dup_false. exact E.
Qed.

Lemma compile_names (path : jsstring) (o : options) (re : regexp) :
  compile path o = POk re -> NoDup (List.map snd (named (groups (re_ast re)))).
Proof. unfold compile. apply RegExp_names. Qed.

Lemma groups_object_keys (r : regex) (caps : list (option jsstring))
  (gs : object (option jsstring)) :
  groups_object r caps = Some gs ->
  List.map fst gs = List.map snd (named (groups r)).
Proof.
  unfold groups_object. destruct (named (groups r)) as [|g ns]; [discriminate|].
  generalize (g :: ns). intros l H. injection H as <-.
  rewrite map_map. reflexivity.
Qed.

Lemma exec_groups (re : regexp) (input : jsstring) (m : match_result) :
  exec re input = Some m ->
  mr_groups m = groups_object (re_ast re) (mr_captures m).
Proof.
  intro H. apply search_sound in H. destruct H as (k & pre & post & _ & _ & H).
  unfold match_at in H. destruct (rmatch _ _ _ _); [|discriminate].
  injection H as <-. reflexivity.
Qed.

(** The parameters are the decoded captures of the named groups: one key
    per group name, in the order of the pattern. *)
Lemma decode_groups_spec (re : regexp) (input : jsstring) (m : match_result)
  (ps : object (option jsstring)) :
  NoDup (List.map snd (named (groups (re_ast re)))) ->
  exec re input = Some m ->
  decode_groups m = Normal ps ->
  List.map fst ps = List.map snd (named (groups (re_ast re)))
  /\ forall gs, mr_groups m = Some gs ->
       Forall2 (fun e p => fst p = fst e /\ decode (snd e) = Normal (snd p)) gs ps.
Proof.
  intros Hnd Hex Hd. pose proof (exec_groups _ _ _ Hex) as Hg.
  unfold decode_groups in Hd. destruct (mr_groups m) as [gs|] eqn:E.
  - symmetry in Hg. pose proof (groups_object_keys _ _ _ Hg) as Hk.
    destruct (decode_entries_spec gs [] ps) as (ps' & -> & HF); [|exact Hd|].
    + cbn. rewrite Hk. exact Hnd.
    + cbn. split.
      * rewrite <- Hk. clear -HF. induction HF as [|e p' es ps' [H _] _ IH]; cbn; congruence.
      * intros gs' Hgs. injection Hgs as <-. exact HF.
  - injection Hd as <-. split; [|discriminate].
    unfold groups_object in Hg. destruct (named (groups (re_ast re))); [reflexivity|discriminate].
Qed.


Lemma routeMiddleware_match (rm : option jsstring) (path : jsstring) (re : regexp)
  (composed : middleware) (ctx : context) (next : next_fn) (m : match_result) :
  matches ctx rm = true ->
  exec re (pathname (req ctx)) = Some m ->
  routeMiddleware rm path re composed ctx next
  = match decode_groups m with
    | Normal ps => composed (attach ctx ps path) next
    | Throw e => Throw e
    end.
Proof.
  intros Hm Hex. unfold routeMiddleware. rewrite Hm, Hex. reflexivity.
Qed.



(** ** Parameter decoding *)

Lemma decode_entries_throw (es acc : object (option jsstring)) (k v : jsstring) (e : error) :
  In (k, Some v) es -> v <> [] -> decodeURIComponent v = Throw e ->
  exists e', decode_entries es acc = Throw e'.
Proof.
  intros Hin Hv He. revert acc.
  induction es as [|[k' v'] es IH]; intro acc; [destruct Hin|]. cbn.
  destruct Hin as [H|H].
  - injection H as -> ->. unfold decode. destruct v as [|c v]; [congruence|].
    cbn [truthy]. rewrite He. eauto.
  - destruct (decode v'); eauto.
Qed.

Lemma decode_from_plain (fuel : nat) (s : jsstring) :
  List.length s < fuel -> ~ In (cu "%") s -> decode_from fuel s = Some s.
Proof.
  revert s. induction fuel as [|fuel IH]; intros s Hf Hs; [lia|].
  destruct s as [|c s]; [reflexivity|]. cbn [decode_from].
  unfold is_ch. destruct (N.eqb_spec c (cu "%")) as [->|Hc].
  - exfalso. apply Hs. left. reflexivity.
  - rewrite IH; [reflexivity|cbn in Hf; lia|]. intro H. apply Hs. right. exact H.
Qed.

(** C4.  [decode] returns [undefined] for [undefined] and for the empty
    string without calling [decodeURIComponent], and otherwise returns what
    [decodeURIComponent] returns or throws what it throws.  The middleware
    has no handler for that exception: when a capture of a matching route
    does not decode, the step throws, and neither the handlers nor [next]
    run.  A capture without [%] decodes to itself.  Examples: the route
    [/package/:name] on a truncated escape throws [URIError]; with the
    trailing slash allowed, [/docs/:path+] on [/docs/] gives
    [params.path === undefined]. *)
Theorem decode_behaviour :
  decode None = Normal None
  /\ decode (Some []) = Normal None
  /\ (forall c v, decode (Some (c :: v))
                  = match decodeURIComponent (c :: v) with
                    | Normal r => Normal (Some r)
                    | Throw e => Throw e
                    end)
  /\ (forall v, ~ In (cu "%") v -> decodeURIComponent v = Normal v)
  /\ (forall rm path re composed ctx next m e,
        matches ctx rm = true ->
        exec re (pathname (req ctx)) = Some m ->
        decode_groups m = Throw e ->
        routeMiddleware rm path re composed ctx next = Throw e)
  /\ (forall m gs k v e,
        mr_groups m = Some gs -> In (k, Some v) gs -> v <> [] ->
        decodeURIComponent v = Throw e ->
        exists e', decode_groups m = Throw e')
  /\ (forall o, route_params o (str "/package/:name") (str "/package/%E0%A4%A")
                = Throw URIError)
  /\ (forall o, route_params o (str "/package/:name")
                             (str "/package/http%3A%2F%2Fgithub.com%2Fhoa-js%2Fhoa")
                = Normal (Some [(str "name", Some (str "http://github.com/hoa-js/hoa"))]))
  /\ (forall s t, default true t = true ->
        route_params (Options s t) (str "/docs/:path+") (str "/docs/")
        = Normal (Some [(str "path", None)])).
Proof.
  split; [reflexivity|]. split; [reflexivity|]. split; [reflexivity|].
  split; [|split; [|split; [|split; [|split]]]].
  - intros v Hv. unfold decodeURIComponent.
    rewrite decode_from_plain; [reflexivity|lia|exact Hv].
  - intros rm path re composed ctx next m e Hm Hex Hd.
    rewrite (routeMiddleware_match _ _ _ _ _ _ _ Hm Hex), Hd. reflexivity.
  - intros m gs k v e Hg Hin Hv He. unfold decode_groups. rewrite Hg.
    eapply decode_entries_throw; eassumption.
  - intros [[[|]|] [[|]|]]; vm_compute; reflexivity.
  - intros [[[|]|] [[|]|]]; vm_compute; reflexivity.
  - intros [[|]|] [[|]|] H; try discriminate H; vm_compute; reflexivity.
Qed.

Lemma decode_behaviour_witness :
  let ctx := Context (Request (str "GET") (str "/package/%E0%A4%A") None None)
                     (Response None None) [] in
  let re := compiled (str "/package/:name") (Options None None) in
  routeMiddleware (Some (str "GET")) (str "/package/:name") re
                  (fun c next => next c) ctx (fun c => Normal c) = Throw URIError
  /\ (exists e', decode_groups (matched re (pathname (req ctx))) = Throw e')
  /\ route_params (Options None (Some true)) (str "/docs/:path+") (str "/docs/")
     = Normal (Some [(str "path", None)]).
Proof.
  intros ctx re.
  assert (Hm : matches ctx (Some (str "GET")) = true) by (vm_compute; reflexivity).
  assert (Hex : exec re (pathname (req ctx)) = Some (matched re (pathname (req ctx))))
    by (vm_compute; reflexivity).
  destruct decode_behaviour as (_ & _ & _ & _ & Hthrow & Hsome & _ & _ & Hdocs).
  split; [|split].
  - apply (Hthrow _ _ re _ ctx _ _ URIError Hm Hex). vm_compute. reflexivity.
  - apply (Hsome _ [(str "name", Some (str "%E0%A4%A"))] (str "name") (str "%E0%A4%A")
             URIError).
    + vm_compute. reflexivity.
    + left. reflexivity.
    + discriminate.
    + vm_compute. reflexivity.
  - apply (Hdocs None (Some true)). reflexivity.
Defined.

(** ** Registration *)




(** ** Completeness of the matcher

    When a string of the language of a term lies ahead and the continuation
    succeeds after it, whatever the captures, the matcher succeeds.  (Which
    decomposition it returns is decided by the order of backtracking and is
    not said here.) *)

Lemma clear_caps_state (gs : list (nat * option jsstring)) (i : nat) (rest : jsstring)
  (caps : list (option jsstring)) :
  exists caps', clear_caps gs (MState i rest caps) = MState i rest caps'.
Proof.
  destruct (clear_caps_frame gs (MState i rest caps)) as [Hi Hr].
  destruct (clear_caps gs (MState i rest caps)) as [i' r' c']. cbn in Hi, Hr.
  subst. eauto.
Qed.

Lemma step_char_complete (p : codeunit -> bool) (a : codeunit) (i : nat)
  (rest : jsstring) (c : cont) :
  p a = true -> succeeds c (i + 1) rest ->
  succeeds (fun x => step_char p x c) i (a :: rest).
Proof.
  intros Hp Hc caps. unfold step_char. cbn. rewrite Hp.
  replace (S i) with (i + 1) by lia. apply Hc.
Qed.

Lemma repeat_complete (m : mstate -> cont -> option mstate)
  (L : nat -> jsstring -> jsstring -> Prop)
  (gs : list (nat * option jsstring)) (greedy : bool) (c : cont) :
  complete_for m L ->
  forall ws i rest fuel mn mx,
    lang_iter L ws i rest ->
    match mx with Some k => Nat.min mn k | None => mn end <= List.length ws ->
    match mx with Some k => List.length ws <= k | None => True end ->
    mn + List.length (List.concat ws ++ rest) < fuel ->
    succeeds c (i + List.length (List.concat ws)) rest ->
    succeeds (fun x => repeat_matcher m gs greedy c fuel mn mx x) i (List.concat ws ++ rest).
Proof.
  intro Hm. induction ws as [|w1 ws IH]; intros i rest fuel mn mx HL Hmin Hmax Hf Hc caps;
    (destruct fuel as [|fuel]; [lia|]).
  - cbn [repeat_matcher List.concat app List.length] in *. rewrite Nat.add_0_r in Hc.
    destruct (max_is_zero mx) eqn:Hz; [apply Hc|].
    assert (mn = 0) as -> by (destruct mx as [[|k]|]; cbn in *; try discriminate; lia).
    cbn [Nat.eqb negb]. destruct (Hc caps) as [z Hz'].
    destruct greedy; unfold or_else.
    + destruct (m _ _); eauto.
    + rewrite Hz'. eauto.
  - destruct HL as [HL1 HLs].
    assert (Hz : max_is_zero mx = false)
      by (destruct mx as [[|k]|]; cbn in *; try reflexivity; lia).
    destruct (Nat.eq_dec mn 0) as [Emn|Emn];
      [destruct w1 as [|a w1]|].
    + (* an empty iteration beyond the minimum is of no use *)
      subst mn. cbn [List.concat app List.length] in *. rewrite Nat.add_0_r in HLs.
      apply (IH i rest (S fuel) 0 mx); auto.
      * destruct mx; cbn in *; lia.
      * destruct mx; cbn in *; [lia|exact I].
    + subst mn. cbn [repeat_matcher]. rewrite Hz. cbn [Nat.eqb negb andb].
      lazymatch goal with |- context [m (clear_caps gs _) ?dd] => set (d := dd) end.
      assert (Hd : succeeds d (i + List.length (a :: w1)) (List.concat ws ++ rest)).
      { intro caps'. unfold d. cbn [m_idx List.length].
        replace (i + S (List.length w1) =? i) with false
          by (symmetry; apply Nat.eqb_neq; lia).
        apply (IH _ rest fuel 0 (pred_max mx)); auto.
        - destruct mx; cbn in *; lia.
        - destruct mx; cbn in *; [lia|exact I].
        - cbn in Hf. rewrite !length_app in *. cbn in *. lia.
        - cbn [List.concat] in Hc. rewrite length_app, Nat.add_assoc in Hc. exact Hc. }
      lazymatch goal with |- context [clear_caps gs (MState i ?r caps)] =>
        destruct (clear_caps_state gs i r caps) as [caps' ->] end.
      cbn [List.concat]. rewrite <- app_assoc.
      destruct (Hm _ _ _ _ HL1 Hd caps') as [z Hz'].
      destruct greedy; unfold or_else.
      * rewrite Hz'. eauto.
      * destruct (c _); eauto.
    + cbn [repeat_matcher]. rewrite Hz.
      replace (mn =? 0) with false by (symmetry; apply Nat.eqb_neq; exact Emn).
      cbn [negb andb].
      lazymatch goal with |- context [m (clear_caps gs _) ?dd] => set (d := dd) end.
      assert (Hd : succeeds d (i + List.length w1) (List.concat ws ++ rest)).
      { intro caps'. unfold d.
        apply (IH _ rest fuel (Nat.pred mn) (pred_max mx)); auto.
        - destruct mx; cbn in *; lia.
        - destruct mx; cbn in *; [lia|exact I].
        - cbn in Hf. rewrite !length_app in *. lia.
        - cbn [List.concat] in Hc. rewrite length_app, Nat.add_assoc in Hc. exact Hc. }
      lazymatch goal with |- context [clear_caps gs (MState i ?r caps)] =>
        destruct (clear_caps_state gs i r caps) as [caps' ->] end.
      cbn [List.concat]. rewrite <- app_assoc.
      apply (Hm _ _ _ _ HL1 Hd caps').
Qed.

Lemma rmatch_complete (ic : bool) (r : regex) : complete_for (rmatch ic r) (lang ic r).
Proof.
  induction r as [ |ch| |neg items| | |r1 IH1 r2 IH2|r1 IH1 r2 IH2|n nm r IH|mn mx g r IH];
    intros i w rest c HL Hc; cbn [lang] in HL; cbn [rmatch].
  - subst w. cbn in *. rewrite Nat.add_0_r in Hc. exact Hc.
  - destruct HL as (a & -> & Ha). apply step_char_complete; [|exact Hc].
    now apply N.eqb_eq.
  - destruct HL as (a & -> & Ha). apply step_char_complete; [|exact Hc].
    now apply negb_true_iff.
  - destruct HL as (a & -> & Ha). apply step_char_complete; [exact Ha|exact Hc].
  - destruct HL as [-> ->]. cbn in *. exact Hc.
  - destruct HL as [-> ->]. cbn in *. rewrite Nat.add_0_r in Hc. exact Hc.
  - destruct HL as (w1 & w2 & -> & H1 & H2). rewrite <- app_assoc.
    apply (IH1 i w1 (w2 ++ rest)); [exact H1|].
    apply (IH2 (i + List.length w1) w2 rest); [exact H2|].
    rewrite length_app, Nat.add_assoc in Hc. exact Hc.
  - intro caps. unfold or_else. destruct HL as [H|H].
    + destruct (IH1 i w rest c H Hc caps) as [z ->]. eauto.
    + destruct (rmatch ic r1 _ c); [eauto|]. apply (IH2 i w rest c H Hc caps).
  - intro caps.
    refine (IH i w rest (fun y => c (set_cap n (Some (consumed _ y)) y)) HL _ caps).
    intro caps'. unfold set_cap. cbn. apply Hc.
  - destruct HL as (ws & -> & HLs & Hmin & Hmax).
    intro caps. cbn [m_rest].
    apply (repeat_complete _ _ (groups r) g c IH ws i rest _ mn mx HLs Hmin Hmax);
      [lia|exact Hc].
Qed.

(** A path in the language of an anchored pattern is accepted. *)
Lemma accepts_complete (re : regexp) (input : jsstring) :
  lang (re_ignoreCase re) (re_ast re) 0 input [] -> accepts re input = true.
Proof.
  intro HL. unfold accepts, exec.
  assert (H : exists m, match_at re 0 input = Some m).
  { unfold match_at.
    destruct (rmatch_complete _ _ 0 input [] (fun y => Some y) HL
                (fun caps => ex_intro _ _ eq_refl) (repeat None (re_ngroups re)))
      as [z Hz].
    rewrite app_nil_r in Hz. rewrite Hz. eauto. }
  destruct H as [m Hm]. destruct input; cbn [search]; rewrite Hm; reflexivity.
Qed.

(** ** The greedy region

    At the end of the input the greedy region consumes whatever is left,
    and the capture of its inner group is what it consumed. *)

Lemma repeat_opt_greedy (m : mstate -> cont -> option mstate)
  (gs : list (nat * option jsstring)) (c : cont) (fuel : nat) (x : mstate) :
  repeat_matcher m gs true c (S (S fuel)) 0 (Some 1) x
  = or_else (m (clear_caps gs x) (fun y => if m_idx y =? m_idx x then None else c y))
            (fun _ => c x).
Proof. reflexivity. Qed.

Lemma any_run_all (ic : bool) (c : cont) (run : jsstring) (i : nat)
  (caps : list (option jsstring)) (z : mstate) :
  no_line_terminator run ->
  c (MState (i + List.length run) [] caps) = Some z ->
  rmatch ic any_run (MState i run caps) c = Some z.
Proof.
  intros Hrun Hc. unfold any_run.
  change (repeat_matcher (rmatch ic RAny) [] true (fun y => c y)
            (S (0 + List.length run)) 0 None (MState i run caps) = Some z).
  apply (repeat_greedy_all _ (fun b => negb (is_line_terminator b))).
  - intros x k. reflexivity.
  - lia.
  - unfold no_line_terminator in Hrun. rewrite Forall_forall in *.
    intros b Hb. rewrite (Hrun b Hb). reflexivity.
  - exact Hc.
Qed.

Lemma greedy_body_all (ic : bool) (g : nat) (c : cont) (run : jsstring) (i : nat)
  (caps : list (option jsstring)) (z : mstate) :
  run <> [] -> no_line_terminator run ->
  c (MState (i + List.length run) []
       (set_nth (Nat.pred g) (Some run) (set_nth (Nat.pred g) None caps))) = Some z ->
  rmatch ic (greedy_body g) (MState i run caps) c = Some z.
Proof.
  intros Hne Hrun Hc. unfold greedy_body.
  destruct run as [|a run]; [congruence|].
  remember (a :: run) as w eqn:Ew.
  change (repeat_matcher (rmatch ic (RGroup g None any_run)) [(g, None)] true
            (fun y => c y) (S (0 + List.length w)) 0 (Some 1) (MState i w caps) = Some z).
  replace (S (0 + List.length w)) with (S (S (List.length run))) by (subst w; cbn; lia).
  rewrite repeat_opt_greedy. unfold or_else, clear_caps.
  cbn [fold_left fst]. unfold set_cap at 1. cbn [m_idx m_rest m_caps].
  change (rmatch ic (RGroup g None any_run) ?x ?k)
    with (rmatch ic any_run x (fun y => k (set_cap g (Some (consumed x y)) y))).
  rewrite (any_run_all ic _ w i _ z Hrun); [reflexivity|].
  unfold set_cap, consumed. cbn [m_idx m_rest m_caps].
  replace (i + List.length w =? i) with false
    by (symmetry; apply Nat.eqb_neq; subst w; cbn; lia).
  replace (i + List.length w - i) with (List.length w) by lia.
  rewrite firstn_all. exact Hc.
Qed.

(** ** The rewriting steps *)

Lemma replace_scan (re : regexp) (tpl : jsstring) (sc : scanner) :
  refines re tpl sc -> forall s, replace s re tpl = scan_all sc s.
Proof.
  intros Href s. unfold replace, scan_all. generalize (S (List.length s)) as fuel.
  generalize 0 as i. intros i fuel. revert i s.
  induction fuel as [|fuel IH]; intros i s; [reflexivity|].
  cbn [replace_from scan]. specialize (Href i s).
  destruct (sc s) as [[out rest]|].
  - destruct Href as (m & k & -> & <- & Hk & He & <-).
    rewrite He. replace (i + k - i) with k by lia.
    destruct k as [|k]; [lia|]. rewrite IH. reflexivity.
  - rewrite Href. destruct s; [reflexivity|]. rewrite IH. reflexivity.
Qed.

Lemma re_dot_refines : refines re_dot (str "\.") sc_dot.
Proof.
  intros i s. unfold sc_dot, is_ch. destruct s as [|c s]; [reflexivity|].
  destruct (N.eqb_spec c (cu ".")) as [->|Hc].
  - eexists. exists 1. split; [reflexivity|]. cbn. repeat split; lia.
  - unfold match_at. cbn. apply N.eqb_neq in Hc. cbn in Hc. rewrite Hc. reflexivity.
Qed.

(** The matcher compares indices (to refuse an empty iteration) and
    subtracts them (to cut out what a group consumed); on an index that is
    a variable both are settled by arithmetic. *)
Ltac norm_idx :=
  repeat match goal with
  | |- context [Nat.eqb ?a ?b] =>
      first [ replace (Nat.eqb a b) with false by (symmetry; apply Nat.eqb_neq; lia)
            | replace (Nat.eqb a b) with true by (symmetry; apply Nat.eqb_eq; lia) ]
  | |- context [firstn (?a - ?b) _] =>
      first [ replace (a - b) with 0 by lia
            | replace (a - b) with 1 by lia
            | replace (a - b) with 2 by lia ]
  end.

Ltac eval_match :=
  unfold match_at;
  repeat (progress (cbn -[Nat.sub firstn consumed Nat.eqb name_then]; unfold consumed;
                    cbn [m_idx m_rest m_caps]; norm_idx)).

Ltac found k :=
  eexists; exists k;
  split; [eval_match; reflexivity|];
  split; [vm_compute; reflexivity|]; split; [lia|]; split; [cbn; lia|reflexivity].

Lemma re_wildcard_refines : refines re_wildcard (str "($1.*)?") sc_wildcard.
Proof.
  intros i s. unfold sc_wildcard, is_ch. destruct s as [|c s]; [reflexivity|].
  destruct (N.eqb_spec c (cu "*")) as [->|Hstar].
  - found 1.
  - apply N.eqb_neq in Hstar. cbn in Hstar.
    destruct (N.eqb_spec c (cu "/")) as [->|Hslash].
    + destruct s as [|d s]; [eval_match; reflexivity|].
      destruct (N.eqb_spec d (cu "*")) as [->|Hd].
      * found 2.
      * apply N.eqb_neq in Hd. cbn in Hd.
        eval_match. rewrite Hd. reflexivity.
    + apply N.eqb_neq in Hslash. cbn in Hslash.
      eval_match. rewrite Hslash. eval_match. rewrite Hstar. reflexivity.
Qed.

(** One round of a greedy star over single code units. *)
Lemma repeat_star_cons (m : mstate -> cont -> option mstate) (p : codeunit -> bool)
  (c : cont) (fuel i : nat) (a : codeunit) (s : jsstring) (caps : list (option jsstring)) :
  (forall x k, m x k = step_char p x k) -> p a = true ->
  repeat_matcher m [] true c (S fuel) 0 None (MState i (a :: s) caps)
  = or_else (repeat_matcher m [] true c fuel 0 None (MState (S i) s caps))
            (fun _ => c (MState i (a :: s) caps)).
Proof.
  intros Hm Ha. cbn [repeat_matcher max_is_zero Nat.eqb negb andb pred_max Nat.pred].
  rewrite Hm. unfold clear_caps, step_char. cbn [fold_left m_rest m_idx m_caps].
  rewrite Ha.
  replace (S i =? i) with false by (symmetry; apply Nat.eqb_neq; lia).
  reflexivity.
Qed.

Lemma repeat_star_stop (m : mstate -> cont -> option mstate) (p : codeunit -> bool)
  (c : cont) (fuel i : nat) (s : jsstring) (caps : list (option jsstring)) :
  (forall x k, m x k = step_char p x k) ->
  match s with [] => True | a :: _ => p a = false end ->
  repeat_matcher m [] true c (S fuel) 0 None (MState i s caps) = c (MState i s caps).
Proof.
  intros Hm Hs. cbn [repeat_matcher max_is_zero Nat.eqb negb andb].
  rewrite Hm. unfold clear_caps, step_char, or_else. cbn [fold_left m_rest m_idx m_caps].
  destruct s as [|a s]; [reflexivity|]. rewrite Hs. reflexivity.
Qed.

Lemma skip_slashes_spec (s : jsstring) :
  exists run, s = run ++ skip_slashes s
              /\ Forall (fun a => is_ch "/" a = true) run
              /\ match skip_slashes s with [] => True | a :: _ => is_ch "/" a = false end.
Proof.
  induction s as [|c s IH]; [exists []; cbn; auto|]. cbn [skip_slashes].
  destruct (is_ch "/" c) eqn:E.
  - destruct IH as (run & Hs & Hrun & Hrest). exists (c :: run). cbn.
    split; [congruence|]. split; [constructor; assumption|exact Hrest].
  - exists []. cbn. rewrite E. auto.
Qed.

Lemma repeat_plus_first (m : mstate -> cont -> option mstate)
  (gs : list (nat * option jsstring)) (greedy : bool) (c : cont) (fuel mn : nat)
  (x : mstate) :
  repeat_matcher m gs greedy c (S fuel) (S mn) None x
  = m (clear_caps gs x) (fun y => repeat_matcher m gs greedy c fuel mn None y).
Proof. reflexivity. Qed.

Lemma slash_or_end_cases (j : nat) (s : jsstring) (caps : list (option jsstring)) :
  rmatch false slash_or_end (MState j s caps) (fun z => Some z)
  = match s with
    | [] => Some (MState j [] (set_nth 0 (Some []) caps))
    | d :: r => if is_ch "/" d
                then Some (MState (S j) r (set_nth 0 (Some [d]) caps))
                else None
    end.
Proof.
  unfold slash_or_end, is_ch. destruct s as [|d r].
  - eval_match. reflexivity.
  - eval_match. destruct (N.eqb_spec d (cu "/")) as [->|Hd].
    + eval_match. reflexivity.
    + apply N.eqb_neq in Hd. cbn in Hd. rewrite Hd. reflexivity.
Qed.

(** The greedy run of slashes, followed by [slash_or_end]: at the end of
    the text the whole run is taken; elsewhere the last slash of the run
    is left to the group, and a run of no slash fails. *)
Lemma slashes_loop (rest : jsstring) (caps : list (option jsstring)) :
  match rest with [] => True | a :: _ => is_ch "/" a = false end ->
  forall run i fuel,
    List.length run < fuel ->
    Forall (fun a => is_ch "/" a = true) run ->
    repeat_matcher (rmatch false (RChar (cu "/"))) [] true
      (fun y => rmatch false slash_or_end y (fun z => Some z))
      fuel 0 None (MState i (run ++ rest) caps)
    = match rest, run with
      | [], _ => Some (MState (i + List.length run) [] (set_nth 0 (Some []) caps))
      | _ :: _, [] => None
      | _ :: _, _ :: _ =>
          Some (MState (i + List.length run) rest (set_nth 0 (Some (str "/")) caps))
      end.
Proof.
  intros Hrest.
  assert (Hm : forall x k, rmatch false (RChar (cu "/")) x k
                           = step_char (is_ch "/") x k) by reflexivity.
  induction run as [|a run IH]; intros i fuel Hf Hrun;
    (destruct fuel as [|fuel]; [cbn in Hf; lia|]).
  - cbn [app]. rewrite (repeat_star_stop _ _ _ _ _ _ _ Hm Hrest).
    rewrite slash_or_end_cases. destruct rest as [|d r].
    + cbn. rewrite Nat.add_0_r. reflexivity.
    + rewrite Hrest. reflexivity.
  - inversion Hrun as [|? ? Ha Hrun']; subst. cbn [app].
    rewrite (repeat_star_cons _ _ _ _ _ _ _ _ Hm Ha).
    rewrite IH by (cbn in Hf; auto; lia). unfold or_else.
    destruct rest as [|d r].
    + cbn [List.length]. f_equal. f_equal. lia.
    + destruct run as [|b run].
      * rewrite slash_or_end_cases. cbn [app]. rewrite Ha.
        unfold is_ch in Ha. apply N.eqb_eq in Ha. subst a.
        cbn [List.length]. f_equal. f_equal. lia.
      * cbn [List.length]. f_equal. f_equal. lia.
Qed.

Lemma re_slashes_match (i : nat) (s' : jsstring) :
  match_at re_slashes i (cu "/" :: s')
  = match repeat_matcher (rmatch false (RChar (cu "/"))) [] true
            (fun y => rmatch false slash_or_end y (fun z => Some z))
            (S (S (List.length s'))) 0 None (MState (S i) s' [None]) with
    | Some y =>
        Some (MkMatch i (m_idx y) (consumed (MState i (cu "/" :: s') [None]) y)
                      (m_caps y) None)
    | None => None
    end.
Proof. reflexivity. Qed.

Lemma re_slashes_refines : refines re_slashes (str "$1") sc_slashes.
Proof.
  intros i s. unfold sc_slashes. destruct s as [|c s']; [reflexivity|].
  destruct (is_ch "/" c) eqn:Ec.
  - unfold is_ch in Ec. apply N.eqb_eq in Ec. subst c.
    rewrite re_slashes_match.
    destruct (skip_slashes_spec s') as (run & Hs & Hrun & Hrest).
    remember (skip_slashes s') as rest eqn:Er. clear Er. subst s'.
    rewrite (slashes_loop _ _ Hrest run (S i) (S (S (List.length (run ++ rest)))));
      [|rewrite length_app; lia|exact Hrun].
    destruct rest as [|d r].
    + eexists. exists (S (List.length run)). split; [reflexivity|].
      split; [reflexivity|]. split; [lia|]. split.
      * cbn. lia.
      * cbn [skipn]. rewrite app_nil_r. apply skipn_all.
    + destruct run as [|b run]; cbn [app].
      * rewrite Hrest. reflexivity.
      * inversion Hrun as [|? ? Hb Hrun']; subst. rewrite Hb.
        eexists. exists (S (S (List.length run))). split; [reflexivity|].
        split; [reflexivity|]. split; [lia|]. split.
        -- cbn. lia.
        -- cbn [skipn]. rewrite skipn_app, skipn_all, Nat.sub_diag. reflexivity.
  - unfold match_at. cbn. unfold is_ch in Ec. cbn in Ec. rewrite Ec. reflexivity.
Qed.

(** ** The parameter markers *)

Lemma re_named_ast :
  re_ast re_named = RSeq marker_prefix (RSeq (RChar (cu ":")) (name_then REmpty)).
Proof. reflexivity. Qed.

Lemma re_greedy_ast :
  re_ast re_greedy
  = RSeq marker_prefix
         (RSeq (RChar (cu ":")) (name_then (RSeq (RChar (cu "+")) REmpty))).
Proof. reflexivity. Qed.

Lemma word_run_spec (s : jsstring) :
  s = fst (word_run s) ++ snd (word_run s)
  /\ Forall (fun a => is_word a = true) (fst (word_run s))
  /\ match snd (word_run s) with [] => True | a :: _ => is_word a = false end.
Proof.
  induction s as [|c s IH]; [cbn; auto|]. cbn [word_run].
  destruct (is_word c) eqn:E.
  - destruct (word_run s) as [w r]. cbn in *. destruct IH as (Hs & Hw & Hr).
    split; [congruence|]. split; [constructor; assumption|exact Hr].
  - cbn. rewrite E. auto.
Qed.

Lemma word_class (x : mstate) (k : cont) :
  rmatch false (RClass false [CWord]) x k = step_char is_word x k.
Proof.
  unfold rmatch, step_char. destruct (m_rest x) as [|a r]; [reflexivity|].
  unfold class_has. cbn. rewrite orb_false_r. reflexivity.
Qed.

(** The name of a marker: the longest run of word characters, when the
    rest of the pattern matches after it. *)
Lemma name_run (c : cont) (j : nat) (n r : jsstring) (caps : list (option jsstring))
  (z : mstate) :
  n <> [] ->
  Forall (fun a => is_word a = true) n ->
  match r with [] => True | a :: _ => is_word a = false end ->
  c (MState (j + List.length n) r (set_nth 1 (Some n) caps)) = Some z ->
  rmatch false (RGroup 2 None (RSeq (RRepeat 1 None true (RClass false [CWord])) REmpty))
         (MState j (n ++ r) caps) c = Some z.
Proof.
  intros Hne Hn Hr Hc. destruct n as [|a n]; [congruence|].
  inversion Hn as [|? ? Ha Hn']; subst.
  change (repeat_matcher (rmatch false (RClass false [CWord])) [] true
            (fun y => c (set_cap 2 (Some (consumed (MState j ((a :: n) ++ r) caps) y)) y))
            (S (1 + List.length ((a :: n) ++ r))) 1 None (MState j ((a :: n) ++ r) caps)
          = Some z).
  rewrite repeat_plus_first, word_class. unfold clear_caps, step_char.
  cbn [fold_left m_rest m_idx m_caps app]. rewrite Ha.
  apply (repeat_greedy_run _ is_word _ r caps z word_class Hr n (S j)).
  - cbn. rewrite length_app. lia.
  - exact Hn'.
  - unfold set_cap, consumed. cbn [m_idx m_rest m_caps Nat.pred].
    replace (S j + List.length n - j) with (List.length (a :: n))
      by (cbn [List.length]; lia).
    change (a :: n ++ r) with ((a :: n) ++ r).
    rewrite firstn_app, firstn_all, Nat.sub_diag, firstn_O, app_nil_r. cbn [List.length] in Hc.
    replace (S j + List.length n) with (j + S (List.length n)) by lia. exact Hc.
Qed.

(** Without a word character there is no name. *)
Lemma name_none (c : cont) (j : nat) (r : jsstring) (caps : list (option jsstring)) :
  match r with [] => True | a :: _ => is_word a = false end ->
  rmatch false (RGroup 2 None (RSeq (RRepeat 1 None true (RClass false [CWord])) REmpty))
         (MState j r caps) c = None.
Proof.
  intro Hr.
  change (repeat_matcher (rmatch false (RClass false [CWord])) [] true
            (fun y => c (set_cap 2 (Some (consumed (MState j r caps) y)) y))
            (S (1 + List.length r)) 1 None (MState j r caps) = None).
  rewrite repeat_plus_first, word_class. unfold clear_caps, step_char.
  cbn [fold_left m_rest m_idx m_caps]. destruct r as [|a r]; [reflexivity|].
  rewrite Hr. reflexivity.
Qed.

(** With a plus sign required after the name, a name that is not followed
    by one does not match, however short it is cut. *)
Lemma word_loop_none (c : cont) (r : jsstring) (caps : list (option jsstring)) :
  (forall y, match m_rest y with
             | [] => True
             | a :: _ => is_ch "+" a = false
             end -> c y = None) ->
  match r with [] => True | a :: _ => is_word a = false /\ is_ch "+" a = false end ->
  forall n i fuel,
    Forall (fun a => is_word a = true) n ->
    repeat_matcher (rmatch false (RClass false [CWord])) [] true c fuel 0 None
                   (MState i (n ++ r) caps) = None.
Proof.
  intros Hc Hr. induction n as [|a n IH]; intros i fuel Hn;
    (destruct fuel as [|fuel]; [reflexivity|]).
  - cbn [app]. rewrite (repeat_star_stop _ is_word _ _ _ _ _ word_class).
    + apply Hc. cbn. destruct r; [exact I|apply Hr].
    + destruct r; [exact I|apply Hr].
  - inversion Hn as [|? ? Ha Hn']; subst. cbn [app].
    rewrite (repeat_star_cons _ is_word _ _ _ _ _ _ word_class Ha).
    rewrite IH by exact Hn'. unfold or_else. apply Hc. cbn.
    unfold is_ch. apply N.eqb_neq. intros ->. discriminate Ha.
Qed.

Lemma name_then_named (j : nat) (s : jsstring) (caps : list (option jsstring)) :
  rmatch false (name_then REmpty) (MState j s caps) (fun z => Some z)
  = match word_run s with
    | ([], _) => None
    | (n, r) => Some (MState (j + List.length n) r (set_nth 1 (Some n) caps))
    end.
Proof.
  destruct (word_run_spec s) as (Hs & Hn & Hr).
  destruct (word_run s) as [n r]. cbn [fst snd] in *. subst s.
  change (rmatch false (name_then REmpty) ?x ?c)
    with (rmatch false (RGroup 2 None
                          (RSeq (RRepeat 1 None true (RClass false [CWord])) REmpty))
                 x (fun y => c y)).
  destruct n as [|a n].
  - apply name_none. exact Hr.
  - apply name_run; auto. discriminate.
Qed.

Lemma name_then_greedy (j : nat) (s : jsstring) (caps : list (option jsstring)) :
  rmatch false (name_then (RSeq (RChar (cu "+")) REmpty)) (MState j s caps)
         (fun z => Some z)
  = match word_run s with
    | ([], _) => None
    | (n, c :: r) =>
        if is_ch "+" c
        then Some (MState (S (j + List.length n)) r (set_nth 1 (Some n) caps))
        else None
    | (_, []) => None
    end.
Proof.
  destruct (word_run_spec s) as (Hs & Hn & Hr).
  destruct (word_run s) as [n r]. cbn [fst snd] in *. subst s.
  change (rmatch false (name_then (RSeq (RChar (cu "+")) REmpty)) ?x ?c)
    with (rmatch false (RGroup 2 None
                          (RSeq (RRepeat 1 None true (RClass false [CWord])) REmpty))
                 x (fun y => step_char (is_ch "+") y (fun y' => c y'))).
  destruct n as [|a n]; [apply name_none; exact Hr|].
  destruct r as [|c r].
  - inversion Hn as [|? ? Ha Hn']; subst.
    change (repeat_matcher (rmatch false (RClass false [CWord])) [] true
              (fun y => step_char (is_ch "+")
                          (set_cap 2 (Some (consumed (MState j ((a :: n) ++ []) caps) y)) y)
                          (fun y' => Some y'))
              (S (1 + List.length ((a :: n) ++ []))) 1 None
              (MState j ((a :: n) ++ []) caps) = None).
    rewrite repeat_plus_first, word_class. unfold clear_caps, step_char at 1.
    cbn [fold_left m_rest m_idx m_caps app]. rewrite Ha.
    apply word_loop_none; auto. intros y Hy. unfold step_char, set_cap. cbn [m_rest].
    destruct (m_rest y); [reflexivity|]. rewrite Hy. reflexivity.
  - destruct (is_ch "+" c) eqn:Ec.
    + apply name_run; auto; [discriminate|].
      unfold step_char. cbn [m_rest m_idx m_caps]. rewrite Ec. reflexivity.
    + inversion Hn as [|? ? Ha Hn']; subst.
      change (repeat_matcher (rmatch false (RClass false [CWord])) [] true
                (fun y => step_char (is_ch "+")
                            (set_cap 2
                               (Some (consumed (MState j ((a :: n) ++ c :: r) caps) y)) y)
                            (fun y' => Some y'))
                (S (1 + List.length ((a :: n) ++ c :: r))) 1 None
                (MState j ((a :: n) ++ c :: r) caps) = None).
      rewrite repeat_plus_first, word_class. unfold clear_caps, step_char at 1.
      cbn [fold_left m_rest m_idx m_caps app]. rewrite Ha.
      apply word_loop_none; auto. intros y Hy. unfold step_char, set_cap. cbn [m_rest].
      destruct (m_rest y); [reflexivity|]. rewrite Hy. reflexivity.
Qed.

(** The prefix of a marker: the slash and the dot are taken when they are
    there, and no other choice leads to the colon. *)
Lemma marker_match (tail : regex) (i : nat) (s : jsstring)
  (F : nat -> jsstring -> list (option jsstring) -> option mstate) :
  (forall j s' caps, rmatch false (name_then tail) (MState j s' caps) (fun z => Some z)
                     = F j s' caps) ->
  rmatch false (RSeq marker_prefix (RSeq (RChar (cu ":")) (name_then tail)))
         (MState i s [None; None]) (fun z => Some z)
  = let (p1, s1) := take_ch "/" s in
    let (p2, s2) := take_ch "." s1 in
    match s2 with
    | c :: s3 =>
        if is_ch ":" c
        then F (S (i + List.length (p1 ++ p2))) s3 [Some (p1 ++ p2); None]
        else None
    | [] => None
    end.
Proof.
  intro HF. unfold marker_prefix, take_ch, is_ch.
  destruct s as [|a s]; [eval_match; reflexivity|].
  destruct (N.eqb_spec a (cu "/")) as [->|Ha].
  - destruct s as [|b s]; [eval_match; reflexivity|].
    destruct (N.eqb_spec b (cu ".")) as [->|Hb].
    + destruct s as [|c s]; [eval_match; reflexivity|].
      destruct (N.eqb_spec c (cu ":")) as [->|Hc].
      * eval_match. rewrite HF. cbn [List.length app].
        replace (S (i + 2)) with (S (S (S i))) by lia.
        destruct (F _ _ _); reflexivity.
      * apply N.eqb_neq in Hc. cbn in Hc. eval_match. rewrite Hc. reflexivity.
    + apply N.eqb_neq in Hb. cbn in Hb.
      destruct (N.eqb_spec b (cu ":")) as [->|Hc].
      * eval_match. rewrite HF. cbn [List.length app].
        replace (S (i + 1)) with (S (S i)) by lia.
        destruct (F _ _ _); reflexivity.
      * apply N.eqb_neq in Hc. cbn in Hc. eval_match. rewrite Hb. eval_match.
        rewrite Hc. reflexivity.
  - apply N.eqb_neq in Ha. cbn in Ha.
    destruct (N.eqb_spec a (cu ".")) as [->|Hb].
    + destruct s as [|c s]; [eval_match; reflexivity|].
      destruct (N.eqb_spec c (cu ":")) as [->|Hc].
      * eval_match. rewrite HF. cbn [List.length app].
        replace (S (i + 1)) with (S (S i)) by lia.
        destruct (F _ _ _); reflexivity.
      * apply N.eqb_neq in Hc. cbn in Hc. eval_match. rewrite Hc. reflexivity.
    + apply N.eqb_neq in Hb. cbn in Hb.
      destruct (N.eqb_spec a (cu ":")) as [->|Hc].
      * eval_match. rewrite HF. cbn [List.length app].
        replace (S (i + 0)) with (S i) by lia.
        destruct (F _ _ _); reflexivity.
      * apply N.eqb_neq in Hc. cbn in Hc. eval_match. rewrite Ha. eval_match.
        rewrite Hb. eval_match. rewrite Hc. reflexivity.
Qed.

Lemma take_ch_spec (a : ascii) (s : jsstring) :
  s = fst (take_ch a s) ++ snd (take_ch a s).
Proof.
  unfold take_ch. destruct s as [|c s]; [reflexivity|].
  destruct (is_ch a c); reflexivity.
Qed.

Lemma skipn_exact {A} (a b : list A) : skipn (List.length a) (a ++ b) = b.
Proof. rewrite skipn_app, skipn_all, Nat.sub_diag. reflexivity. Qed.

Lemma re_named_match (i : nat) (s : jsstring) :
  match_at re_named i s
  = match rmatch false (RSeq marker_prefix (RSeq (RChar (cu ":")) (name_then REmpty)))
                 (MState i s [None; None]) (fun z => Some z) with
    | Some y => Some (MkMatch i (m_idx y) (consumed (MState i s [None; None]) y)
                              (m_caps y) None)
    | None => None
    end.
Proof. reflexivity. Qed.

Lemma re_greedy_match (i : nat) (s : jsstring) :
  match_at re_greedy i s
  = match rmatch false
            (RSeq marker_prefix
                  (RSeq (RChar (cu ":")) (name_then (RSeq (RChar (cu "+")) REmpty))))
            (MState i s [None; None]) (fun z => Some z) with
    | Some y => Some (MkMatch i (m_idx y) (consumed (MState i s [None; None]) y)
                              (m_caps y) None)
    | None => None
    end.
Proof. reflexivity. Qed.

Lemma re_named_refines : refines re_named (str "($1(?<$2>[^$1/]+?))") sc_named.
Proof.
  intros i s. unfold sc_named, marker.
  rewrite re_named_match, (marker_match REmpty i s _ name_then_named).
  pose proof (take_ch_spec "/" s) as H1.
  destruct (take_ch "/" s) as [p1 s1]. cbn [fst snd] in H1.
  pose proof (take_ch_spec "." s1) as H2.
  destruct (take_ch "." s1) as [p2 s2]. cbn [fst snd] in H2.
  destruct s2 as [|c s3]; [reflexivity|].
  destruct (is_ch ":" c); [|reflexivity].
  destruct (word_run_spec s3) as (H3 & _ & _).
  destruct (word_run s3) as [n r]. cbn [fst snd] in H3.
  destruct n as [|a n]; [reflexivity|].
  eexists. exists (List.length ((p1 ++ p2) ++ c :: a :: n)).
  split; [reflexivity|]. split; [reflexivity|]. split; [rewrite length_app; cbn; lia|].
  split.
  - cbn [mr_end m_idx]. rewrite !length_app. cbn [List.length]. lia.
  - subst s s1 s3. rewrite <- (skipn_exact ((p1 ++ p2) ++ c :: a :: n) r) at 2.
    f_equal. rewrite <- !app_assoc. reflexivity.
Qed.

Lemma re_greedy_refines : refines re_greedy (str "($1(?<$2>*))") sc_greedy.
Proof.
  intros i s. unfold sc_greedy, marker.
  rewrite re_greedy_match, (marker_match _ i s _ name_then_greedy).
  pose proof (take_ch_spec "/" s) as H1.
  destruct (take_ch "/" s) as [p1 s1]. cbn [fst snd] in H1.
  pose proof (take_ch_spec "." s1) as H2.
  destruct (take_ch "." s1) as [p2 s2]. cbn [fst snd] in H2.
  destruct s2 as [|c s3]; [reflexivity|].
  destruct (is_ch ":" c); [|reflexivity].
  destruct (word_run_spec s3) as (H3 & _ & _).
  destruct (word_run s3) as [n r]. cbn [fst snd] in H3.
  destruct n as [|a n]; [reflexivity|].
  destruct r as [|d r]; [reflexivity|].
  destruct (is_ch "+" d); [|reflexivity].
  eexists. exists (List.length ((p1 ++ p2) ++ c :: (a :: n) ++ [d])).
  split; [reflexivity|]. split; [reflexivity|].
  split; [rewrite !length_app; cbn; lia|].
  split.
  - cbn [mr_end m_idx]. rewrite !length_app. cbn [List.length]. rewrite length_app.
    cbn [List.length]. lia.
  - subst s s1 s3. rewrite <- (skipn_exact ((p1 ++ p2) ++ c :: (a :: n) ++ [d]) r) at 2.
    f_equal. rewrite <- !app_assoc. cbn. rewrite <- app_assoc. reflexivity.
Qed.

(** The text [compile] hands to [RegExp] is the result of the five steps as
    the scanners say them. *)
Lemma rewrite_is_rewrite_steps (path : jsstring) : rewrite path = rewrite_steps path.
Proof.
  unfold rewrite, rewrite_steps.
  rewrite (replace_scan _ _ _ re_slashes_refines),
          (replace_scan _ _ _ re_greedy_refines),
          (replace_scan _ _ _ re_named_refines),
          (replace_scan _ _ _ re_dot_refines),
          (replace_scan _ _ _ re_wildcard_refines).
  reflexivity.
Qed.

(** ** Named and greedy parameters *)

Lemma docs_compiled (o : options) :
  compile (str "/docs/:path+") o = POk (compiled (str "/docs/:path+") o)
  /\ re_ast (compiled (str "/docs/:path+") o) = docs_ast (default true (trailing o))
  /\ re_ngroups (compiled (str "/docs/:path+") o) = 3.
Proof.
  destruct o as [[[|]|] [[|]|]]; vm_compute; repeat split; reflexivity.
Qed.

(** Whatever follows [/docs/] is the capture of [path], slashes included. *)
Lemma docs_capture (o : options) (rest : jsstring) :
  no_line_terminator rest ->
  raw_param (compiled (str "/docs/:path+") o) (str "/docs/" ++ rest) (str "path")
  = Some (Some rest).
Proof.
  intros H.
  destruct rest as [|a rest];
    [destruct o as [[[|]|] [[|]|]]; vm_compute; reflexivity|].
  remember (a :: rest) as run eqn:Erun.
  assert (Hne : run <> []) by (subst; discriminate).
  destruct (docs_compiled o) as (_ & Hast & Hn).
  unfold raw_param. rewrite (exec_anchored _ _ _ Hast).
  unfold match_at. rewrite Hast, Hn.
  generalize (re_ignoreCase (compiled (str "/docs/:path+") o)). intro ic.
  destruct (default true (trailing o)); destruct ic;
    cbn -[greedy_body consumed];
    (erewrite greedy_body_all; cycle 1;
     [exact Hne|exact H|cbn; rewrite ?Nat.sub_0_r, ?firstn_all; reflexivity|]);
    cbn; rewrite ?Nat.sub_0_r, ?firstn_all; reflexivity.
Qed.

(** ** The wildcard *)

Lemma files_compiled (o : options) :
  compile (str "/files/*") o = POk (compiled (str "/files/*") o)
  /\ re_ast (compiled (str "/files/*") o)
     = mk_seq ([RBol] ++ List.map RChar (str "/files") ++ [wildcard_region 1 true]
               ++ (if default true (trailing o) then [trailing_slash] else [])
               ++ [REol]).
Proof.
  destruct o as [[[|]|] [[|]|]]; vm_compute; split; reflexivity.
Qed.

Lemma lang_any_run (ic : bool) (i : nat) (w rest : jsstring) :
  no_line_terminator w -> lang ic any_run i w rest.
Proof.
  intro Hw. unfold any_run. cbn [lang].
  exists w, []. rewrite app_nil_r. split; [reflexivity|]. split; [|reflexivity].
  exists (List.map (fun a => [a]) w). split; [|split; [|split; [lia|exact I]]].
  - clear Hw. induction w as [|a w IH]; [reflexivity|]. cbn. congruence.
  - revert i. induction Hw as [|a w Ha Hw IH]; intro i; cbn [List.map lang_iter]; [exact I|].
    split; [exists a; auto|apply IH].
Qed.

Lemma lang_seq (ic : bool) (r1 r2 : regex) (i : nat) (w1 w2 rest : jsstring) :
  lang ic r1 i w1 (w2 ++ rest) -> lang ic r2 (i + List.length w1) w2 rest ->
  lang ic (RSeq r1 r2) i (w1 ++ w2) rest.
Proof. intros H1 H2. exists w1, w2. auto. Qed.

Lemma lang_seq_char (ic : bool) (ch a : codeunit) (r : regex) (i : nat)
  (w rest : jsstring) :
  canon ic a = canon ic ch -> lang ic r (S i) w rest ->
  lang ic (RSeq (RChar ch) r) i (a :: w) rest.
Proof.
  intros Ha Hr. apply (lang_seq ic (RChar ch) r i [a] w rest).
  - exists a. auto.
  - cbn. replace (i + 1) with (S i) by lia. exact Hr.
Qed.

Lemma lang_seq_bol (ic : bool) (r : regex) (w rest : jsstring) :
  lang ic r 0 w rest -> lang ic (RSeq RBol r) 0 w rest.
Proof. intro H. apply (lang_seq ic RBol r 0 [] w rest); cbn; auto. Qed.

Lemma lang_seq_skip (ic : bool) (mx : option nat) (g : bool) (r' r : regex) (i : nat)
  (w rest : jsstring) :
  lang ic r i w rest -> lang ic (RSeq (RRepeat 0 mx g r') r) i w rest.
Proof.
  intro H. apply (lang_seq ic _ r i [] w rest).
  - exists []. cbn. repeat split; destruct mx; cbn; auto; lia.
  - cbn. rewrite Nat.add_0_r. exact H.
Qed.

Lemma lang_once (ic g : bool) (r : regex) (i : nat) (w rest : jsstring) :
  lang ic r i w rest -> lang ic (RRepeat 0 (Some 1) g r) i w rest.
Proof.
  intro H. exists [w]. cbn [List.concat List.length lang_iter].
  rewrite !app_nil_r. cbn. repeat split; auto.
Qed.

Lemma lang_end (ic : bool) (i : nat) : lang ic (RSeq REol REmpty) i [] [].
Proof. exists [], []. cbn. auto. Qed.

(** Every path made of [/files/] and anything is accepted. *)
Lemma files_prefix_accepted (o : options) (rest : jsstring) :
  no_line_terminator rest ->
  accepts (compiled (str "/files/*") o) (str "/files/" ++ rest) = true.
Proof.
  intro Hrest. apply accepts_complete.
  destruct (files_compiled o) as [_ ->].
  generalize (re_ignoreCase (compiled (str "/files/*") o)). intro ic.
  assert (Hw : forall r, lang ic r (7 + List.length rest) [] [] ->
                 lang ic (RSeq (wildcard_region 1 true) r) 6 (cu "/" :: rest) []).
  { intros r Hr. rewrite <- (app_nil_r (cu "/" :: rest)).
    apply lang_seq; [|cbn [List.length]; exact Hr].
    unfold wildcard_region. apply lang_once.
    change (lang ic (RSeq (RChar (cu "/")) any_run) 6 (cu "/" :: rest) ([] ++ [])).
    apply lang_seq_char; [reflexivity|]. apply lang_any_run. exact Hrest. }
  cbn [mk_seq app List.map fold_right str list_ascii_of_string].
  apply lang_seq_bol. repeat (apply lang_seq_char; [reflexivity|]).
  apply Hw. destruct (default true (trailing o)); cbn [app fold_right].
  - apply lang_seq_skip, lang_end.
  - apply lang_end.
Qed.

(** ** Scanning, one marker at a time *)

Lemma scan_fuel (sc : scanner) :
  progresses sc ->
  forall f1 f2 s, List.length s < f1 -> List.length s < f2 -> scan f1 sc s = scan f2 sc s.
Proof.
  intro Hp. induction f1 as [|f1 IH]; intros f2 s H1 H2; [lia|].
  destruct f2 as [|f2]; [lia|]. cbn [scan].
  destruct (sc s) as [[out rest]|] eqn:E.
  - apply Hp in E. rewrite (IH f2 rest); [reflexivity|lia|lia].
  - destruct s as [|c s]; [reflexivity|]. cbn in H1, H2.
    rewrite (IH f2 s); [reflexivity|lia|lia].
Qed.

Lemma scan_all_skip (sc : scanner) (c : codeunit) (s : jsstring) :
  sc (c :: s) = None -> scan_all sc (c :: s) = c :: scan_all sc s.
Proof.
  intro H. unfold scan_all at 1. cbn [scan List.length]. rewrite H. reflexivity.
Qed.

Lemma scan_all_hit (sc : scanner) (s out rest : jsstring) :
  progresses sc -> sc s = Some (out, rest) -> scan_all sc s = out ++ scan_all sc rest.
Proof.
  intros Hp H. unfold scan_all at 1. cbn [scan]. rewrite H. f_equal.
  apply Hp in H. unfold scan_all. apply scan_fuel; [exact Hp|lia|lia].
Qed.

Lemma scan_all_nil (sc : scanner) : sc [] = None -> scan_all sc [] = [].
Proof. intro H. unfold scan_all. cbn. rewrite H. reflexivity. Qed.

(** Code units at which no marker starts are kept. *)
Lemma scan_all_inert (sc : scanner) (w rest : jsstring) :
  Forall (fun c => forall t, sc (c :: t) = None) w ->
  scan_all sc (w ++ rest) = w ++ scan_all sc rest.
Proof.
  induction 1 as [|c w Hc Hw IH]; [reflexivity|]. cbn [app].
  rewrite scan_all_skip by apply Hc. rewrite IH. reflexivity.
Qed.

Lemma skip_slashes_length (s : jsstring) : List.length (skip_slashes s) <= List.length s.
Proof.
  induction s as [|c s IH]; [auto|]. cbn. destruct (is_ch "/" c); cbn; lia.
Qed.

Lemma sc_slashes_progresses : progresses sc_slashes.
Proof.
  intros s out rest. unfold sc_slashes. destruct s as [|c s]; [discriminate|].
  destruct (is_ch "/" c); [|discriminate].
  pose proof (skip_slashes_length s) as Hl.
  destruct (skip_slashes s) as [|d r] eqn:E.
  - intro H. injection H as <- <-. cbn. lia.
  - destruct s as [|e s]; [discriminate|]. destruct (is_ch "/" e); [|discriminate].
    intro H. injection H as <- <-. cbn in *. lia.
Qed.

Lemma marker_length (s p n rest : jsstring) :
  marker s = Some (p, n, rest) ->
  s = p ++ cu ":" :: n ++ rest /\ n <> [].
Proof.
  unfold marker. pose proof (take_ch_spec "/" s) as H1.
  destruct (take_ch "/" s) as [p1 s1]. cbn [fst snd] in H1.
  pose proof (take_ch_spec "." s1) as H2.
  destruct (take_ch "." s1) as [p2 s2]. cbn [fst snd] in H2.
  destruct s2 as [|c s3]; [discriminate|].
  destruct (is_ch ":" c) eqn:Ec; [|discriminate].
  unfold is_ch in Ec. apply N.eqb_eq in Ec. subst c.
  destruct (word_run_spec s3) as (H3 & _ & _).
  destruct (word_run s3) as [n' r]. cbn [fst snd] in H3.
  destruct n' as [|a n']; [discriminate|].
  intro H. injection H as <- <- <-. subst s s1 s3.
  rewrite <- app_assoc. split; [reflexivity|discriminate].
Qed.

Lemma sc_named_progresses : progresses sc_named.
Proof.
  intros s out rest. unfold sc_named.
  destruct (marker s) as [[[p n] r]|] eqn:E; [|discriminate].
  intro H. injection H as <- <-. apply marker_length in E. destruct E as [-> _].
  rewrite length_app. cbn. rewrite length_app. lia.
Qed.

Lemma sc_greedy_progresses : progresses sc_greedy.
Proof.
  intros s out rest. unfold sc_greedy.
  destruct (marker s) as [[[p n] [|c r]]|] eqn:E; try discriminate.
  destruct (is_ch "+" c); [|discriminate].
  intro H. injection H as <- <-. apply marker_length in E. destruct E as [-> _].
  rewrite length_app. cbn. rewrite length_app. cbn. lia.
Qed.

Lemma sc_dot_progresses : progresses sc_dot.
Proof.
  intros s out rest. unfold sc_dot. destruct s as [|c s]; [discriminate|].
  destruct (is_ch "." c); [|discriminate]. intro H. injection H as <- <-. cbn. lia.
Qed.

Lemma sc_wildcard_progresses : progresses sc_wildcard.
Proof.
  intros s out rest. unfold sc_wildcard. destruct s as [|c s]; [discriminate|].
  destruct (is_ch "*" c); [intro H; injection H as <- <-; cbn; lia|].
  destruct (is_ch "/" c); [|discriminate]. destruct s as [|d s]; [discriminate|].
  destruct (is_ch "*" d); [|discriminate]. intro H. injection H as <- <-. cbn. lia.
Qed.

(** ** The steps on a pattern of the grammar *)

Lemma word_is_plain (c : codeunit) : is_word c = true -> plain c = true.
Proof.
  unfold is_word, is_upper, is_lower, is_digit, plain. intro H.
  apply andb_true_iff. split.
  { apply N.ltb_lt.
    repeat match goal with
           | H : (_ || _)%bool = true |- _ => apply orb_true_iff in H; destruct H as [H|H]
           | H : (_ && _)%bool = true |- _ =>
               apply andb_true_iff in H; destruct H as [_ H]; apply N.leb_le in H
           | H : (_ =? _)%N = true |- _ => apply N.eqb_eq in H
           end; lia. }
  apply negb_true_iff. apply not_true_is_false. intro E.
  apply existsb_exists in E. destruct E as (x & Hx & Hcx). apply N.eqb_eq in Hcx. subst x.
  vm_compute in Hx.
  repeat (destruct Hx as [Hx|Hx]; [subst c; vm_compute in H; discriminate H|]).
  exact Hx.
Qed.

Lemma plain_not (c : codeunit) (a : ascii) :
  plain c = true -> In (cu a) (str "/.:*+?()[]{}\^$|") -> is_ch a c = false.
Proof.
  unfold plain, is_ch. intros H Hin. apply andb_true_iff in H. destruct H as [_ H].
  apply negb_true_iff in H.
  apply N.eqb_neq. intros ->. 
  assert (existsb (N.eqb (cu a)) (str "/.:*+?()[]{}\^$|") = true).
  { apply existsb_exists. exists (cu a). split; [exact Hin|apply N.eqb_refl]. }
  congruence.
Qed.

Ltac plain_facts c H :=
  pose proof (plain_not c "/" H ltac:(vm_compute; tauto));
  pose proof (plain_not c "." H ltac:(vm_compute; tauto));
  pose proof (plain_not c ":" H ltac:(vm_compute; tauto));
  pose proof (plain_not c "*" H ltac:(vm_compute; tauto)).

Lemma plain_marker (c : codeunit) (t : jsstring) : plain c = true -> marker (c :: t) = None.
Proof.
  intro H. plain_facts c H. unfold marker, take_ch.
  repeat match goal with E : is_ch _ c = false |- _ => rewrite E; clear E end. reflexivity.
Qed.

Lemma plain_inert (c : codeunit) :
  plain c = true ->
  forall t, sc_slashes (c :: t) = None /\ sc_greedy (c :: t) = None
            /\ sc_named (c :: t) = None /\ sc_dot (c :: t) = None
            /\ sc_wildcard (c :: t) = None.
Proof.
  intros H t. pose proof (plain_marker c t H) as Hm. plain_facts c H.
  unfold sc_slashes, sc_greedy, sc_named, sc_dot, sc_wildcard. rewrite Hm.
  repeat match goal with E : is_ch _ c = false |- _ => rewrite E; clear E end.
  auto.
Qed.

Lemma inert_run (w : jsstring) :
  Forall (fun c => plain c = true) w ->
  Forall (fun c => forall t, sc_slashes (c :: t) = None) w
  /\ Forall (fun c => forall t, sc_greedy (c :: t) = None) w
  /\ Forall (fun c => forall t, sc_named (c :: t) = None) w
  /\ Forall (fun c => forall t, sc_dot (c :: t) = None) w
  /\ Forall (fun c => forall t, sc_wildcard (c :: t) = None) w.
Proof.
  intro H. repeat split; (eapply Forall_impl; [|exact H]); cbv beta; intros c Hc t;
    apply (plain_inert c Hc t).
Qed.

Lemma inert_name (n : jsstring) :
  Forall (fun c => is_word c = true) n -> Forall (fun c => plain c = true) n.
Proof. intro H. eapply Forall_impl; [|exact H]. exact word_is_plain. Qed.

(** The text of a token, the parentheses of [app] to the right. *)
Ltac token_text :=
  cbn [render_token text2 text3 text4 text5 str list_ascii_of_string List.map app];
  rewrite <- ?app_assoc;
  cbn [app].

(** Step 1 leaves a pattern of the grammar as it is. *)
Lemma step1_token (t : token) (rest : jsstring) :
  token_ok t ->
  scan_all sc_slashes (render_token t ++ rest)
  = render_token t ++ scan_all sc_slashes rest.
Proof.
  intro Hok. destruct t as [w|n|n| |n]; cbn [token_ok] in Hok; token_text.
  - destruct Hok as [Hne Hw]. destruct w as [|c w]; [congruence|].
    destruct (inert_run _ Hw) as (H1 & _).
    inversion Hw as [|? ? Hc _]; subst.
    rewrite scan_all_skip.
    + rewrite (scan_all_inert _ (c :: w) rest H1). reflexivity.
    + unfold sc_slashes. cbn [app skip_slashes].
      rewrite (plain_not c "/" Hc ltac:(vm_compute; tauto)). reflexivity.
  - destruct Hok as [_ Hn]. destruct (inert_run _ (inert_name _ Hn)) as (H1 & _).
    rewrite !scan_all_skip by reflexivity. rewrite (scan_all_inert _ n rest H1).
    reflexivity.
  - destruct Hok as [_ Hn]. destruct (inert_run _ (inert_name _ Hn)) as (H1 & _).
    rewrite !scan_all_skip by reflexivity.
    rewrite (scan_all_inert _ n (cu "+" :: rest) H1).
    rewrite scan_all_skip by reflexivity. reflexivity.
  - rewrite !scan_all_skip by reflexivity. reflexivity.
  - destruct Hok as [_ Hn]. destruct (inert_run _ (inert_name _ Hn)) as (H1 & _).
    rewrite !scan_all_skip by reflexivity. rewrite (scan_all_inert _ n rest H1).
    reflexivity.
Qed.

Lemma word_run_app (n rest : jsstring) :
  Forall (fun c => is_word c = true) n ->
  match rest with [] => True | c :: _ => is_word c = false end ->
  word_run (n ++ rest) = (n, rest).
Proof.
  intros Hn Hr. induction Hn as [|c n Hc Hn IH]; cbn [app].
  - destruct rest as [|c r]; [reflexivity|]. cbn [word_run]. rewrite Hr. reflexivity.
  - cbn [word_run]. rewrite Hc, IH. reflexivity.
Qed.

Lemma breaks_word (rest : jsstring) :
  breaks rest -> match rest with [] => True | c :: _ => is_word c = false end.
Proof. destruct rest; [auto|]. intros [H _]. exact H. Qed.

(** The marker at the head of a token that holds one. *)
Lemma marker_slash (n rest : jsstring) :
  n <> [] -> Forall (fun c => is_word c = true) n ->
  match rest with [] => True | c :: _ => is_word c = false end ->
  marker (cu "/" :: cu ":" :: n ++ rest) = Some (str "/", n, rest).
Proof.
  intros Hne Hn Hr. unfold marker, take_ch, is_ch. cbn -[word_run].
  rewrite (word_run_app n rest Hn Hr). destruct n; [congruence|reflexivity].
Qed.

Lemma marker_dot (n rest : jsstring) :
  n <> [] -> Forall (fun c => is_word c = true) n ->
  match rest with [] => True | c :: _ => is_word c = false end ->
  marker (cu "." :: cu ":" :: n ++ rest) = Some (str ".", n, rest).
Proof.
  intros Hne Hn Hr. unfold marker, take_ch, is_ch. cbn -[word_run].
  rewrite (word_run_app n rest Hn Hr). destruct n; [congruence|reflexivity].
Qed.

Lemma marker_bare (n rest : jsstring) :
  n <> [] -> Forall (fun c => is_word c = true) n ->
  match rest with [] => True | c :: _ => is_word c = false end ->
  marker (cu ":" :: n ++ rest) = Some ([], n, rest).
Proof.
  intros Hne Hn Hr. unfold marker, take_ch, is_ch. cbn -[word_run].
  rewrite (word_run_app n rest Hn Hr). destruct n; [congruence|reflexivity].
Qed.

Lemma sc_greedy_no_plus (s p n rest : jsstring) :
  marker s = Some (p, n, rest) -> breaks rest -> sc_greedy s = None.
Proof.
  intros Hm Hb. unfold sc_greedy. rewrite Hm. destruct rest as [|c r]; [reflexivity|].
  destruct Hb as [_ ->]. reflexivity.
Qed.

Lemma slash_then_plain (c : codeunit) (t : jsstring) :
  plain c = true ->
  sc_greedy (cu "/" :: c :: t) = None /\ sc_named (cu "/" :: c :: t) = None
  /\ sc_dot (cu "/" :: c :: t) = None /\ sc_wildcard (cu "/" :: c :: t) = None.
Proof.
  intro H. plain_facts c H.
  assert (Hm : marker (cu "/" :: c :: t) = None).
  { unfold marker, take_ch. change (is_ch "/" (cu "/")) with true. cbv iota beta.
    repeat match goal with E : is_ch _ c = false |- _ => rewrite E end. reflexivity. }
  unfold sc_greedy, sc_named, sc_dot, sc_wildcard. rewrite Hm.
  change (is_ch "." (cu "/")) with false. change (is_ch "*" (cu "/")) with false.
  change (is_ch "/" (cu "/")) with true. cbv iota.
  repeat match goal with E : is_ch _ c = false |- _ => rewrite E end. auto.
Qed.

(** Step 2 rewrites the greedy parameters and nothing else. *)
Lemma step2_token (t : token) (rest : jsstring) :
  token_ok t -> breaks rest ->
  scan_all sc_greedy (render_token t ++ rest) = text2 t ++ scan_all sc_greedy rest.
Proof.
  intros Hok Hb. pose proof (breaks_word rest Hb) as Hbw.
  destruct t as [w|n|n| |n]; cbn [token_ok] in Hok; token_text.
  - destruct Hok as [Hne Hw]. destruct w as [|c w]; [congruence|].
    destruct (inert_run _ Hw) as (_ & H2 & _).
    inversion Hw as [|? ? Hc _]; subst.
    rewrite scan_all_skip by apply (slash_then_plain c _ Hc).
    rewrite (scan_all_inert _ (c :: w) rest H2). reflexivity.
  - destruct Hok as [Hne Hn]. destruct (inert_run _ (inert_name _ Hn)) as (_ & H2 & _).
    rewrite scan_all_skip
      by exact (sc_greedy_no_plus _ _ _ _ (marker_slash n rest Hne Hn Hbw) Hb).
    rewrite scan_all_skip
      by exact (sc_greedy_no_plus _ _ _ _ (marker_bare n rest Hne Hn Hbw) Hb).
    rewrite (scan_all_inert _ n rest H2). reflexivity.
  - destruct Hok as [Hne Hn].
    rewrite (scan_all_hit sc_greedy _ (str "(/(?<" ++ n ++ str ">*))") rest
               sc_greedy_progresses).
    + token_text. reflexivity.
    + unfold sc_greedy. rewrite (marker_slash n (cu "+" :: rest) Hne Hn eq_refl).
      reflexivity.
  - rewrite !scan_all_skip by reflexivity. reflexivity.
  - destruct Hok as [Hne Hn]. destruct (inert_run _ (inert_name _ Hn)) as (_ & H2 & _).
    rewrite scan_all_skip
      by exact (sc_greedy_no_plus _ _ _ _ (marker_dot n rest Hne Hn Hbw) Hb).
    rewrite scan_all_skip
      by exact (sc_greedy_no_plus _ _ _ _ (marker_bare n rest Hne Hn Hbw) Hb).
    rewrite (scan_all_inert _ n rest H2). reflexivity.
Qed.

(** Step 3 rewrites the named parameters and the extensions. *)
Lemma step3_token (t : token) (rest : jsstring) :
  token_ok t -> breaks rest ->
  scan_all sc_named (text2 t ++ rest) = text3 t ++ scan_all sc_named rest.
Proof.
  intros Hok Hb. pose proof (breaks_word rest Hb) as Hbw.
  destruct t as [w|n|n| |n]; cbn [token_ok] in Hok; token_text.
  - destruct Hok as [Hne Hw]. destruct w as [|c w]; [congruence|].
    destruct (inert_run _ Hw) as (_ & _ & H3 & _).
    inversion Hw as [|? ? Hc _]; subst.
    rewrite scan_all_skip by apply (slash_then_plain c _ Hc).
    rewrite (scan_all_inert _ (c :: w) rest H3). reflexivity.
  - destruct Hok as [Hne Hn].
    rewrite (scan_all_hit sc_named _ (str "(/(?<" ++ n ++ str ">[^//]+?))") rest
               sc_named_progresses).
    + token_text. reflexivity.
    + unfold sc_named. rewrite (marker_slash n rest Hne Hn Hbw). token_text. reflexivity.
  - destruct Hok as [_ Hn]. destruct (inert_run _ (inert_name _ Hn)) as (_ & _ & H3 & _).
    rewrite !scan_all_skip by reflexivity.
    rewrite (scan_all_inert _ n _ H3).
    rewrite !scan_all_skip by reflexivity. reflexivity.
  - rewrite !scan_all_skip by reflexivity. reflexivity.
  - destruct Hok as [Hne Hn].
    rewrite (scan_all_hit sc_named _ (str "(.(?<" ++ n ++ str ">[^./]+?))") rest
               sc_named_progresses).
    + token_text. reflexivity.
    + unfold sc_named. rewrite (marker_dot n rest Hne Hn Hbw). token_text. reflexivity.
Qed.

(** Step 4 escapes the dot of an extension, in front of its group and in
    its class. *)
Lemma step4_token (t : token) (rest : jsstring) :
  token_ok t ->
  scan_all sc_dot (text3 t ++ rest) = text4 t ++ scan_all sc_dot rest.
Proof.
  intros Hok.
  destruct t as [w|n|n| |n]; cbn [token_ok] in Hok; token_text.
  - destruct Hok as [Hne Hw]. destruct (inert_run _ Hw) as (_ & _ & _ & H4 & _).
    rewrite scan_all_skip by reflexivity.
    rewrite (scan_all_inert _ w rest H4). reflexivity.
  - destruct Hok as [_ Hn].
    destruct (inert_run _ (inert_name _ Hn)) as (_ & _ & _ & H4 & _).
    rewrite !scan_all_skip by reflexivity.
    rewrite (scan_all_inert _ n _ H4).
    rewrite !scan_all_skip by reflexivity. reflexivity.
  - destruct Hok as [_ Hn].
    destruct (inert_run _ (inert_name _ Hn)) as (_ & _ & _ & H4 & _).
    rewrite !scan_all_skip by reflexivity.
    rewrite (scan_all_inert _ n _ H4).
    rewrite !scan_all_skip by reflexivity. reflexivity.
  - rewrite !scan_all_skip by reflexivity. reflexivity.
  - destruct Hok as [_ Hn].
    destruct (inert_run _ (inert_name _ Hn)) as (_ & _ & _ & H4 & _).
    rewrite scan_all_skip by reflexivity.
    rewrite (scan_all_hit sc_dot _ (str "\.") _ sc_dot_progresses) by reflexivity.
    rewrite !scan_all_skip by reflexivity.
    rewrite (scan_all_inert _ n _ H4).
    rewrite !scan_all_skip by reflexivity.
    rewrite (scan_all_hit sc_dot _ (str "\.") _ sc_dot_progresses) by reflexivity.
    rewrite !scan_all_skip by reflexivity. reflexivity.
Qed.

(** Step 5 rewrites the wildcards and the star that step 2 left in the
    greedy parameters. *)
Lemma step5_token (t : token) (rest : jsstring) :
  token_ok t ->
  scan_all sc_wildcard (text4 t ++ rest) = text5 t ++ scan_all sc_wildcard rest.
Proof.
  intros Hok.
  destruct t as [w|n|n| |n]; cbn [token_ok] in Hok; token_text.
  - destruct Hok as [Hne Hw]. destruct w as [|c w]; [congruence|].
    destruct (inert_run _ Hw) as (_ & _ & _ & _ & H5).
    inversion Hw as [|? ? Hc _]; subst.
    rewrite scan_all_skip by apply (slash_then_plain c _ Hc).
    rewrite (scan_all_inert _ (c :: w) rest H5). reflexivity.
  - destruct Hok as [_ Hn].
    destruct (inert_run _ (inert_name _ Hn)) as (_ & _ & _ & _ & H5).
    rewrite !scan_all_skip by reflexivity.
    rewrite (scan_all_inert _ n _ H5).
    rewrite !scan_all_skip by reflexivity. reflexivity.
  - destruct Hok as [_ Hn].
    destruct (inert_run _ (inert_name _ Hn)) as (_ & _ & _ & _ & H5).
    rewrite !scan_all_skip by reflexivity.
    rewrite (scan_all_inert _ n _ H5).
    rewrite scan_all_skip by reflexivity.
    rewrite (scan_all_hit sc_wildcard _ (str "(.*)?") _ sc_wildcard_progresses)
      by reflexivity.
    rewrite !scan_all_skip by reflexivity. reflexivity.
  - rewrite (scan_all_hit sc_wildcard _ (str "(/.*)?") _ sc_wildcard_progresses)
      by reflexivity.
    reflexivity.
  - destruct Hok as [_ Hn].
    destruct (inert_run _ (inert_name _ Hn)) as (_ & _ & _ & _ & H5).
    rewrite !scan_all_skip by reflexivity.
    rewrite (scan_all_inert _ n _ H5).
    rewrite !scan_all_skip by reflexivity. reflexivity.
Qed.

Lemma breaks_render (ts : list token) : breaks (flat_map render_token ts).
Proof. destruct ts as [|[w|n|n| |n] ts]; cbn; auto. Qed.

Lemma breaks_text2 (ts : list token) : breaks (flat_map text2 ts).
Proof. destruct ts as [|[w|n|n| |n] ts]; cbn; auto. Qed.

Lemma steps_tokens (sc : scanner) (before after : token -> jsstring) (ts : list token) :
  sc [] = None ->
  (forall t rest, token_ok t -> (exists ts', rest = flat_map before ts') ->
                  scan_all sc (before t ++ rest) = after t ++ scan_all sc rest) ->
  Forall token_ok ts ->
  scan_all sc (flat_map before ts) = flat_map after ts.
Proof.
  intros Hnil Hstep Hts. induction Hts as [|t ts Ht Hts IH]; cbn [flat_map].
  - apply scan_all_nil. exact Hnil.
  - rewrite Hstep; [|exact Ht|eauto]. rewrite IH. reflexivity.
Qed.

(** The five steps on a pattern of the grammar: every token is rewritten
    on its own. *)
Lemma rewrite_render (ts : list token) :
  Forall token_ok ts -> rewrite (render ts) = flat_map text5 ts.
Proof.
  intro Hts. rewrite rewrite_is_rewrite_steps. unfold rewrite_steps, render.
  rewrite (steps_tokens sc_slashes render_token render_token ts eq_refl);
    [|intros t rest Ht _; apply step1_token; exact Ht|exact Hts].
  rewrite (steps_tokens sc_greedy render_token text2 ts eq_refl);
    [|intros t rest Ht [ts' ->]; apply step2_token; [exact Ht|apply breaks_render]
     |exact Hts].
  rewrite (steps_tokens sc_named text2 text3 ts eq_refl);
    [|intros t rest Ht [ts' ->]; apply step3_token; [exact Ht|apply breaks_text2]
     |exact Hts].
  rewrite (steps_tokens sc_dot text3 text4 ts eq_refl);
    [|intros t rest Ht _; apply step4_token; exact Ht|exact Hts].
  apply (steps_tokens sc_wildcard text4 text5 ts eq_refl);
    [intros t rest Ht _; apply step5_token; exact Ht|exact Hts].
Qed.

(** ** [RegExp] on the text of a pattern of the grammar *)

Lemma parse_quant_none (r : regex) (s : jsstring) :
  no_quant s -> parse_quant r s = POk (r, s).
Proof.
  unfold parse_quant. destruct s as [|c s]; [reflexivity|].
  intros (H1 & H2 & H3 & H4). rewrite H1, H2, H3, H4. reflexivity.
Qed.

Lemma literal_not (c : codeunit) (a : ascii) :
  literal_char c = true -> In (cu a) (str ")|^$*+?(.\[{") -> is_ch a c = false.
Proof.
  unfold literal_char, is_ch. intros H Hin. apply negb_true_iff in H.
  apply N.eqb_neq. intros ->.
  assert (existsb (N.eqb (cu a)) (str ")|^$*+?(.\[{") = true).
  { apply existsb_exists. exists (cu a). split; [exact Hin|apply N.eqb_refl]. }
  congruence.
Qed.

Lemma parse_disj_char (fuel : nat) (alts cur : list regex) (c : codeunit) (s : jsstring)
  (n : nat) :
  literal_char c = true -> no_quant s ->
  parse_disj (S fuel) alts cur (c :: s) n = parse_disj fuel alts (RChar c :: cur) s n.
Proof.
  intros Hc Hs. cbn [parse_disj].
  rewrite (literal_not c ")" Hc ltac:(vm_compute; tauto)).
  rewrite (literal_not c "|" Hc ltac:(vm_compute; tauto)).
  rewrite (literal_not c "^" Hc ltac:(vm_compute; tauto)).
  rewrite (literal_not c "$" Hc ltac:(vm_compute; tauto)).
  rewrite (literal_not c "*" Hc ltac:(vm_compute; tauto)).
  rewrite (literal_not c "+" Hc ltac:(vm_compute; tauto)).
  rewrite (literal_not c "?" Hc ltac:(vm_compute; tauto)).
  rewrite (literal_not c "(" Hc ltac:(vm_compute; tauto)).
  cbn [orb]. unfold parse_atom.
  rewrite (literal_not c "." Hc ltac:(vm_compute; tauto)).
  rewrite (literal_not c "\" Hc ltac:(vm_compute; tauto)).
  rewrite (literal_not c "[" Hc ltac:(vm_compute; tauto)).
  rewrite (literal_not c "{" Hc ltac:(vm_compute; tauto)).
  rewrite (parse_quant_none _ _ Hs). reflexivity.
Qed.

(** The case of a left parenthesis. *)
Lemma parse_disj_open (fuel : nat) (alts cur : list regex) (s' : jsstring) (n : nat) :
  parse_disj (S fuel) alts cur (cu "(" :: s') n
  = match parse_group_open s' with
    | POk (kind, s1) =>
        let n1 := match kind with GCapture _ => S n | GNonCapture => n end in
        match parse_disj fuel [] [] s1 n1 with
        | POk (body, s2, n2) =>
            match s2 with
            | _ :: s3 =>
                let atom := match kind with
                            | GCapture name => RGroup n1 name body
                            | GNonCapture => body
                            end in
                match parse_quant atom s3 with
                | POk (t, s4) => parse_disj fuel alts (t :: cur) s4 n2
                | PSyntaxError => PSyntaxError
                | PUnsupported => PUnsupported
                end
            | [] => PSyntaxError
            end
        | PSyntaxError => PSyntaxError
        | PUnsupported => PUnsupported
        end
    | PSyntaxError => PSyntaxError
    | PUnsupported => PUnsupported
    end.
Proof. reflexivity. Qed.

Lemma word_ident (c : codeunit) :
  is_word c = true ->
  is_ident_part c = true /\ (is_digit c = false -> is_ident_start c = true)
  /\ is_ch ">" c = false /\ is_ch "=" c = false /\ is_ch "!" c = false.
Proof.
  intro Hc. split; [|split].
  - unfold is_ident_part, is_ident_start, is_ch. unfold is_word in Hc.
    change (cu "_") with 95%N.
    destruct (is_upper c), (is_lower c), (is_digit c), (c =? 95)%N, (c =? cu "$")%N;
      cbn in *; congruence.
  - intro Hd. unfold is_ident_start, is_ch. unfold is_word in Hc. rewrite Hd in Hc.
    change (cu "_") with 95%N.
    destruct (is_upper c), (is_lower c), (c =? 95)%N, (c =? cu "$")%N;
      cbn in *; congruence.
  - unfold is_ch. repeat split; apply N.eqb_neq; intros ->; discriminate Hc.
Qed.

Lemma parse_name_rest_app (n acc s : jsstring) :
  Forall (fun c => is_word c = true) n ->
  parse_name_rest acc (n ++ cu ">" :: s) = POk (rev acc ++ n, s).
Proof.
  intro Hn. revert acc. induction Hn as [|c n Hc Hn IH]; intro acc; cbn [app parse_name_rest].
  - change (is_ch ">" (cu ">")) with true. cbv iota. rewrite app_nil_r. reflexivity.
  - destruct (word_ident c Hc) as (Hp & _ & Hgt & _). rewrite Hgt, Hp, IH.
    cbn [rev]. rewrite <- app_assoc. reflexivity.
Qed.

Lemma parse_group_open_named (n s : jsstring) :
  name_ok n ->
  parse_group_open (cu "?" :: cu "<" :: n ++ cu ">" :: s) = POk (GCapture (Some n), s).
Proof.
  intros [Hd Hn]. destruct n as [|c n]; [destruct Hd|].
  inversion Hn as [|? ? Hc Hn']; subst.
  destruct (word_ident c Hc) as (_ & Hs & _ & Heq & Hbang).
  unfold parse_group_open. change (is_ch "?" (cu "?")) with true. cbv iota.
  change (is_ch ":" (cu "<")) with false. change (is_ch "=" (cu "<")) with false.
  change (is_ch "!" (cu "<")) with false. change (is_ch "<" (cu "<")) with true.
  cbn [orb app]. cbv iota. rewrite Heq, Hbang. cbn [orb]. cbv iota. unfold parse_name.
  rewrite (Hs Hd), (parse_name_rest_app n [c] s Hn'). reflexivity.
Qed.

(** The bodies of the groups of the tokens. *)
Lemma parse_named_body (fuel : nat) (rest : jsstring) (g : nat) :
  parse_disj (S (S fuel)) [] []
    (cu "[" :: cu "^" :: cu "/" :: cu "/" :: cu "]" :: cu "+" :: cu "?"
     :: cu ")" :: cu ")" :: rest) g
  = POk (named_body [CChar (cu "/"); CChar (cu "/")], cu ")" :: cu ")" :: rest, g).
Proof. reflexivity. Qed.

Lemma parse_ext_body (fuel : nat) (rest : jsstring) (g : nat) :
  parse_disj (S (S fuel)) [] []
    (cu "[" :: cu "^" :: cu "\" :: cu "." :: cu "/" :: cu "]" :: cu "+" :: cu "?"
     :: cu ")" :: cu ")" :: rest) g
  = POk (named_body [CChar (cu "."); CChar (cu "/")], cu ")" :: cu ")" :: rest, g).
Proof. reflexivity. Qed.

Lemma parse_greedy_body (fuel : nat) (rest : jsstring) (g : nat) :
  parse_disj (S (S (S fuel))) [] []
    (cu "(" :: cu "." :: cu "*" :: cu ")" :: cu "?" :: cu ")" :: cu ")" :: rest) g
  = POk (greedy_body (S g), cu ")" :: cu ")" :: rest, S g).
Proof. reflexivity. Qed.

Lemma parse_wild_body (fuel : nat) (rest : jsstring) (g : nat) :
  parse_disj (S (S (S fuel))) [] []
    (cu "/" :: cu "." :: cu "*" :: cu ")" :: cu "?" :: rest) g
  = POk (RSeq (RChar (cu "/")) any_run, cu ")" :: cu "?" :: rest, g).
Proof. reflexivity. Qed.

Lemma parse_disj_close (fuel : nat) (alts cur : list regex) (s : jsstring) (n : nat) :
  parse_disj (S fuel) alts cur (cu ")" :: s) n = POk (close_disj alts cur, cu ")" :: s, n).
Proof. reflexivity. Qed.

Lemma parse_group_open_plain (c : codeunit) (s : jsstring) :
  is_ch "?" c = false -> parse_group_open (c :: s) = POk (GCapture None, c :: s).
Proof. intro H. unfold parse_group_open. rewrite H. reflexivity. Qed.

Lemma no_quant_close (s : jsstring) : no_quant (cu ")" :: s).
Proof. cbn. auto. Qed.

Lemma no_quant_open (s : jsstring) : no_quant (cu "(" :: s).
Proof. cbn. auto. Qed.

Lemma parse_disj_escaped_dot (fuel : nat) (alts cur : list regex) (s : jsstring)
  (n : nat) :
  no_quant s ->
  parse_disj (S fuel) alts cur (cu "\" :: cu "." :: s) n
  = parse_disj fuel alts (RChar (cu ".") :: cur) s n.
Proof.
  intro Hs.
  change (parse_disj (S fuel) alts cur (cu "\" :: cu "." :: s) n)
    with (match parse_quant (RChar (cu ".")) s with
          | POk (t, s2) => parse_disj fuel alts (t :: cur) s2 n
          | PSyntaxError => PSyntaxError
          | PUnsupported => PUnsupported
          end).
  rewrite (parse_quant_none _ _ Hs). reflexivity.
Qed.

(** A group that holds a slash or a dot ([hd], read as the term [h]) and a
    named group. *)
Lemma parse_holder (fuel : nat) (alts cur : list regex) (c : codeunit) (hd : jsstring)
  (h : regex) (n : jsstring) (inside rest : jsstring) (body : regex) (g g' : nat) :
  is_ch "?" c = false ->
  (forall f a k s m, no_quant s ->
     parse_disj (S f) a k (c :: hd ++ s) m = parse_disj f a (h :: k) s m) ->
  name_ok n -> no_quant rest ->
  (forall f, parse_disj (S (S (S f))) [] [] (inside ++ cu ")" :: cu ")" :: rest) (S (S g))
             = POk (body, cu ")" :: cu ")" :: rest, g')) ->
  parse_disj (S (S (S (S (S (S fuel)))))) alts cur
    (cu "(" :: c :: hd ++ cu "(" :: cu "?" :: cu "<" :: n ++ cu ">" :: inside
     ++ cu ")" :: cu ")" :: rest) g
  = parse_disj (S (S (S (S (S fuel))))) alts
      (RGroup (S g) None (mk_seq [h; RGroup (S (S g)) (Some n) body]) :: cur)
      rest g'.
Proof.
  intros Hq Hh Hn Hr Hbody.
  rewrite parse_disj_open, (parse_group_open_plain c _ Hq). cbv beta iota zeta.
  rewrite (Hh _ _ _ _ _ (no_quant_open _)).
  rewrite parse_disj_open, (parse_group_open_named n _ Hn). cbv beta iota zeta.
  rewrite Hbody. cbv beta iota zeta.
  rewrite (parse_quant_none _ _ (no_quant_close rest)).
  rewrite parse_disj_close. cbv beta iota zeta.
  rewrite (parse_quant_none _ _ Hr). reflexivity.
Qed.

(** [RegExp] on the text of one token. *)
Lemma parse_token (t : token) (fuel : nat) (alts cur : list regex) (rest : jsstring)
  (g : nat) :
  token_ok t -> Forall name_ok (token_names t) -> no_quant rest ->
  List.length (text5 t ++ rest) < fuel ->
  exists fuel',
    List.length rest < fuel'
    /\ parse_disj fuel alts cur (text5 t ++ rest) g
       = parse_disj fuel' alts (rev (fst (token_terms g t)) ++ cur) rest
                    (snd (token_terms g t)).
Proof.
  intros Hok Hnames Hr Hf. rewrite length_app in Hf.
  destruct t as [w|n|n| |n]; cbn [token_ok token_names token_terms fst snd] in *;
    cbn [text5 text4 text3 text2 render_token str list_ascii_of_string List.map app
         List.length] in Hf;
    rewrite ?length_app in Hf; cbn [List.length] in Hf.
  - (* a literal segment *)
    destruct Hok as [_ Hw]. token_text.
    destruct fuel as [|fuel]; [lia|].
    assert (Hq : no_quant (w ++ rest)).
    { destruct w as [|c w]; [exact Hr|]. inversion Hw as [|? ? Hc _]; subst. cbn.
      repeat split; apply (plain_not c _ Hc); vm_compute; tauto. }
    rewrite (parse_disj_char _ _ _ (cu "/") _ _ eq_refl Hq).
    assert (Hf' : List.length w + List.length rest < fuel) by lia. clear Hf Hq.
    change (RChar (cu "/") :: List.map RChar w) with ([RChar (cu "/")] ++ List.map RChar w).
    rewrite rev_app_distr. cbn [rev app]. rewrite <- app_assoc. cbn [app].
    generalize (RChar (cu "/") :: cur) as k. revert fuel Hf'.
    induction Hw as [|c w Hc Hw IH]; intros fuel Hf' k.
    + exists fuel. cbn in *. split; [lia|reflexivity].
    + cbn [List.length] in Hf'. destruct fuel as [|fuel]; [lia|]. cbn [app].
      assert (Hq : no_quant (w ++ rest)).
      { destruct w as [|d w]; [exact Hr|]. inversion Hw as [|? ? Hd _]; subst. cbn.
        repeat split; apply (plain_not d _ Hd); vm_compute; tauto. }
      assert (Hl : literal_char c = true).
      { unfold literal_char. apply negb_true_iff. apply not_true_is_false. intro E.
        apply existsb_exists in E. destruct E as (x & Hx & Hcx).
        apply N.eqb_eq in Hcx. subst x. vm_compute in Hx.
        repeat (destruct Hx as [Hx|Hx]; [subst c; vm_compute in Hc; discriminate Hc|]).
        exact Hx. }
      rewrite (parse_disj_char _ _ _ c _ _ Hl Hq).
      destruct (IH fuel ltac:(lia) (RChar c :: k)) as (fuel' & Hlt & ->).
      exists fuel'. split; [exact Hlt|]. cbn [List.map rev]. rewrite <- app_assoc.
      reflexivity.
  - (* a named parameter *)
    inversion Hnames as [|? ? Hn _]; subst. token_text.
    do 6 (destruct fuel as [|fuel]; [lia|]).
    exists (S (S (S (S (S fuel))))). split; [lia|].
    apply (parse_holder fuel alts cur (cu "/") [] (RChar (cu "/")) n
             (str "[^//]+?") rest _ g (S (S g))); auto;
      try (intro f; apply parse_named_body).
    intros f a k s m Hs. apply parse_disj_char; [reflexivity|exact Hs].
  - (* a greedy parameter *)
    inversion Hnames as [|? ? Hn _]; subst. token_text.
    do 6 (destruct fuel as [|fuel]; [lia|]).
    exists (S (S (S (S (S fuel))))). split; [lia|].
    apply (parse_holder fuel alts cur (cu "/") [] (RChar (cu "/")) n
             (str "(.*)?") rest _ g (S (S (S g)))); auto;
      try (intro f; apply parse_greedy_body).
    intros f a k s m Hs. apply parse_disj_char; [reflexivity|exact Hs].
  - (* a wildcard *)
    token_text. do 4 (destruct fuel as [|fuel]; [lia|]).
    exists (S (S (S fuel))). split; [lia|].
    rewrite parse_disj_open, (parse_group_open_plain (cu "/") _ eq_refl).
    cbv beta iota zeta. rewrite parse_wild_body. cbv beta iota zeta.
    unfold parse_quant. change (is_ch "*" (cu "?")) with false.
    change (is_ch "+" (cu "?")) with false. change (is_ch "?" (cu "?")) with true.
    cbv iota. unfold parse_lazy. destruct rest as [|c rest]; [reflexivity|].
    destruct Hr as (_ & _ & -> & _). reflexivity.
  - (* an extension *)
    inversion Hnames as [|? ? Hn _]; subst. token_text.
    do 6 (destruct fuel as [|fuel]; [lia|]).
    exists (S (S (S (S (S fuel))))). split; [lia|].
    apply (parse_holder fuel alts cur (cu "\") [cu "."] (RChar (cu ".")) n
             (str "[^\./]+?") rest _ g (S (S g))); auto;
      try (intro f; apply parse_ext_body).
    intros f a k s m Hs. apply parse_disj_escaped_dot. exact Hs.
Qed.

Lemma text5_no_quant (t : token) (s : jsstring) : no_quant (text5 t ++ s).
Proof. destruct t; cbn; repeat split; reflexivity. Qed.

Lemma tokens_no_quant (ts : list token) (rest : jsstring) :
  no_quant rest -> no_quant (flat_map text5 ts ++ rest).
Proof.
  destruct ts as [|t ts]; cbn [flat_map app]; [auto|]. intros _.
  rewrite <- app_assoc. apply text5_no_quant.
Qed.

(** [RegExp] on the text of a sequence of tokens. *)
Lemma parse_tokens (ts : list token) :
  forall (fuel : nat) (alts cur : list regex) (rest : jsstring) (g : nat),
    Forall token_ok ts -> Forall name_ok (flat_map token_names ts) -> no_quant rest ->
    List.length (flat_map text5 ts ++ rest) < fuel ->
    exists fuel',
      List.length rest < fuel'
      /\ parse_disj fuel alts cur (flat_map text5 ts ++ rest) g
         = parse_disj fuel' alts (rev (fst (tokens_terms g ts)) ++ cur) rest
                      (snd (tokens_terms g ts)).
Proof.
  induction ts as [|t ts IH]; intros fuel alts cur rest g Hok Hn Hr Hf.
  - exists fuel. split; [exact Hf|reflexivity].
  - inversion Hok as [|? ? Ht Hts]; subst. cbn [flat_map] in *.
    apply Forall_app in Hn. destruct Hn as [Hn1 Hn2].
    rewrite <- app_assoc in *.
    destruct (parse_token t fuel alts cur (flat_map text5 ts ++ rest) g Ht Hn1
                (tokens_no_quant _ _ Hr) Hf) as (f1 & Hf1 & ->).
    destruct (IH f1 alts (rev (fst (token_terms g t)) ++ cur) rest
                (snd (token_terms g t)) Hts Hn2 Hr Hf1) as (f2 & Hf2 & ->).
    exists f2. split; [exact Hf2|].
    cbn [tokens_terms]. destruct (token_terms g t) as [a g1]. cbn [fst snd].
    destruct (tokens_terms g1 ts) as [b g2]. cbn [fst snd].
    rewrite rev_app_distr, <- app_assoc. reflexivity.
Qed.

(** [RegExp] on the end of the text [compile] builds. *)
Lemma parse_tail (trail : bool) (fuel : nat) (cur : list regex) (g : nat) :
  List.length ((if trail then str "(?:\/)?" else []) ++ str "$") < fuel ->
  parse_disj fuel [] cur ((if trail then str "(?:\/)?" else []) ++ str "$") g
  = POk (mk_seq (rev cur ++ (if trail then [trailing_slash] else []) ++ [REol]), [], g).
Proof.
  intro Hf. destruct trail.
  - do 4 (destruct fuel as [|fuel]; [cbn in Hf; lia|]).
    cbn. unfold close_disj. cbn. rewrite <- app_assoc. reflexivity.
  - do 2 (destruct fuel as [|fuel]; [cbn in Hf; lia|]).
    cbn. unfold close_disj. cbn. reflexivity.
Qed.

(** ** The groups of the matcher of a pattern of the grammar *)

Lemma groups_mk_seq (l : list regex) : groups (mk_seq l) = flat_map groups l.
Proof.
  unfold mk_seq. induction l as [|r l IH]; cbn [fold_right groups flat_map]; [reflexivity|].
  rewrite IH. reflexivity.
Qed.

Lemma bodies_mk_seq (l : list regex) : bodies (mk_seq l) = flat_map bodies l.
Proof.
  unfold mk_seq. induction l as [|r l IH]; cbn [fold_right bodies flat_map]; [reflexivity|].
  rewrite IH. reflexivity.
Qed.

Lemma named_app (a b : list (nat * option jsstring)) : named (a ++ b) = named a ++ named b.
Proof.
  induction a as [|[i [n|]] a IH]; cbn [app named]; [reflexivity| |exact IH].
  rewrite IH. reflexivity.
Qed.

Lemma groups_chars (w : jsstring) : flat_map groups (List.map RChar w) = [].
Proof. induction w as [|c w IH]; [reflexivity|exact IH]. Qed.

Lemma bodies_chars (w : jsstring) : flat_map bodies (List.map RChar w) = [].
Proof. induction w as [|c w IH]; [reflexivity|exact IH]. Qed.

Lemma token_group_names (g : nat) (t : token) :
  List.map snd (named (flat_map groups (fst (token_terms g t)))) = token_names t.
Proof.
  destruct t as [w|n|n| |n]; cbn [token_terms fst token_names]; try reflexivity.
  cbn [flat_map groups app]. rewrite groups_chars. reflexivity.
Qed.

Lemma tokens_group_names (ts : list token) :
  forall g, List.map snd (named (flat_map groups (fst (tokens_terms g ts))))
            = flat_map token_names ts.
Proof.
  induction ts as [|t ts IH]; intro g; [reflexivity|].
  cbn [tokens_terms flat_map]. rewrite <- (token_group_names g t).
  destruct (token_terms g t) as [a g1]. rewrite <- (IH g1).
  destruct (tokens_terms g1 ts) as [b g2]. cbn [fst].
  rewrite flat_map_app, named_app, map_app. reflexivity.
Qed.

Lemma grammar_names (trail : bool) (ts : list token) :
  List.map snd (named (groups (grammar_ast trail ts))) = flat_map token_names ts.
Proof.
  unfold grammar_ast. rewrite groups_mk_seq, !flat_map_app, !named_app, !map_app.
  rewrite tokens_group_names. destruct trail; cbn; rewrite app_nil_r; reflexivity.
Qed.

Lemma has_dup_NoDup (l : list jsstring) : NoDup l -> has_dup l = false.
Proof.
  induction 1 as [|a l Ha Hl IH]; cbn [has_dup]; [reflexivity|].
  rewrite IH, orb_false_r. apply not_true_is_false. intro E.
  apply existsb_exists in E. destruct E as (x & Hx & Hax).
  apply jseqb_eq in Hax. subst x. exact (Ha Hx).
Qed.

Lemma parse_disj_bol (fuel : nat) (alts cur : list regex) (s : jsstring) (g : nat) :
  parse_disj (S fuel) alts cur (cu "^" :: s) g = parse_disj fuel alts (RBol :: cur) s g.
Proof. reflexivity. Qed.

(** The matcher of a pattern of the grammar: [compile] returns one, and its
    syntax tree is the one the grammar gives. *)
Lemma compile_grammar (ts : list token) (o : options) :
  Forall token_ok ts -> Forall name_ok (flat_map token_names ts) ->
  NoDup (flat_map token_names ts) ->
  exists re,
    compile (render ts) o = POk re
    /\ re_ast re = grammar_ast (default true (trailing o)) ts
    /\ re_ignoreCase re = negb (default false (sensitive o))
    /\ re_ngroups re = snd (tokens_terms 0 ts).
Proof.
  intros Hok Hn Hnd. unfold compile. rewrite (rewrite_render ts Hok).
  set (trail := default true (trailing o)). set (sens := default false (sensitive o)).
  set (P := flat_map text5 ts).
  assert (Hsrc : str "^" ++ (if trail then P ++ str "(?:\/)?" else P) ++ str "$"
                 = cu "^" :: P ++ (if trail then str "(?:\/)?" else []) ++ str "$").
  { destruct trail; cbn [str list_ascii_of_string List.map app];
      rewrite <- ?app_assoc; reflexivity. }
  rewrite Hsrc. unfold RegExp.
  replace (parse_flags (if sens then str "" else str "i")) with (POk (negb sens, false))
    by (destruct sens; reflexivity).
  cbn [List.length]. rewrite parse_disj_bol. subst P.
  destruct (parse_tokens ts (S (List.length (flat_map text5 ts ++ (if trail then str "(?:\/)?" else [])
                                             ++ str "$")))
              [] [RBol] ((if trail then str "(?:\/)?" else []) ++ str "$") 0 Hok Hn)
    as (f & Hf & ->).
  { destruct trail; cbn; repeat split; reflexivity. }
  { lia. }
  rewrite (parse_tail trail f _ _ Hf).
  rewrite rev_app_distr, rev_involutive. cbn [rev app].
  change (RBol :: fst (tokens_terms 0 ts) ++ (if trail then [trailing_slash] else [])
            ++ [REol])
    with ([RBol] ++ fst (tokens_terms 0 ts) ++ (if trail then [trailing_slash] else [])
            ++ [REol]).
  fold (grammar_ast trail ts). rewrite grammar_names, (has_dup_NoDup _ Hnd).
  eexists. split; [reflexivity|]. cbn. auto.
Qed.

(** ** The positions of the groups *)

Lemma bodies_groups_fst (r : regex) : List.map fst (bodies r) = List.map fst (groups r).
Proof. induction r; cbn [bodies groups List.map fst]; rewrite ?map_app; congruence. Qed.

Lemma terms_bodies_groups_fst (l : list regex) :
  List.map fst (flat_map bodies l) = List.map fst (flat_map groups l).
Proof. rewrite <- bodies_mk_seq, <- groups_mk_seq. apply bodies_groups_fst. Qed.

Lemma named_In (gs : list (nat * option jsstring)) (i : nat) (n : jsstring) :
  In (i, n) (named gs) -> In i (List.map fst gs).
Proof.
  induction gs as [|[k [m|]] gs IH]; cbn [named List.map fst In]; intro H; [tauto| |auto].
  destruct H as [H|H]; [injection H as -> _; auto|auto].
Qed.

Lemma token_mono (g : nat) (t : token) : g <= snd (token_terms g t).
Proof. destruct t; cbn; lia. Qed.

Lemma token_range (g : nat) (t : token) (j : nat) :
  In j (List.map fst (flat_map bodies (fst (token_terms g t)))) ->
  g < j <= snd (token_terms g t).
Proof.
  destruct t as [w|n|n| |n]; cbn [token_terms fst snd].
  - cbn [flat_map bodies app]. rewrite bodies_chars. intros [].
  - cbn. intuition lia.
  - cbn. intuition lia.
  - cbn. intuition lia.
  - cbn. intuition lia.
Qed.

Lemma tokens_mono (ts : list token) : forall g, g <= snd (tokens_terms g ts).
Proof.
  induction ts as [|t ts IH]; intro g; cbn [tokens_terms]; [cbn; lia|].
  pose proof (token_mono g t) as H1. destruct (token_terms g t) as [a g1].
  pose proof (IH g1) as H2. destruct (tokens_terms g1 ts) as [b g2]. cbn in *. lia.
Qed.

Lemma tokens_range (ts : list token) :
  forall g j, In j (List.map fst (flat_map bodies (fst (tokens_terms g ts)))) ->
              g < j <= snd (tokens_terms g ts).
Proof.
  induction ts as [|t ts IH]; intros g j; cbn [tokens_terms]; [intros []|].
  pose proof (token_range g t j) as H1. pose proof (token_mono g t) as M1.
  destruct (token_terms g t) as [a g1].
  pose proof (IH g1 j) as H2. pose proof (tokens_mono ts g1) as M2.
  destruct (tokens_terms g1 ts) as [b g2]. cbn [fst snd] in *.
  rewrite flat_map_app, map_app, in_app_iff. intros [H|H]; [apply H1 in H|apply H2 in H]; lia.
Qed.

(** The body of the group a name is bound to, within one token. *)
Lemma token_body (g : nat) (t : token) (i : nat) (n : jsstring) (b : regex) :
  In (i, n) (named (flat_map groups (fst (token_terms g t)))) ->
  In (i, b) (flat_map bodies (fst (token_terms g t))) ->
  (t = TParam n /\ b = named_body [CChar (cu "/"); CChar (cu "/")])
  \/ (t = TExt n /\ b = named_body [CChar (cu "."); CChar (cu "/")])
  \/ (t = TGreedy n /\ b = greedy_body (S i)).
Proof.
  destruct t as [w|m|m| |m]; cbn [token_terms fst].
  - cbn [flat_map groups app]. rewrite groups_chars. intros [].
  - cbn. intros [H|[]] Hb. injection H as <- <-.
    destruct Hb as [Hb|[Hb|[]]]; [exfalso; injection Hb; intros; lia|].
    injection Hb as <-. left. split; reflexivity.
  - cbn. intros [H|[]] Hb. injection H as <- <-.
    destruct Hb as [Hb|[Hb|[Hb|[]]]];
      [exfalso; injection Hb; intros; lia| |exfalso; injection Hb; intros; lia].
    injection Hb as <-. right. right. split; reflexivity.
  - cbn. intros [].
  - cbn. intros [H|[]] Hb. injection H as <- <-.
    destruct Hb as [Hb|[Hb|[]]]; [exfalso; injection Hb; intros; lia|].
    injection Hb as <-. right. left. split; reflexivity.
Qed.

Lemma tokens_body (ts : list token) :
  forall g i n b,
    In (i, n) (named (flat_map groups (fst (tokens_terms g ts)))) ->
    In (i, b) (flat_map bodies (fst (tokens_terms g ts))) ->
    (In (TParam n) ts /\ b = named_body [CChar (cu "/"); CChar (cu "/")])
    \/ (In (TExt n) ts /\ b = named_body [CChar (cu "."); CChar (cu "/")])
    \/ (In (TGreedy n) ts /\ b = greedy_body (S i)).
Proof.
  induction ts as [|t ts IH]; intros g i n b; cbn [tokens_terms]; [intros []|].
  pose proof (token_body g t i n b) as T. pose proof (token_range g t i) as R1.
  destruct (token_terms g t) as [a g1].
  pose proof (IH g1 i n b) as T2. pose proof (tokens_range ts g1 i) as R2.
  destruct (tokens_terms g1 ts) as [c g2]. cbn [fst snd] in *.
  rewrite !flat_map_app, named_app, !in_app_iff. intros Hn Hb.
  assert (Hn' : In i (List.map fst (flat_map bodies a))
                \/ In i (List.map fst (flat_map bodies c))).
  { rewrite !terms_bodies_groups_fst. destruct Hn as [Hn|Hn]; [left|right];
      exact (named_In _ _ _ Hn). }
  assert (Hb' : In i (List.map fst (flat_map bodies a))
                \/ In i (List.map fst (flat_map bodies c))).
  { destruct Hb as [Hb|Hb]; [left|right]; exact (in_map fst _ _ Hb). }
  destruct Hn as [Hn|Hn]; destruct Hb as [Hb|Hb].
  - destruct (T Hn Hb) as [[-> ->]|[[-> ->]|[-> ->]]]; cbn [In]; auto 6.
  - apply (in_map fst) in Hb. cbn [fst] in Hb. apply named_In in Hn.
    rewrite <- terms_bodies_groups_fst in Hn. apply R1 in Hn. apply R2 in Hb. lia.
  - apply (in_map fst) in Hb. cbn [fst] in Hb. apply named_In in Hn.
    rewrite <- terms_bodies_groups_fst in Hn. apply R1 in Hb. apply R2 in Hn. lia.
  - destruct (T2 Hn Hb) as [[H ->]|[[H ->]|[H ->]]]; cbn [In]; auto 6.
Qed.

Lemma grammar_groups (trail : bool) (ts : list token) :
  groups (grammar_ast trail ts) = flat_map groups (fst (tokens_terms 0 ts)).
Proof.
  unfold grammar_ast. rewrite groups_mk_seq, !flat_map_app.
  destruct trail; cbn; rewrite app_nil_r; reflexivity.
Qed.

Lemma grammar_bodies (trail : bool) (ts : list token) :
  bodies (grammar_ast trail ts) = flat_map bodies (fst (tokens_terms 0 ts)).
Proof.
  unfold grammar_ast. rewrite bodies_mk_seq, !flat_map_app.
  destruct trail; cbn; rewrite app_nil_r; reflexivity.
Qed.

(** With distinct names, a name belongs to one token. *)
Lemma names_distinct (ts : list token) (t1 t2 : token) (n : jsstring) :
  NoDup (flat_map token_names ts) -> In t1 ts -> In t2 ts ->
  In n (token_names t1) -> In n (token_names t2) -> t1 = t2.
Proof.
  assert (Hx : forall (a b : list jsstring), NoDup (a ++ b) -> In n a -> In n b -> False).
  { induction a as [|x a IHa]; cbn; intros b Hnd Ha Hb; [tauto|].
    inversion Hnd as [|? ? Hx Hnd']; subst. destruct Ha as [->|Ha].
    - apply Hx. apply in_or_app. auto.
    - exact (IHa b Hnd' Ha Hb). }
  assert (Hin : forall l t, In t l -> In n (token_names t) -> In n (flat_map token_names l)).
  { intros l t Ht Hn. apply in_flat_map. exists t. auto. }
  induction ts as [|t ts IH]; cbn [flat_map In]; intros Hnd H1 H2 N1 N2; [tauto|].
  destruct H1 as [->|H1]; destruct H2 as [->|H2].
  - reflexivity.
  - exfalso. exact (Hx _ _ Hnd N1 (Hin _ _ H2 N2)).
  - exfalso. exact (Hx _ _ Hnd N2 (Hin _ _ H1 N1)).
  - apply IH; auto. clear -Hnd. induction (token_names t) as [|x l IHl]; [exact Hnd|].
    inversion Hnd; subst. auto.
Qed.

Lemma groups_object_get (r : regex) (caps : list (option jsstring))
  (gs : object (option jsstring)) (n : jsstring) (v : option jsstring) :
  groups_object r caps = Some gs -> obj_get gs n = Some v ->
  exists i, In (i, n) (named (groups r)) /\ v = nth (Nat.pred i) caps None.
Proof.
  unfold groups_object. intros Hg Hv.
  assert (H : gs = List.map (fun g => (snd g, nth (Nat.pred (fst g)) caps None))
                            (named (groups r))).
  { destruct (named (groups r)); [discriminate|]. injection Hg as <-. reflexivity. }
  subst gs. clear Hg. induction (named (groups r)) as [|[i k] l IH]; [discriminate|].
  cbn [List.map obj_get fst snd] in Hv. destruct (jseqb k n) eqn:E.
  - apply jseqb_eq in E. subst k. injection Hv as <-. exists i. cbn. auto.
  - destruct (IH Hv) as (j & Hj & ->). exists j. cbn. auto.
Qed.

Lemma nth_some {A} (l : list (option A)) (k : nat) (s : A) :
  nth k l None = Some s -> nth_error l k = Some (Some s).
Proof.
  revert k. induction l as [|x l IH]; intros [|k]; cbn; try discriminate.
  - intros ->. reflexivity.
  - apply IH.
Qed.

(** For every pattern of the grammar [compile] returns a matcher, and in
    every match the capture of a named parameter is not empty and holds no
    slash; the one of an extension holds no dot either. *)
Lemma grammar_named_capture (ts : list token) (o : options) :
  Forall token_ok ts -> Forall name_ok (flat_map token_names ts) ->
  NoDup (flat_map token_names ts) ->
  compile (render ts) o = POk (compiled (render ts) o)
  /\ re_ast (compiled (render ts) o) = grammar_ast (default true (trailing o)) ts
  /\ forall path m gs n s,
       exec (compiled (render ts) o) path = Some m ->
       mr_groups m = Some gs -> obj_get gs n = Some (Some s) ->
       (In (TParam n) ts -> s <> [] /\ ~ In (cu "/") s)
       /\ (In (TExt n) ts -> s <> [] /\ ~ In (cu "/") s /\ ~ In (cu ".") s).
Proof.
  intros Hok Hn Hnd. destruct (compile_grammar ts o Hok Hn Hnd) as (re & Hc & Hast & _).
  assert (E : compiled (render ts) o = re) by (unfold compiled; rewrite Hc; reflexivity).
  rewrite E. split; [exact Hc|]. split; [exact Hast|].
  intros path m gs n s Hex Hgs Hget.
  rewrite (exec_groups _ _ _ Hex) in Hgs.
  destruct (groups_object_get _ _ _ _ _ Hgs Hget) as (i & Hi & Hs).
  symmetry in Hs. apply nth_some in Hs. rewrite Hast in Hi.
  assert (Hbody : forall j b, In (j, b) (bodies (re_ast re)) -> Nat.pred j = Nat.pred i ->
            (In (TParam n) ts /\ b = named_body [CChar (cu "/"); CChar (cu "/")])
            \/ (In (TExt n) ts /\ b = named_body [CChar (cu "."); CChar (cu "/")])
            \/ (In (TGreedy n) ts /\ b = greedy_body (S i))).
  { intros j b Hj Hji. rewrite Hast, grammar_bodies in Hj. rewrite grammar_groups in Hi.
    assert (j = i).
    { pose proof (tokens_range ts 0 j (in_map fst _ _ Hj)) as R1.
      pose proof (named_In _ _ _ Hi) as Hi'. rewrite <- terms_bodies_groups_fst in Hi'.
      pose proof (tokens_range ts 0 i Hi') as R2. lia. }
    subst j. exact (tokens_body ts 0 i n b Hi Hj). }
  split; intro Ht.
  - destruct (negated_class_capture re path m i [CChar (cu "/"); CChar (cu "/")] s Hex)
      as [Hne Hex'].
    + intros j b Hj Hji. destruct (Hbody j b Hj Hji) as [[_ ->]|[[H _]|[H _]]].
      * reflexivity.
      * discriminate (names_distinct ts _ _ n Hnd Ht H (or_introl eq_refl)
                                     (or_introl eq_refl)).
      * discriminate (names_distinct ts _ _ n Hnd Ht H (or_introl eq_refl)
                                     (or_introl eq_refl)).
    + exact Hs.
    + split; [exact Hne|]. apply Hex'. reflexivity.
  - destruct (negated_class_capture re path m i [CChar (cu "."); CChar (cu "/")] s Hex)
      as [Hne Hex'].
    + intros j b Hj Hji. destruct (Hbody j b Hj Hji) as [[H _]|[[_ ->]|[H _]]].
      * discriminate (names_distinct ts _ _ n Hnd Ht H (or_introl eq_refl)
                                     (or_introl eq_refl)).
      * reflexivity.
      * discriminate (names_distinct ts _ _ n Hnd Ht H (or_introl eq_refl)
                                     (or_introl eq_refl)).
    + exact Hs.
    + split; [exact Hne|]. split; apply Hex'; reflexivity.
Qed.

(** ** A wildcard after a pattern *)

Lemma lang_anchor_free (ic : bool) (r : regex) :
  anchor_free r = true ->
  forall i w rest i' rest', lang ic r i w rest -> lang ic r i' w rest'.
Proof.
  induction r as [ | | | | | |r1 IH1 r2 IH2|r1 IH1 r2 IH2|g n r IH|mn mx gr r IH];
    cbn [anchor_free lang]; intros Ha i w rest i' rest' H; try discriminate; auto.
  - apply andb_true_iff in Ha. destruct Ha as [A1 A2].
    destruct H as (w1 & w2 & -> & H1 & H2). exists w1, w2.
    split; [reflexivity|]. split; [exact (IH1 A1 _ _ _ _ _ H1)|exact (IH2 A2 _ _ _ _ _ H2)].
  - apply andb_true_iff in Ha. destruct Ha as [A1 A2].
    destruct H as [H|H]; [left; exact (IH1 A1 _ _ _ _ _ H)|right; exact (IH2 A2 _ _ _ _ _ H)].
  - exact (IH Ha _ _ _ _ _ H).
  - destruct H as (ws & -> & Hws & Hmin & Hmax). exists ws.
    split; [reflexivity|]. split; [|split; assumption].
    clear Hmin Hmax. revert i i' Hws.
    induction ws as [|u ws IHws]; intros i i' Hws; cbn [lang_iter] in *; [exact I|].
    destruct Hws as [Hu Hws]. split; [exact (IH Ha _ _ _ _ _ Hu)|exact (IHws _ _ Hws)].
Qed.

Lemma lang_mk_seq_app (ic : bool) (A B : list regex) :
  forall i w rest,
    lang ic (mk_seq (A ++ B)) i w rest
    <-> exists w1 w2, w = w1 ++ w2 /\ lang ic (mk_seq A) i w1 (w2 ++ rest)
                      /\ lang ic (mk_seq B) (i + List.length w1) w2 rest.
Proof.
  unfold mk_seq. induction A as [|a A IH]; intros i w rest; cbn [app fold_right lang].
  - split.
    + intro H. exists [], w. cbn. rewrite Nat.add_0_r. auto.
    + intros (w1 & w2 & -> & -> & H). cbn in H. rewrite Nat.add_0_r in H. exact H.
  - split.
    + intros (u & v & -> & Hu & Hv). apply IH in Hv.
      destruct Hv as (v1 & v2 & -> & H1 & H2).
      exists (u ++ v1), v2. rewrite app_assoc. split; [reflexivity|]. split.
      * exists u, v1. split; [reflexivity|]. rewrite <- app_assoc in Hu. auto.
      * rewrite length_app, Nat.add_assoc. exact H2.
    + intros (w1 & w2 & -> & (u & v1 & -> & Hu & H1) & H2).
      exists u, (v1 ++ w2). rewrite <- app_assoc. split; [reflexivity|]. split.
      * rewrite <- app_assoc. exact Hu.
      * apply IH. exists v1, w2. split; [reflexivity|]. split; [exact H1|].
        rewrite length_app, Nat.add_assoc in H2. exact H2.
Qed.

Lemma chars_anchor_free (w : jsstring) : forallb anchor_free (List.map RChar w) = true.
Proof. induction w as [|c w IH]; [reflexivity|exact IH]. Qed.

Lemma token_anchor_free (g : nat) (t : token) :
  forallb anchor_free (fst (token_terms g t)) = true.
Proof.
  destruct t as [w|n|n| |n]; try reflexivity.
  cbn [token_terms fst forallb anchor_free andb]. apply chars_anchor_free.
Qed.

Lemma tokens_anchor_free (ts : list token) :
  forall g, forallb anchor_free (fst (tokens_terms g ts)) = true.
Proof.
  induction ts as [|t ts IH]; intro g; [reflexivity|]. cbn [tokens_terms].
  pose proof (token_anchor_free g t) as H1. destruct (token_terms g t) as [a g1].
  pose proof (IH g1) as H2. destruct (tokens_terms g1 ts) as [b g2]. cbn [fst] in *.
  rewrite forallb_app, H1, H2. reflexivity.
Qed.

Lemma mk_seq_anchor_free (l : list regex) :
  forallb anchor_free l = true -> anchor_free (mk_seq l) = true.
Proof.
  unfold mk_seq. induction l as [|r l IH]; cbn [forallb fold_right anchor_free];
    [reflexivity|].
  intro H. apply andb_true_iff in H. destruct H as [-> H]. exact (IH H).
Qed.

Lemma tokens_terms_app (ts us : list token) :
  forall g, tokens_terms g (ts ++ us)
            = (fst (tokens_terms g ts) ++ fst (tokens_terms (snd (tokens_terms g ts)) us),
               snd (tokens_terms (snd (tokens_terms g ts)) us)).
Proof.
  induction ts as [|t ts IH]; intro g; cbn [app tokens_terms fst snd].
  - destruct (tokens_terms g us); reflexivity.
  - destruct (token_terms g t) as [a g1]. rewrite IH.
    destruct (tokens_terms g1 ts) as [b g2]. cbn [fst snd].
    destruct (tokens_terms g2 us) as [c g3]. cbn [fst snd]. rewrite app_assoc. reflexivity.
Qed.

Lemma groups_sat_any (ic : bool) (r : regex) : groups_sat ic (fun _ _ => True) r.
Proof. apply groups_sat_of_bodies. auto. Qed.

(** The matcher of a pattern of the grammar. *)
Lemma compiled_grammar (ts : list token) (o : options) :
  Forall token_ok ts -> Forall name_ok (flat_map token_names ts) ->
  NoDup (flat_map token_names ts) ->
  re_ast (compiled (render ts) o) = grammar_ast (default true (trailing o)) ts
  /\ re_ignoreCase (compiled (render ts) o) = negb (default false (sensitive o))
  /\ re_ngroups (compiled (render ts) o) = snd (tokens_terms 0 ts).
Proof.
  intros Hok Hn Hnd.
  destruct (compile_grammar ts o Hok Hn Hnd) as (re & Hc & Hast & Hic & Hng).
  unfold compiled. rewrite Hc. auto.
Qed.

(** What the end of the matcher consumes: nothing, or the one slash the
    option [trailing] allows; and it is at the end of the path. *)
Lemma lang_tail (ic trail : bool) (i : nat) (v post : jsstring) :
  lang ic (mk_seq ((if trail then [trailing_slash] else []) ++ [REol])) i v post ->
  post = [] /\ (v = [] \/ exists a, v = [a] /\ canon ic a = canon ic (cu "/")).
Proof.
  destruct trail; cbn [app mk_seq fold_right lang].
  - intros (w1 & w2 & -> & (ws & -> & Hws & _ & Hmax) & (u1 & u2 & -> & (-> & Hp) & ->)).
    cbn [app] in Hp. subst post.
    split; [reflexivity|]. rewrite !app_nil_r.
    destruct ws as [|w [|w' ws]]; [left; reflexivity| |cbn in Hmax; lia].
    right. cbn [lang_iter lang] in Hws.
    destruct Hws as [(x1 & x2 & -> & (a & -> & Ha) & ->) _].
    exists a. cbn. auto.
  - intros (u1 & u2 & -> & (-> & Hp) & ->). cbn [app] in Hp. subst post. auto.
Qed.

Lemma lang_tail_end (ic trail : bool) (i : nat) :
  lang ic (mk_seq ((if trail then [trailing_slash] else []) ++ [REol])) i [] [].
Proof.
  destruct trail; cbn [app mk_seq fold_right].
  - apply lang_seq_skip, lang_end.
  - apply lang_end.
Qed.

(** A wildcard after a pattern of the grammar: the matcher accepts what the
    matcher of the pattern accepts, and that followed by a slash and
    anything. *)
Lemma wildcard_after (ts : list token) (o : options) (path rest : jsstring) :
  Forall token_ok ts -> Forall name_ok (flat_map token_names ts) ->
  NoDup (flat_map token_names ts) ->
  accepts (compiled (render ts) o) path = true ->
  no_line_terminator rest ->
  accepts (compiled (render (ts ++ [TWild])) o) path = true
  /\ accepts (compiled (render (ts ++ [TWild])) o) (path ++ cu "/" :: rest) = true.
Proof.
  intros Hok Hn Hnd Hacc Hrest.
  assert (Hnames : flat_map token_names (ts ++ [TWild]) = flat_map token_names ts)
    by (rewrite flat_map_app; cbn; rewrite app_nil_r; reflexivity).
  assert (Hok' : Forall token_ok (ts ++ [TWild]))
    by (apply Forall_app; split; [exact Hok|repeat constructor]).
  destruct (compiled_grammar ts o Hok Hn Hnd) as (Hast & Hic & _).
  destruct (compiled_grammar (ts ++ [TWild]) o Hok') as (Hast' & Hic' & _);
    [rewrite Hnames; exact Hn|rewrite Hnames; exact Hnd|].
  unfold accepts in Hacc.
  destruct (exec (compiled (render ts) o) path) as [m|] eqn:Hex; [clear Hacc|discriminate].
  destruct (exec_sound (fun _ _ => True) _ _ _ (groups_sat_any _ _) Hex)
    as (_ & _ & pre & post & Hpath & _ & HL).
  rewrite Hast, Hic in HL. unfold grammar_ast in HL.
  set (ic := negb (default false (sensitive o))) in *.
  set (trail := default true (trailing o)) in *.
  set (T := fst (tokens_terms 0 ts)) in *.
  apply lang_mk_seq_app in HL. destruct HL as (w1 & w2 & Et & H1 & H2).
  cbn [mk_seq fold_right lang] in H1.
  destruct H1 as (x1 & x2 & -> & (-> & Hpre) & ->).
  apply length_zero_iff_nil in Hpre. subst pre. cbn [app List.length] in *.
  apply lang_mk_seq_app in H2. destruct H2 as (u & v & -> & HT & Htail).
  destruct (lang_tail _ _ _ _ _ Htail) as [-> Hv]. rewrite Et, app_nil_r in Hpath.
  subst path. clear Et Hex m.
  assert (HTfree : anchor_free (mk_seq T) = true)
    by (apply mk_seq_anchor_free, tokens_anchor_free).
  assert (Hbuild : forall x,
            lang ic (RSeq (wildcard_region (S (snd (tokens_terms 0 ts))) true)
                          (mk_seq ((if trail then [trailing_slash] else []) ++ [REol])))
                 (List.length u) x [] ->
            accepts (compiled (render (ts ++ [TWild])) o) (u ++ x) = true).
  { intros x Hx. apply accepts_complete. rewrite Hast', Hic'. unfold grammar_ast.
    fold ic trail. rewrite tokens_terms_app. cbn [fst snd tokens_terms token_terms].
    fold T. rewrite app_nil_r, <- app_assoc.
    apply lang_mk_seq_app. exists [], (u ++ x). split; [reflexivity|]. split.
    - cbn. exists [], []. auto.
    - cbn [List.length Nat.add]. apply lang_mk_seq_app. exists u, x.
      split; [reflexivity|]. split.
      + exact (lang_anchor_free ic _ HTfree _ _ _ _ _ HT).
      + exact Hx. }
  split.
  - apply Hbuild. apply lang_seq_skip. exact Htail.
  - rewrite <- app_assoc. apply Hbuild.
    rewrite <- (app_nil_r (v ++ cu "/" :: rest)). apply lang_seq; [|apply lang_tail_end].
    unfold wildcard_region. apply lang_once. cbn [lang].
    change (lang ic (RSeq (RChar (cu "/")) any_run) (List.length u)
                 (v ++ cu "/" :: rest) ([] ++ [])).
    destruct Hv as [->|(a & -> & Ha)]; cbn [app].
    + apply lang_seq_char; [reflexivity|]. apply lang_any_run. exact Hrest.
    + apply lang_seq_char; [exact Ha|]. apply lang_any_run.
      constructor; [reflexivity|exact Hrest].
Qed.

(** ** A greedy parameter after literal segments *)

Lemma literal_terms (ws : list jsstring) (g : nat) :
  tokens_terms g (List.map TLit ws) = (List.map RChar (render (List.map TLit ws)), g).
Proof.
  induction ws as [|w ws IH]; [reflexivity|].
  cbn [List.map tokens_terms token_terms]. rewrite IH.
  unfold render. cbn [flat_map render_token str list_ascii_of_string List.map app].
  rewrite map_app. reflexivity.
Qed.

Lemma literal_names (ws : list jsstring) : flat_map token_names (List.map TLit ws) = [].
Proof. induction ws as [|w ws IH]; [reflexivity|exact IH]. Qed.

(** A run of literal code units consumes itself. *)
Lemma rmatch_chars (ic : bool) (u : jsstring) :
  forall (R : list regex) (i : nat) (s : jsstring) (caps : list (option jsstring))
         (c : cont),
    rmatch ic (mk_seq (List.map RChar u ++ R)) (MState i (u ++ s) caps) c
    = rmatch ic (mk_seq R) (MState (i + List.length u) s caps) c.
Proof.
  unfold mk_seq. induction u as [|a u IH]; intros R i s caps c;
    cbn [List.map app fold_right List.length].
  - rewrite Nat.add_0_r. reflexivity.
  - cbn [rmatch]. unfold step_char. cbn [m_rest m_idx m_caps].
    rewrite N.eqb_refl, IH. rewrite Nat.add_succ_r. reflexivity.
Qed.

(** After literal segments, whatever follows the slash is the capture of a
    greedy parameter, slashes included. *)
Lemma greedy_capture (ws : list jsstring) (n : jsstring) (o : options)
  (rest : jsstring) :
  Forall (fun w => token_ok (TLit w)) ws -> token_ok (TGreedy n) -> name_ok n ->
  no_line_terminator rest ->
  raw_param (compiled (render (List.map TLit ws ++ [TGreedy n])) o)
            (render (List.map TLit ws) ++ cu "/" :: rest) n
  = Some (Some rest).
Proof.
  intros Hws Hg Hn Hrest.
  assert (Hnames : flat_map token_names (List.map TLit ws ++ [TGreedy n]) = [n])
    by (rewrite flat_map_app, literal_names; reflexivity).
  destruct (compiled_grammar (List.map TLit ws ++ [TGreedy n]) o) as (Hast & Hic & Hng).
  { apply Forall_app. split; [|constructor; [exact Hg|constructor]].
    apply Forall_map. exact Hws. }
  { rewrite Hnames. constructor; [exact Hn|constructor]. }
  { rewrite Hnames. constructor; [intros []|constructor]. }
  rewrite tokens_terms_app, literal_terms in Hng. cbn in Hng.
  unfold grammar_ast in Hast. rewrite tokens_terms_app, literal_terms in Hast.
  cbn [fst snd tokens_terms token_terms app] in Hast.
  set (u := render (List.map TLit ws)) in *.
  unfold raw_param. rewrite (exec_anchored _ _ _ Hast).
  unfold match_at. rewrite Hast, Hng.
  generalize (re_ignoreCase (compiled (render (List.map TLit ws ++ [TGreedy n])) o)).
  intro ic. clear Hast Hic Hng.
  set (trail := default true (trailing o)).
  assert (HB : forall caps,
            groups_object
              (mk_seq
                 (RBol
                  :: (List.map RChar u
                      ++ [RGroup 1 None
                            (mk_seq [RChar (cu "/"); RGroup 2 (Some n) (greedy_body 3)])])
                     ++ (if trail then [trailing_slash] else []) ++ [REol])) caps
            = Some [(n, nth 1 caps None)]).
  { intro caps. unfold groups_object. rewrite groups_mk_seq.
    cbn [flat_map groups app]. rewrite !flat_map_app, groups_chars.
    destruct trail; reflexivity. }
  assert (HA : exists c3,
            rmatch ic
              (mk_seq
                 (RBol
                  :: (List.map RChar u
                      ++ [RGroup 1 None
                            (mk_seq [RChar (cu "/"); RGroup 2 (Some n) (greedy_body 3)])])
                     ++ (if trail then [trailing_slash] else []) ++ [REol]))
              (MState 0 (u ++ cu "/" :: rest) (repeat None 3)) (fun y => Some y)
            = Some (MState (S (List.length u) + List.length rest) []
                           [Some (cu "/" :: rest); Some rest; c3])).
  { change (mk_seq (RBol :: ?L)) with (RSeq RBol (mk_seq L)).
    cbn [rmatch m_idx Nat.eqb]. rewrite <- app_assoc, rmatch_chars.
    cbn [Nat.add]. generalize (List.length u). intro k.
    destruct rest as [|a rest'].
    - exists None.
      destruct trail; destruct ic; eval_match; rewrite Nat.add_0_r; reflexivity.
    - remember (a :: rest') as run eqn:Erun.
      assert (Hne : run <> []) by (subst run; discriminate).
      assert (E1 : S (k + List.length run) - S k = List.length run) by lia.
      assert (E2 : S (k + List.length run) - k = S (List.length run)) by lia.
      exists (Some run).
      destruct trail; destruct ic; cbn -[greedy_body consumed];
        (erewrite greedy_body_all; cycle 1;
         [exact Hne|exact Hrest|
          unfold consumed, set_cap; cbn -[Nat.sub firstn];
          rewrite E1, E2; cbn [firstn]; rewrite !firstn_all; reflexivity|]);
        reflexivity. }
  destruct HA as [c3 ->]. cbn [mr_groups m_caps]. rewrite HB. cbn [nth obj_get].
  rewrite jseqb_refl. reflexivity.
Qed.

(** ** The options *)

Lemma canon_slash (ic : bool) (a : codeunit) :
  canon ic a = canon ic (cu "/") -> a = cu "/".
Proof.
  destruct ic; cbn; [|auto]. unfold upcase, is_lower.
  destruct (97 <=? a)%N eqn:E1; cbn [andb]; [|auto].
  destruct (a <=? 122)%N eqn:E2; [|auto].
  apply N.leb_le in E1. intro H. lia.
Qed.

(** The paths the matcher of a pattern of the grammar accepts: what the
    terms of the tokens consume, followed by what the end of the matcher
    consumes. *)
Lemma grammar_accepts (ts : list token) (o : options) (path : jsstring) :
  Forall token_ok ts -> Forall name_ok (flat_map token_names ts) ->
  NoDup (flat_map token_names ts) ->
  accepts (compiled (render ts) o) path = true
  <-> exists u v,
        path = u ++ v
        /\ lang (negb (default false (sensitive o))) (mk_seq (fst (tokens_terms 0 ts))) 0 u []
        /\ lang (negb (default false (sensitive o)))
                (mk_seq ((if default true (trailing o) then [trailing_slash] else [])
                         ++ [REol]))
                (List.length u) v [].
Proof.
  intros Hok Hn Hnd. destruct (compiled_grammar ts o Hok Hn Hnd) as (Hast & Hic & _).
  set (ic := negb (default false (sensitive o))) in *.
  set (trail := default true (trailing o)) in *.
  set (T := fst (tokens_terms 0 ts)) in *.
  assert (HTfree : anchor_free (mk_seq T) = true)
    by (apply mk_seq_anchor_free, tokens_anchor_free).
  split.
  - intro Hacc. unfold accepts in Hacc.
    destruct (exec (compiled (render ts) o) path) as [m|] eqn:Hex; [clear Hacc|discriminate].
    destruct (exec_sound (fun _ _ => True) _ _ _ (groups_sat_any _ _) Hex)
      as (_ & _ & pre & post & Hpath & _ & HL).
    rewrite Hast, Hic in HL. unfold grammar_ast in HL. fold T in HL.
    apply lang_mk_seq_app in HL. destruct HL as (w1 & w2 & Et & H1 & H2).
    cbn [mk_seq fold_right lang] in H1.
    destruct H1 as (x1 & x2 & -> & (-> & Hpre) & ->).
    apply length_zero_iff_nil in Hpre. subst pre. cbn [app List.length] in *.
    apply lang_mk_seq_app in H2. destruct H2 as (u & v & -> & HT & Htail).
    destruct (lang_tail _ _ _ _ _ Htail) as [-> _]. rewrite Et, app_nil_r in Hpath.
    exists u, v. split; [exact Hpath|]. split; [|exact Htail].
    exact (lang_anchor_free ic _ HTfree _ _ _ _ _ HT).
  - intros (u & v & -> & HT & Hv). apply accepts_complete. rewrite Hast, Hic.
    unfold grammar_ast. fold T.
    apply lang_mk_seq_app. exists [], (u ++ v). split; [reflexivity|]. split.
    + cbn. exists [], []. auto.
    + cbn [List.length Nat.add]. apply lang_mk_seq_app. exists u, v.
      split; [reflexivity|]. split; [|exact Hv].
      exact (lang_anchor_free ic _ HTfree _ _ _ _ _ HT).
Qed.

(** The end of the matcher consumes nothing, or with [trailing] one
    slash. *)
Lemma lang_tail_iff (ic trail : bool) (i : nat) (v : jsstring) :
  lang ic (mk_seq ((if trail then [trailing_slash] else []) ++ [REol])) i v []
  <-> v = [] \/ (trail = true /\ v = [cu "/"]).
Proof.
  split.
  - intro H. destruct trail.
    + destruct (lang_tail ic true _ _ _ H) as [_ [->|(a & -> & Ha)]]; [auto|].
      apply canon_slash in Ha. subst a. auto.
    + cbn [app mk_seq fold_right lang] in H.
      destruct H as (u1 & u2 & -> & (-> & _) & ->). auto.
  - intros [->|[-> ->]]; [apply lang_tail_end|].
    cbn [app mk_seq fold_right].
    apply (lang_seq ic trailing_slash (RSeq REol REmpty) i [cu "/"] [] []);
      [|apply lang_end].
    unfold trailing_slash. apply lang_once.
    change (lang ic (RSeq (RChar (cu "/")) REmpty) i [cu "/"] ([] ++ [])).
    apply lang_seq_char; reflexivity.
Qed.


(** What a run of literal code units consumes. *)
Lemma lang_chars (ic : bool) (u0 : jsstring) :
  forall i u rest,
    lang ic (mk_seq (List.map RChar u0)) i u rest
    <-> Forall2 (fun a c => canon ic a = canon ic c) u u0.
Proof.
  unfold mk_seq. induction u0 as [|c u0 IH]; intros i u rest;
    cbn [List.map fold_right lang].
  - split; [intros ->; constructor|intro H; inversion H; reflexivity].
  - split.
    + intros (w1 & w2 & -> & (a & -> & Ha) & H). constructor; [exact Ha|].
      exact (proj1 (IH _ _ _) H).
    + intro H. inversion H as [|a ? u' ? Ha Hu]; subst.
      exists [a], u'. split; [reflexivity|]. split; [exists a; auto|].
      exact (proj2 (IH _ _ _) Hu).
Qed.

Lemma Forall2_eq_same (u u0 : jsstring) : Forall2 (fun a c => a = c) u u0 <-> u = u0.
Proof.
  split.
  - induction 1; congruence.
  - intros ->. induction u0; constructor; auto.
Qed.


(** ** More slashes *)

Lemma skip_slashes_run (k : nat) (x : codeunit) (tail : jsstring) :
  is_ch "/" x = false ->
  skip_slashes (repeat (cu "/") k ++ cu "/" :: x :: tail) = x :: tail.
Proof.
  intro Hx. induction k as [|k IH]; cbn [repeat app skip_slashes];
    change (is_ch "/" (cu "/")) with true; cbv iota.
  - rewrite Hx. reflexivity.
  - exact IH.
Qed.

Lemma skip_slashes_all (k : nat) : skip_slashes (repeat (cu "/") k) = [].
Proof. induction k as [|k IH]; [reflexivity|exact IH]. Qed.

(** A token that starts with a slash goes on with another code unit. *)
Lemma slash_token_text (t : token) (rest : jsstring) :
  token_ok t -> slash_token t = true ->
  exists x tail, render_token t ++ rest = cu "/" :: x :: tail /\ is_ch "/" x = false.
Proof.
  intros Hok Hs. destruct t as [w|n|n| |n]; try discriminate Hs; token_text.
  - destruct Hok as [Hne Hw]. destruct w as [|c w]; [congruence|].
    inversion Hw as [|? ? Hc _]; subst. exists c, (w ++ rest).
    split; [reflexivity|]. apply (plain_not c "/" Hc). vm_compute. tauto.
  - exists (cu ":"), (n ++ rest). split; reflexivity.
  - exists (cu ":"), (n ++ cu "+" :: rest). split; reflexivity.
  - exists (cu "*"), rest. split; reflexivity.
Qed.

(** Step 1 on a pattern written with more slashes gives the pattern. *)
Lemma step1_slashes (ts : list (nat * token)) (e : nat) :
  Forall (fun kt => token_ok (snd kt) /\ (fst kt = 0 \/ slash_token (snd kt) = true)) ts ->
  scan_all sc_slashes (render_slashes ts e) = render (List.map snd ts).
Proof.
  induction 1 as [|[k t] ts [Hok Hk] Hts IH]; cbn [render_slashes List.map snd fst] in *.
  - destruct e as [|e]; [apply scan_all_nil; reflexivity|].
    rewrite (scan_all_hit sc_slashes _ [] [] sc_slashes_progresses).
    + apply scan_all_nil. reflexivity.
    + cbn [repeat]. unfold sc_slashes. change (is_ch "/" (cu "/")) with true. cbv iota.
      rewrite skip_slashes_all. reflexivity.
  - unfold render. cbn [flat_map]. fold (render (List.map snd ts)). rewrite <- IH.
    destruct k as [|k]; [apply step1_token; exact Hok|].
    destruct Hk as [Hk|Hs]; [discriminate Hk|].
    destruct (slash_token_text t (render_slashes ts e) Hok Hs) as (x & tail & Et & Hx).
    pose proof (step1_token t (render_slashes ts e) Hok) as H1.
    rewrite Et in *. cbn [repeat app].
    assert (Hnone : sc_slashes (cu "/" :: x :: tail) = None).
    { unfold sc_slashes. change (is_ch "/" (cu "/")) with true. cbv iota.
      cbn [skip_slashes]. rewrite Hx. reflexivity. }
    rewrite (scan_all_skip _ _ _ Hnone) in H1.
    rewrite (scan_all_hit sc_slashes _ (str "/") (x :: tail) sc_slashes_progresses).
    + exact H1.
    + unfold sc_slashes. change (is_ch "/" (cu "/")) with true. cbv iota.
      rewrite (skip_slashes_run k x tail Hx).
      destruct k; cbn [repeat app]; change (is_ch "/" (cu "/")) with true; reflexivity.
Qed.

(** [compile] returns for a pattern written with more slashes the matcher
    of the pattern. *)
Lemma compile_slashes (ts : list (nat * token)) (e : nat) (o : options) :
  Forall (fun kt => token_ok (snd kt) /\ (fst kt = 0 \/ slash_token (snd kt) = true)) ts ->
  compile (render_slashes ts e) o = compile (render (List.map snd ts)) o.
Proof.
  intro H. unfold compile, rewrite.
  rewrite !(replace_scan _ _ _ re_slashes_refines), (step1_slashes ts e H).
  unfold render.
  rewrite (steps_tokens sc_slashes render_token render_token (List.map snd ts) eq_refl);
    [reflexivity|intros t rest Ht _; apply step1_token; exact Ht|].
  apply Forall_map. eapply Forall_impl; [|exact H]. cbv beta. tauto.
Qed.

(** ** The case of letters *)













(** ** The matcher of a pattern: parameters, wildcards, options, slashes
    and registration *)

(** C1.  For every pattern and options object for which [compile] returns a
    matcher, and every path it matches: the capture of a group whose body
    is a negated class repeated at least once is not empty and holds none
    of the code units the class names.  Step 3 of [compile] rewrites every
    marker [:name], with the slash and the dot before it if they are
    there, into such a group, the class naming that prefix and the slash;
    step 2 rewrites every marker [:name+] into a named group around a lone
    star, which step 5 turns into an optional run of any code units.  So
    the capture of [:id] in [/users/:id] and of [:name] and [:ext] in
    [/img/:name.:ext] hold no slash, the one of [:ext] no dot either, and
    [/users/:id] matches neither [/users/] nor [/users/a/b]; while
    whatever follows [/docs/] is the capture of [:path+] in
    [/docs/:path+], slashes included and empty included (a line terminator
    apart, which no request path holds), and [/docs/a/b/c] gives
    [params.path == "a/b/c"].  And for every pattern of the grammar (a
    sequence of literal segments, named parameters, greedy parameters,
    wildcards and extensions, the names distinct) and every options
    object, [compile] returns a matcher, and in every match the capture of
    a named parameter is not empty and holds no slash; the one of an
    extension holds no dot either; and after literal segments, whatever
    follows the slash is the capture of a greedy parameter, slashes
    included. *)
Theorem named_and_greedy_captures :
  (forall pattern o re path m i items s,
     compile pattern o = POk re ->
     exec re path = Some m ->
     (forall j b, In (j, b) (bodies (re_ast re)) -> Nat.pred j = Nat.pred i ->
                  negated_class_run b = Some items) ->
     nth_error (mr_captures m) (Nat.pred i) = Some (Some s) ->
     s <> [] /\ forall c, excluded items c = true -> ~ In c s)
  /\ (forall text, replace text re_named (str "($1(?<$2>[^$1/]+?))")
                   = scan_all sc_named text)
  /\ (forall text, replace text re_greedy (str "($1(?<$2>*))") = scan_all sc_greedy text)
  /\ (forall o,
        bodies (re_ast (compiled (str "/users/:id") o))
        = [(1, mk_seq [RChar (cu "/"); RGroup 2 (Some (str "id"))
                                         (named_body [CChar (cu "/"); CChar (cu "/")])]);
           (2, named_body [CChar (cu "/"); CChar (cu "/")])]
        /\ accepts (compiled (str "/users/:id") o) (str "/users/") = false
        /\ accepts (compiled (str "/users/:id") o) (str "/users/a/b") = false
        /\ route_params o (str "/users/:id") (str "/users/42")
           = Normal (Some [(str "id", Some (str "42"))])
        /\ route_params o (str "/img/:name.:ext") (str "/img/a.b.png")
           = Normal (Some [(str "name", Some (str "a.b"));
                           (str "ext", Some (str "png"))]))
  /\ (forall o rest,
        no_line_terminator rest ->
        raw_param (compiled (str "/docs/:path+") o) (str "/docs/" ++ rest) (str "path")
        = Some (Some rest))
  /\ (forall o, route_params o (str "/docs/:path+") (str "/docs/a/b/c")
                = Normal (Some [(str "path", Some (str "a/b/c"))]))
  /\ (forall ts o,
        Forall token_ok ts -> Forall name_ok (flat_map token_names ts) ->
        NoDup (flat_map token_names ts) ->
        compile (render ts) o = POk (compiled (render ts) o)
        /\ re_ast (compiled (render ts) o) = grammar_ast (default true (trailing o)) ts
        /\ forall path m gs n s,
             exec (compiled (render ts) o) path = Some m ->
             mr_groups m = Some gs -> obj_get gs n = Some (Some s) ->
             (In (TParam n) ts -> s <> [] /\ ~ In (cu "/") s)
             /\ (In (TExt n) ts -> s <> [] /\ ~ In (cu "/") s /\ ~ In (cu ".") s))
  /\ (forall ws n o rest,
        Forall (fun w => token_ok (TLit w)) ws -> token_ok (TGreedy n) -> name_ok n ->
        no_line_terminator rest ->
        raw_param (compiled (render (List.map TLit ws ++ [TGreedy n])) o)
                  (render (List.map TLit ws) ++ cu "/" :: rest) n
        = Some (Some rest)).
Proof.
  split; [|split; [|split; [|split; [|split; [|split; [|split]]]]]].
  - intros pattern o re path m i items s _ Hex Hb Hs.
    exact (negated_class_capture re path m i items s Hex Hb Hs).
  - exact (replace_scan _ _ _ re_named_refines).
  - exact (replace_scan _ _ _ re_greedy_refines).
  - intros [[[|]|] [[|]|]]; vm_compute; repeat split; reflexivity.
  - exact docs_capture.
  - intros [[[|]|] [[|]|]]; vm_compute; reflexivity.
  - exact grammar_named_capture.
  - exact greedy_capture.
Qed.

Lemma named_and_greedy_captures_witness :
  (str "42" <> [] /\ forall c, excluded [CChar (cu "/"); CChar (cu "/")] c = true ->
                               ~ In c (str "42"))
  /\ raw_param (compiled (str "/docs/:path+") (Options None None))
               (str "/docs/" ++ str "a/b/c") (str "path")
     = Some (Some (str "a/b/c"))
  /\ (str "png" <> [] /\ ~ In (cu "/") (str "png") /\ ~ In (cu ".") (str "png")).
Proof.
  destruct named_and_greedy_captures as (Hnamed & _ & _ & _ & Hgreedy & _ & Hgrammar & _).
  split; [|split].
  - apply (Hnamed (str "/users/:id") (Options None None)
                  (compiled (str "/users/:id") (Options None None)) (str "/users/42")
                  (matched (compiled (str "/users/:id") (Options None None))
                           (str "/users/42"))
                  2 [CChar (cu "/"); CChar (cu "/")] (str "42")).
    + vm_compute. reflexivity.
    + vm_compute. reflexivity.
    + intros j b Hin Hj. vm_compute in Hin.
      destruct Hin as [Hin|[Hin|[]]]; injection Hin as <- <-.
      * discriminate Hj.
      * reflexivity.
    + vm_compute. reflexivity.
  - apply Hgreedy. repeat constructor.
  - set (ts := [TLit (str "img"); TParam (str "name"); TExt (str "ext")]).
    set (o := Options None None).
    assert (Hok : Forall token_ok ts).
    { repeat constructor; discriminate. }
    assert (Hn : Forall name_ok (flat_map token_names ts)).
    { repeat constructor. }
    assert (Hnd : NoDup (flat_map token_names ts)).
    { repeat constructor; cbn; intuition discriminate. }
    destruct (Hgrammar ts o Hok Hn Hnd) as (_ & _ & H).
    apply (H (str "/img/a.b.png") (matched (compiled (render ts) o) (str "/img/a.b.png"))
             [(str "name", Some (str "a.b")); (str "ext", Some (str "png"))]
             (str "ext") (str "png")).
    + vm_compute. reflexivity.
    + vm_compute. reflexivity.
    + vm_compute. reflexivity.
    + cbn. auto.
Defined.

(** C6.  Step 5 of [compile] rewrites every star, with the slash before it
    if there is one, into an optional group around that slash and a run of
    any code units.  For every options object the pattern [/files/*]
    becomes [/files] followed by that optional group; its matcher accepts
    [/files], accepts [/files/a/b], and accepts [/files/] followed by
    anything (a line terminator apart, which no request path holds); it
    does not accept [/filesa].  And for every pattern of the grammar, the
    matcher of the pattern followed by a wildcard accepts every path the
    matcher of the pattern accepts, and that path followed by a slash and
    anything. *)
Theorem wildcard_matches_prefix_and_rest :
  (forall text, replace text re_wildcard (str "($1.*)?") = scan_all sc_wildcard text)
  /\ (forall o,
        rewrite (str "/files/*") = str "/files(/.*)?"
        /\ compile (str "/files/*") o = POk (compiled (str "/files/*") o)
        /\ re_ast (compiled (str "/files/*") o)
           = mk_seq ([RBol] ++ List.map RChar (str "/files") ++ [wildcard_region 1 true]
                     ++ (if default true (trailing o) then [trailing_slash] else [])
                     ++ [REol])
        /\ accepts (compiled (str "/files/*") o) (str "/files") = true
        /\ accepts (compiled (str "/files/*") o) (str "/files/a/b") = true
        /\ accepts (compiled (str "/files/*") o) (str "/filesa") = false)
  /\ (forall o rest,
        no_line_terminator rest ->
        accepts (compiled (str "/files/*") o) (str "/files/" ++ rest) = true)
  /\ (forall ts o path rest,
        Forall token_ok ts -> Forall name_ok (flat_map token_names ts) ->
        NoDup (flat_map token_names ts) ->
        accepts (compiled (render ts) o) path = true ->
        no_line_terminator rest ->
        accepts (compiled (render (ts ++ [TWild])) o) path = true
        /\ accepts (compiled (render (ts ++ [TWild])) o) (path ++ cu "/" :: rest) = true).
Proof.
  split; [exact (replace_scan _ _ _ re_wildcard_refines)|]. split; [|split].
  - intros [[[|]|] [[|]|]]; vm_compute; repeat split; reflexivity.
  - exact files_prefix_accepted.
  - exact wildcard_after.
Qed.

Lemma wildcard_matches_prefix_and_rest_witness :
  accepts (compiled (str "/files/*") (Options None None)) (str "/files/" ++ str "a/b")
  = true
  /\ accepts (compiled (render ([TLit (str "files"); TParam (str "id")] ++ [TWild]))
                       (Options None None))
             (str "/files/7" ++ cu "/" :: str "a/b") = true.
Proof.
  destruct wildcard_matches_prefix_and_rest as (_ & _ & Hfiles & Hany).
  split.
  - apply Hfiles. repeat constructor.
  - apply (Hany [TLit (str "files"); TParam (str "id")] (Options None None)
                (str "/files/7") (str "a/b")).
    + repeat constructor; discriminate.
    + repeat constructor.
    + repeat constructor. cbn. tauto.
    + vm_compute. reflexivity.
    + repeat constructor.
Defined.





(** C8.  The first rewriting step removes a run of slashes that reaches the
    end of the text and turns any other run of two or more slashes into one
    slash; the matcher depends on the pattern through the text this step
    gives only.  It turns [/a//b/] into [/a/b]; so for every options object
    [compile] returns for [/a//b/] the very matcher it returns for [/a/b],
    and [exec] gives the same result, captures included, on every path.
    And for every pattern of the grammar written with more slashes, before
    tokens that start with a slash and at the end, [compile] returns what
    it returns for the pattern. *)
Theorem double_and_trailing_slash_stripped :
  (forall text, replace text re_slashes (str "$1") = scan_all sc_slashes text)
  /\ (forall p q o,
        replace p re_slashes (str "$1") = replace q re_slashes (str "$1") ->
        compile p o = compile q o)
  /\ (forall o,
        replace (str "/a//b/") re_slashes (str "$1") = str "/a/b"
        /\ compile (str "/a//b/") o = compile (str "/a/b") o
        /\ compile (str "/a/b") o = POk (compiled (str "/a/b") o)
        /\ forall path,
             exec (compiled (str "/a//b/") o) path = exec (compiled (str "/a/b") o) path)
  /\ (forall ts e o,
        Forall (fun kt => token_ok (snd kt) /\ (fst kt = 0 \/ slash_token (snd kt) = true))
               ts ->
        compile (render_slashes ts e) o = compile (render (List.map snd ts)) o)
  /\ render_slashes [(0, TLit (str "a")); (1, TLit (str "b"))] 1 = str "/a//b/".
Proof.
  assert (G : forall p q o,
            replace p re_slashes (str "$1") = replace q re_slashes (str "$1") ->
            compile p o = compile q o).
  { intros p q o H. unfold compile, rewrite. rewrite H. reflexivity. }
  split; [exact (replace_scan _ _ _ re_slashes_refines)|]. split; [exact G|].
  split; [|split; [exact compile_slashes|reflexivity]].
  intro o.
  assert (H : compile (str "/a//b/") o = compile (str "/a/b") o)
    by (apply G; vm_compute; reflexivity).
  split; [vm_compute; reflexivity|]. split; [exact H|]. split.
  - destruct o as [[[|]|] [[|]|]]; vm_compute; reflexivity.
  - intro path. unfold compiled. rewrite H. reflexivity.
Qed.

Lemma double_and_trailing_slash_stripped_witness :
  compile (str "/a//b/") (Options None None) = compile (str "/a/b") (Options None None)
  /\ compile (render_slashes [(0, TLit (str "users")); (2, TParam (str "id"))] 3)
              (Options None None)
     = compile (render [TLit (str "users"); TParam (str "id")]) (Options None None).
Proof.
  destruct double_and_trailing_slash_stripped as (_ & Hsame & _ & Hmore & _). split.
  - apply Hsame. vm_compute. reflexivity.
  - apply (Hmore [(0, TLit (str "users")); (2, TParam (str "id"))] 3 (Options None None)).
    repeat constructor; cbn; auto; discriminate.
Defined.



(* ================================================================== *)
(** * More properties of the router *)
(* ================================================================== *)

(** ** What [decode] returns *)

Lemma read_escape_length (s s' : jsstring) (b : N) :
  read_escape s = Some (b, s') -> List.length s = 3 + List.length s'.
Proof.
  unfold read_escape. destruct s as [|p [|h [|l s0]]]; try discriminate.
  destruct (is_ch "%" p); [|discriminate].
  destruct (hexval h); [|discriminate]. destruct (hexval l); [|discriminate].
  intro H. injection H as _ <-. reflexivity.
Qed.

Lemma read_continuation_length (n : nat) :
  forall acc s v s',
    read_continuation n acc s = Some (v, s') -> List.length s = 3 * n + List.length s'.
Proof.
  induction n as [|n IH]; intros acc s v s'; cbn [read_continuation].
  - intro H. injection H as _ <-. lia.
  - destruct (read_escape s) as [[b s1]|] eqn:E; [|discriminate].
    apply read_escape_length in E.
    destruct ((128 <=? b)%N && (b <=? 191)%N); [|discriminate].
    intro H. apply IH in H. lia.
Qed.

Lemma leading_count (b : N) (n : nat) (bits least : N) :
  leading b = Some (n, bits, least) -> 1 <= n.
Proof.
  unfold leading. destruct (b <? 192)%N; [discriminate|].
  destruct (b <? 224)%N; [intro H; injection H as <- _ _; lia|].
  destruct (b <? 240)%N; [intro H; injection H as <- _ _; lia|].
  destruct (b <? 248)%N; [intro H; injection H as <- _ _; lia|discriminate].
Qed.

Lemma utf16_length (v : N) : 1 <= List.length (utf16 v) <= 2.
Proof. unfold utf16. destruct (v <? 65536)%N; cbn; lia. Qed.

(** What is decoded from a text that is not empty is not empty, and it is
    not longer than the text. *)
Lemma decode_from_bounds (fuel : nat) :
  forall s r, decode_from fuel s = Some r ->
              List.length r <= List.length s /\ (s <> [] -> r <> []).
Proof.
  induction fuel as [|fuel IH]; intros s r; cbn [decode_from]; [discriminate|].
  destruct s as [|c s]; [intro H; injection H as <-; split; [lia|congruence]|].
  destruct (is_ch "%" c).
  - destruct (read_escape (c :: s)) as [[b s1]|] eqn:E; [|discriminate].
    apply read_escape_length in E.
    destruct (b <? 128)%N.
    + destruct (decode_from fuel s1) as [r1|] eqn:E1; [|discriminate].
      cbn [option_map]. intro H. injection H as <-.
      destruct (IH _ _ E1) as [Hl _]. cbn [List.length] in *.
      split; [lia|discriminate].
    + destruct (leading b) as [[[n bits] least]|] eqn:El; [|discriminate].
      apply leading_count in El.
      destruct (read_continuation n bits s1) as [[v s2]|] eqn:Ec; [|discriminate].
      apply read_continuation_length in Ec.
      destruct ((least <=? v)%N && (v <=? 1114111)%N && negb (is_surrogate v));
        [|discriminate].
      destruct (decode_from fuel s2) as [r2|] eqn:E2; [|discriminate].
      cbn [option_map]. intro H. injection H as <-.
      destruct (IH _ _ E2) as [Hl _]. pose proof (utf16_length v) as Hu.
      rewrite length_app. cbn [List.length] in *. split; [lia|].
      intros _ Hnil. apply (f_equal (@List.length _)) in Hnil.
      rewrite length_app in Hnil. cbn in Hnil. lia.
  - destruct (decode_from fuel s) as [r1|] eqn:E1; [|discriminate].
    cbn [option_map]. intro H. injection H as <-.
    destruct (IH _ _ E1) as [Hl _]. cbn [List.length]. split; [lia|discriminate].
Qed.

Lemma decode_value (val : option jsstring) (s : jsstring) :
  decode val = Normal (Some s) ->
  exists v, val = Some v /\ v <> [] /\ s <> [] /\ List.length s <= List.length v.
Proof.
  unfold decode. destruct val as [[|c v]|]; cbn [truthy]; try discriminate.
  unfold decodeURIComponent.
  destruct (decode_from (S (List.length (c :: v))) (c :: v)) as [r|] eqn:E; [|discriminate].
  intro H. injection H as <-. destruct (decode_from_bounds _ _ _ E) as [Hl Hne].
  exists (c :: v). split; [reflexivity|]. split; [discriminate|].
  split; [apply Hne; discriminate|exact Hl].
Qed.

Lemma decode_throws (val : option jsstring) (e : error) :
  decode val = Throw e -> e = URIError.
Proof.
  unfold decode. destruct (truthy val); [|discriminate]. unfold decodeURIComponent.
  destruct (decode_from _ _); [discriminate|]. intro H. injection H as <-. reflexivity.
Qed.

Lemma decode_entries_throws (es acc : object (option jsstring)) (e : error) :
  decode_entries es acc = Throw e -> e = URIError.
Proof.
  revert acc. induction es as [|[k v] es IH]; intro acc; cbn [decode_entries];
    [discriminate|].
  destruct (decode v) as [dv|e'] eqn:E.
  - apply IH.
  - intro H. injection H as <-. exact (decode_throws _ _ E).
Qed.

Lemma decoded_values (gs ps : object (option jsstring)) :
  Forall2 (fun e p => fst p = fst e /\ decode (snd e) = Normal (snd p)) gs ps ->
  forall k v, In (k, Some v) ps ->
    v <> [] /\ exists raw, In (k, Some raw) gs /\ List.length v <= List.length raw.
Proof.
  induction 1 as [|[k' raw] p es ps' [Hfst Hdec] _ IH]; intros k v Hin; [destruct Hin|].
  destruct Hin as [->|Hin].
  - cbn [fst snd] in *. subst k'.
    destruct (decode_value _ _ Hdec) as (r & -> & _ & Hne & Hl).
    split; [exact Hne|]. exists r. split; [left; reflexivity|exact Hl].
  - destruct (IH k v Hin) as (Hne & r & Hr & Hl).
    split; [exact Hne|]. exists r. split; [right; exact Hr|exact Hl].
Qed.

(** X1.  A parameter is [undefined] or a string that is not empty, and no
    longer than the capture it was decoded from; the keys of [params] are
    distinct. *)
Theorem params_values (pattern : jsstring) (o : options) (re : regexp)
  (path : jsstring) (m : match_result) (ps : object (option jsstring)) :
  compile pattern o = POk re ->
  exec re path = Some m ->
  decode_groups m = Normal ps ->
  NoDup (List.map fst ps)
  /\ forall k v, In (k, Some v) ps ->
       v <> []
       /\ exists gs raw, mr_groups m = Some gs /\ In (k, Some raw) gs
                         /\ List.length v <= List.length raw.
Proof.
  intros Hc Hex Hd.
  pose proof (compile_names _ _ _ Hc) as Hnd.
  destruct (decode_groups_spec re path m ps Hnd Hex Hd) as [Hk HF].
  split; [rewrite Hk; exact Hnd|].
  intros k v Hin. unfold decode_groups in Hd.
  destruct (mr_groups m) as [gs|] eqn:Eg.
  - destruct (decoded_values gs ps (HF gs eq_refl) k v Hin) as (Hne & raw & Hr & Hl).
    split; [exact Hne|]. exists gs, raw. auto.
  - injection Hd as <-. destruct Hin.
Qed.

Lemma params_values_witness :
  NoDup (List.map fst [(str "name", Some (str "a b"))])
  /\ forall k v, In (k, Some v) [(str "name", Some (str "a b"))] ->
       v <> []
       /\ exists gs raw,
            mr_groups (matched (compiled (str "/package/:name") (Options None None))
                               (str "/package/a%20b")) = Some gs
            /\ In (k, Some raw) gs /\ List.length v <= List.length raw.
Proof.
  apply (params_values (str "/package/:name") (Options None None)
           (compiled (str "/package/:name") (Options None None))
           (str "/package/a%20b")
           (matched (compiled (str "/package/:name") (Options None None))
                    (str "/package/a%20b"))).
  - vm_compute. reflexivity.
  - vm_compute. reflexivity.
  - vm_compute. reflexivity.
Defined.

(** ** What the middleware of a route throws *)

Lemma no_names_no_groups (re : regexp) (path : jsstring) (m : match_result) :
  named (groups (re_ast re)) = [] -> exec re path = Some m -> decode_groups m = Normal [].
Proof.
  intros Hn Hex. unfold decode_groups. rewrite (exec_groups _ _ _ Hex).
  unfold groups_object. rewrite Hn. reflexivity.
Qed.

(** X2.  The only exception the middleware of a route raises by itself is
    [URIError].  A route whose matcher has no named group raises none: it
    calls [next] on the context it was given, or runs its handlers with an
    empty [params], whatever the path; so it is for every pattern of the
    grammar made of literal segments and wildcards. *)
Theorem route_own_exceptions :
  (forall rm path re composed ctx next m e,
     matches ctx rm = true ->
     exec re (pathname (req ctx)) = Some m ->
     decode_groups m = Throw e ->
     e = URIError /\ routeMiddleware rm path re composed ctx next = Throw URIError)
  /\ (forall rm path re composed ctx next,
        named (groups (re_ast re)) = [] ->
        routeMiddleware rm path re composed ctx next = next ctx
        \/ routeMiddleware rm path re composed ctx next
           = composed (attach ctx [] path) next)
  /\ (forall ts o rm composed ctx next,
        Forall token_ok ts -> flat_map token_names ts = [] ->
        compile (render ts) o = POk (compiled (render ts) o)
        /\ (routeMiddleware rm (render ts) (compiled (render ts) o) composed ctx next
            = next ctx
            \/ routeMiddleware rm (render ts) (compiled (render ts) o) composed ctx next
               = composed (attach ctx [] (render ts)) next)).
Proof.
  assert (B : forall rm path re composed ctx next,
            named (groups (re_ast re)) = [] ->
            routeMiddleware rm path re composed ctx next = next ctx
            \/ routeMiddleware rm path re composed ctx next
               = composed (attach ctx [] path) next).
  { intros rm path re composed ctx next Hn. unfold routeMiddleware.
    destruct (matches ctx rm); cbn [negb]; [|left; reflexivity].
    destruct (exec re (pathname (req ctx))) as [m|] eqn:Hex; [|left; reflexivity].
    rewrite (no_names_no_groups re _ m Hn Hex). right. reflexivity. }
  split; [|split; [exact B|]].
  - intros rm path re composed ctx next m e Hm Hex Hd.
    assert (e = URIError).
    { unfold decode_groups in Hd. destruct (mr_groups m); [|discriminate].
      exact (decode_entries_throws _ _ _ Hd). }
    subst e. split; [reflexivity|].
    unfold routeMiddleware. rewrite Hm, Hex, Hd. reflexivity.
  - intros ts o rm composed ctx next Hok Hnames.
    assert (Hn : Forall name_ok (flat_map token_names ts)) by (rewrite Hnames; constructor).
    assert (Hnd : NoDup (flat_map token_names ts)) by (rewrite Hnames; constructor).
    destruct (grammar_named_capture ts o Hok Hn Hnd) as (Hc & Hast & _).
    split; [exact Hc|]. apply B.
    pose proof (grammar_names (default true (trailing o)) ts) as G.
    rewrite Hnames, <- Hast in G.
    destruct (named (groups (re_ast (compiled (render ts) o)))); [reflexivity|discriminate G].
Qed.

Lemma route_own_exceptions_witness :
  let ctx := Context (Request (str "GET") (str "/files/%E0%A4%A") None None)
                     (Response None None) [] in
  routeMiddleware None (render [TLit (str "files"); TWild])
                  (compiled (render [TLit (str "files"); TWild]) (Options None None))
                  some_handler ctx (fun c => Normal c) = Normal ctx
  \/ routeMiddleware None (render [TLit (str "files"); TWild])
                     (compiled (render [TLit (str "files"); TWild]) (Options None None))
                     some_handler ctx (fun c => Normal c)
     = some_handler (attach ctx [] (render [TLit (str "files"); TWild]))
                    (fun c => Normal c).
Proof.
  intro ctx.
  apply (proj2 (proj2 (proj2 route_own_exceptions) [TLit (str "files"); TWild]
                  (Options None None) None some_handler ctx (fun c => Normal c)
                  ltac:(repeat constructor; discriminate) eq_refl)).
Defined.

(** ** HEAD requests *)

(** X3.  A route that matches a GET request matches every HEAD request, and
    on a HEAD request for the same path its middleware runs the handlers
    with the parameters it attaches for the GET request. *)
Theorem head_follows_get (rm : option jsstring) (path : jsstring) (re : regexp)
  (composed : middleware) (ctx ctx' : context) (next : next_fn) :
  method (req ctx) = str "GET" ->
  method (req ctx') = str "HEAD" ->
  matches ctx rm = true ->
  matches ctx' rm = true
  /\ (pathname (req ctx') = pathname (req ctx) ->
      forall m ps,
        exec re (pathname (req ctx)) = Some m ->
        decode_groups m = Normal ps ->
        routeMiddleware rm path re composed ctx next = composed (attach ctx ps path) next
        /\ routeMiddleware rm path re composed ctx' next
           = composed (attach ctx' ps path) next).
Proof.
  intros Hg Hh Hm.
  assert (Hm' : matches ctx' rm = true).
  { destruct rm as [[|c r]|]; try reflexivity.
    apply matches_some; [discriminate|].
    apply matches_some in Hm; [|discriminate].
    destruct Hm as [Hm|[Hm _]]; right; split; congruence. }
  split; [exact Hm'|]. intros Hp m ps Hex Hd. split.
  - rewrite (routeMiddleware_match rm path re composed ctx next m Hm Hex), Hd. reflexivity.
  - rewrite <- Hp in Hex.
    rewrite (routeMiddleware_match rm path re composed ctx' next m Hm' Hex), Hd.
    reflexivity.
Qed.

Lemma head_follows_get_witness :
  matches (Context (Request (str "HEAD") (str "/hoa") None None) (Response None None) [])
          (Some (str "GET")) = true.
Proof.
  exact (proj1 (head_follows_get (Some (str "GET")) (str "/hoa")
                  (compiled (str "/hoa") (Options None None)) some_handler
                  (Context (Request (str "GET") (str "/hoa") None None)
                           (Response None None) [])
                  (Context (Request (str "HEAD") (str "/hoa") None None)
                           (Response None None) [])
                  (fun c => Normal c) eq_refl eq_refl eq_refl)).
Defined.

(** ** A match is the whole path *)

(** X4.  The matcher of a pattern of the grammar matches the whole path or
    nothing: a match starts at index 0 and its text is the path. *)
Theorem match_is_whole_path (ts : list token) (o : options) (path : jsstring)
  (m : match_result) :
  Forall token_ok ts -> Forall name_ok (flat_map token_names ts) ->
  NoDup (flat_map token_names ts) ->
  exec (compiled (render ts) o) path = Some m ->
  mr_index m = 0 /\ mr_text m = path.
Proof.
  intros Hok Hn Hnd Hex. destruct (compiled_grammar ts o Hok Hn Hnd) as (Hast & Hic & _).
  destruct (exec_sound (fun _ _ => True) _ _ _ (groups_sat_any _ _) Hex)
    as (_ & _ & pre & post & Hpath & Hidx & HL).
  rewrite Hast in HL. unfold grammar_ast in HL.
  apply lang_mk_seq_app in HL. destruct HL as (w1 & w2 & Et & H1 & H2).
  cbn [mk_seq fold_right lang] in H1.
  destruct H1 as (x1 & x2 & -> & (-> & Hpre) & ->).
  apply length_zero_iff_nil in Hpre. subst pre. cbn [app List.length] in *.
  apply lang_mk_seq_app in H2. destruct H2 as (u & v & -> & _ & Htail).
  destruct (lang_tail _ _ _ _ _ Htail) as [-> _].
  rewrite app_nil_r in Hpath. split; [exact Hidx|congruence].
Qed.

Lemma match_is_whole_path_witness :
  mr_index (matched (compiled (render [TLit (str "users"); TParam (str "id")])
                              (Options None None)) (str "/users/7")) = 0
  /\ mr_text (matched (compiled (render [TLit (str "users"); TParam (str "id")])
                                (Options None None)) (str "/users/7")) = str "/users/7".
Proof.
  apply (match_is_whole_path [TLit (str "users"); TParam (str "id")] (Options None None)).
  - repeat constructor; discriminate.
  - repeat constructor.
  - repeat constructor. cbn. tauto.
  - vm_compute. reflexivity.
Defined.

(** ** Two parameters of the same name *)

Lemma has_alt_mk_seq (l : list regex) : has_alt (mk_seq l) = existsb has_alt l.
Proof.
  unfold mk_seq. induction l as [|r l IH]; cbn [fold_right has_alt existsb]; [reflexivity|].
  rewrite IH. reflexivity.
Qed.

Lemma has_alt_chars (w : jsstring) : existsb has_alt (List.map RChar w) = false.
Proof. induction w as [|c w IH]; [reflexivity|exact IH]. Qed.

Lemma has_alt_tokens (ts : list token) :
  forall g, existsb has_alt (fst (tokens_terms g ts)) = false.
Proof.
  induction ts as [|t ts IH]; intro g; [reflexivity|]. cbn [tokens_terms].
  assert (H1 : existsb has_alt (fst (token_terms g t)) = false).
  { destruct t as [w|n|n| |n]; try reflexivity.
    cbn [token_terms fst existsb has_alt orb]. apply has_alt_chars. }
  destruct (token_terms g t) as [a g1].
  pose proof (IH g1) as H2. destruct (tokens_terms g1 ts) as [b g2]. cbn [fst] in *.
  rewrite existsb_app, H1, H2. reflexivity.
Qed.

Lemma has_alt_grammar (trail : bool) (ts : list token) :
  has_alt (grammar_ast trail ts) = false.
Proof.
  unfold grammar_ast. rewrite has_alt_mk_seq, !existsb_app, has_alt_tokens.
  destruct trail; reflexivity.
Qed.

(** What [RegExp] reads in the text [compile] builds for a pattern of the
    grammar, whatever the names. *)
Lemma grammar_source_parse (ts : list token) (trail : bool) :
  Forall token_ok ts -> Forall name_ok (flat_map token_names ts) ->
  parse_disj (S (List.length (cu "^" :: flat_map text5 ts
                                ++ (if trail then str "(?:\/)?" else []) ++ str "$")))
             [] []
             (cu "^" :: flat_map text5 ts ++ (if trail then str "(?:\/)?" else [])
                ++ str "$") 0
  = POk (grammar_ast trail ts, [], snd (tokens_terms 0 ts)).
Proof.
  intros Hok Hn. cbn [List.length]. rewrite parse_disj_bol.
  destruct (parse_tokens ts (S (List.length (flat_map text5 ts
                                             ++ (if trail then str "(?:\/)?" else [])
                                             ++ str "$")))
              [] [RBol] ((if trail then str "(?:\/)?" else []) ++ str "$") 0 Hok Hn)
    as (f & Hf & ->).
  { destruct trail; cbn; repeat split; reflexivity. }
  { lia. }
  rewrite (parse_tail trail f _ _ Hf).
  rewrite rev_app_distr, rev_involutive. reflexivity.
Qed.

(** X5.  A pattern of the grammar in which two parameters have the same
    name does not compile: [RegExp] throws [SyntaxError], and so does the
    registration call, which leaves the pipeline as it was. *)
Theorem duplicate_names_rejected (ts : list token) (o : options)
  (rm : option jsstring) (host : application) (h : middleware) (hs : list middleware) :
  Forall token_ok ts -> Forall name_ok (flat_map token_names ts) ->
  ~ NoDup (flat_map token_names ts) ->
  compile (render ts) o = PSyntaxError
  /\ createRouteMethod o rm host (render ts) (h :: hs) = (Throw SyntaxError, host).
Proof.
  intros Hok Hn Hdup.
  assert (Hc : compile (render ts) o = PSyntaxError).
  { unfold compile. rewrite (rewrite_render ts Hok).
    set (trail := default true (trailing o)). set (sens := default false (sensitive o)).
    assert (Hsrc : str "^" ++ (if trail then flat_map text5 ts ++ str "(?:\/)?"
                               else flat_map text5 ts) ++ str "$"
                   = cu "^" :: flat_map text5 ts
                       ++ (if trail then str "(?:\/)?" else []) ++ str "$").
    { destruct trail; cbn [str list_ascii_of_string List.map app];
        rewrite <- ?app_assoc; reflexivity. }
    rewrite Hsrc. unfold RegExp.
    replace (parse_flags (if sens then str "" else str "i")) with (POk (negb sens, false))
      by (destruct sens; reflexivity).
    rewrite (grammar_source_parse ts trail Hok Hn).
    rewrite grammar_names, has_alt_grammar.
    destruct (has_dup (flat_map token_names ts)) eqn:E; [reflexivity|].
    exfalso. apply Hdup. apply has_dup_false. exact E. }
  split; [exact Hc|].
  unfold createRouteMethod, createRoute. cbn [List.length Nat.eqb]. rewrite Hc. reflexivity.
Qed.

Lemma duplicate_names_rejected_witness :
  compile (render [TParam (str "id"); TLit (str "posts"); TParam (str "id")])
          (Options None None) = PSyntaxError
  /\ createRouteMethod (Options None None) (Some (str "GET")) (App [])
                       (render [TParam (str "id"); TLit (str "posts"); TParam (str "id")])
                       [some_handler]
     = (Throw SyntaxError, App []).
Proof.
  apply duplicate_names_rejected.
  - repeat constructor; discriminate.
  - repeat constructor.
  - intro H. inversion H as [|? ? Hin _]; subst. apply Hin. cbn. auto.
Defined.

(** ** The slashes of a pattern *)

Lemma sc_slashes_other (c : codeunit) (s : jsstring) :
  is_ch "/" c = false -> sc_slashes (c :: s) = None.
Proof. intro H. unfold sc_slashes. rewrite H. reflexivity. Qed.

Lemma skip_slashes_head (s : jsstring) :
  match skip_slashes s with [] => True | a :: _ => is_ch "/" a = false end.
Proof. destruct (skip_slashes_spec s) as (run & _ & _ & H). exact H. Qed.

Lemma scan_slashes_tidy (n : nat) :
  forall s, List.length s < n -> tidy (scan_all sc_slashes s) = true.
Proof.
  induction n as [|n IH]; intros s Hn; [lia|].
  destruct s as [|c s]; [reflexivity|]. cbn [List.length] in Hn.
  destruct (sc_slashes (c :: s)) as [[out rest]|] eqn:E.
  - pose proof (sc_slashes_progresses _ _ _ E) as Hp. cbn [List.length] in Hp.
    rewrite (scan_all_hit _ _ _ _ sc_slashes_progresses E).
    unfold sc_slashes in E. destruct (is_ch "/" c); [|discriminate].
    pose proof (skip_slashes_head s) as Hh.
    destruct (skip_slashes s) as [|x r] eqn:Es.
    + injection E as <- <-. reflexivity.
    + destruct s as [|d s]; [discriminate|]. destruct (is_ch "/" d); [|discriminate].
      injection E as <- <-. cbn [str list_ascii_of_string List.map app].
      pose proof (IH (x :: r) ltac:(cbn [List.length] in *; lia)) as Ht.
      rewrite (scan_all_skip _ _ _ (sc_slashes_other x r Hh)) in *.
      cbn [tidy] in *. change (is_ch "/" (cu "/")) with true. cbv iota.
      rewrite Hh in *. exact Ht.
  - rewrite (scan_all_skip _ _ _ E).
    pose proof (IH s ltac:(lia)) as Ht.
    cbn [tidy]. destruct (is_ch "/" c) eqn:Ec; [|exact Ht].
    unfold sc_slashes in E. rewrite Ec in E.
    pose proof (skip_slashes_head s) as Hh.
    destruct s as [|d s]; [discriminate E|].
    destruct (is_ch "/" d) eqn:Ed.
    + destruct (skip_slashes (d :: s)); discriminate E.
    + rewrite (scan_all_skip _ _ _ (sc_slashes_other d s Ed)) in *.
      cbn [tidy] in *. rewrite Ed in *. exact Ht.
Qed.

Lemma scan_slashes_fixed (s : jsstring) : tidy s = true -> scan_all sc_slashes s = s.
Proof.
  induction s as [|c s IH]; intro Ht; [apply scan_all_nil; reflexivity|].
  cbn [tidy] in Ht. destruct (is_ch "/" c) eqn:Ec.
  - destruct s as [|d s]; [discriminate Ht|].
    apply andb_true_iff in Ht. destruct Ht as [Hd Ht]. apply negb_true_iff in Hd.
    rewrite scan_all_skip.
    + rewrite (IH Ht). reflexivity.
    + unfold sc_slashes. rewrite Ec. cbn [skip_slashes]. rewrite Hd. reflexivity.
  - rewrite (scan_all_skip _ _ _ (sc_slashes_other c s Ec)), (IH Ht). reflexivity.
Qed.

(** X6.  The first step of [compile] leaves a text without two slashes in a
    row and without a slash at its end; it does not change such a text, so
    doing it twice is doing it once, and [compile] returns for the text it
    leaves what it returns for the pattern. *)
Theorem first_step_tidies :
  (forall text, tidy (replace text re_slashes (str "$1")) = true)
  /\ (forall text, tidy text = true -> replace text re_slashes (str "$1") = text)
  /\ (forall text,
        replace (replace text re_slashes (str "$1")) re_slashes (str "$1")
        = replace text re_slashes (str "$1"))
  /\ (forall text o, compile (replace text re_slashes (str "$1")) o = compile text o).
Proof.
  assert (T : forall text, tidy (replace text re_slashes (str "$1")) = true).
  { intro text. rewrite (replace_scan _ _ _ re_slashes_refines).
    apply (scan_slashes_tidy (S (List.length text))). lia. }
  assert (F : forall text, tidy text = true -> replace text re_slashes (str "$1") = text).
  { intros text Ht. rewrite (replace_scan _ _ _ re_slashes_refines).
    apply scan_slashes_fixed. exact Ht. }
  split; [exact T|]. split; [exact F|]. split.
  - intro text. apply F. apply T.
  - intros text o. unfold compile, rewrite. rewrite (F _ (T text)). reflexivity.
Qed.

Lemma first_step_tidies_witness :
  replace (str "/users/:id") re_slashes (str "$1") = str "/users/:id".
Proof. apply (proj1 (proj2 first_step_tidies)). reflexivity. Defined.

(** ** The paths of a route with one parameter *)

Lemma not_slash_class (ic : bool) (c : codeunit) :
  class_has ic true [CChar (cu "/"); CChar (cu "/")] c = true <-> c <> cu "/".
Proof.
  unfold class_has. cbn [existsb item_has]. rewrite orb_false_r, orb_diag.
  destruct (N.eqb_spec (canon ic (cu "/")) (canon ic c)) as [E|E]; cbn [xorb negb].
  - split; [discriminate|]. intro H. exfalso. apply H. apply (canon_slash ic). congruence.
  - split; [|reflexivity]. intros _ ->. apply E. reflexivity.
Qed.

(** What the region of a named parameter consumes: one or more code units
    other than the slash. *)
Lemma lang_named_region (ic : bool) (i : nat) (w rest : jsstring) :
  lang ic (named_body [CChar (cu "/"); CChar (cu "/")]) i w rest
  <-> w <> [] /\ ~ In (cu "/") w.
Proof.
  split.
  - intro H.
    destruct (negated_class_run_lang ic (named_body [CChar (cu "/"); CChar (cu "/")])
                [CChar (cu "/"); CChar (cu "/")] i w rest eq_refl H) as [Hne Hex].
    split; [exact Hne|]. apply Hex. reflexivity.
  - intros [Hne Hs]. unfold named_body. cbn [lang].
    exists w, []. rewrite app_nil_r. split; [reflexivity|]. split; [|reflexivity].
    exists (List.map (fun a => [a]) w). split; [|split; [|split]].
    + clear. induction w as [|a w IH]; [reflexivity|]. cbn. congruence.
    + clear Hne. revert i. induction w as [|a w IH]; intro i; cbn [List.map lang_iter];
        [exact I|].
      split.
      * exists a. split; [reflexivity|]. apply not_slash_class. intros ->. apply Hs.
        left. reflexivity.
      * apply IH. intro H. apply Hs. right. exact H.
    + rewrite length_map. destruct w; [congruence|cbn; lia].
    + exact I.
Qed.

Lemma lang_any_run_inv (ic : bool) (i : nat) (w rest : jsstring) :
  lang ic any_run i w rest -> no_line_terminator w.
Proof.
  unfold any_run. cbn [lang].
  intros (w1 & w2 & -> & (ws & -> & Hws & _) & ->). rewrite app_nil_r.
  revert i Hws. induction ws as [|u ws IH]; intros i Hws; cbn [List.concat lang_iter] in *.
  - constructor.
  - destruct Hws as [(a & -> & Ha) Hws]. cbn [app]. constructor; [exact Ha|].
    exact (IH _ Hws).
Qed.

(** The paths the matcher accepts when the pattern is made of literal
    segments and one more token: the text of the segments, what the terms
    of the token consume, and what the end of the matcher consumes. *)
Lemma literal_then_accepts (ws : list jsstring) (last : token) (s t : option bool)
  (path : jsstring) :
  Forall (fun w => token_ok (TLit w)) ws -> token_ok last ->
  Forall name_ok (token_names last) ->
  accepts (compiled (render (List.map TLit ws ++ [last])) (Options s t)) path = true
  <-> exists u w v,
        path = u ++ w ++ v
        /\ (if default false s then u = render (List.map TLit ws)
            else same_ci u (render (List.map TLit ws)))
        /\ lang (negb (default false s)) (mk_seq (fst (token_terms 0 last))) 0 w []
        /\ (v = [] \/ (default true t = true /\ v = [cu "/"])).
Proof.
  intros Hws Hlast Hn.
  assert (Hnames : flat_map token_names (List.map TLit ws ++ [last]) = token_names last)
    by (rewrite flat_map_app, literal_names; cbn; apply app_nil_r).
  assert (Hok : Forall token_ok (List.map TLit ws ++ [last])).
  { apply Forall_app. split; [apply Forall_map; exact Hws|constructor; [exact Hlast|constructor]]. }
  assert (Hnd : NoDup (token_names last)).
  { destruct last; cbn; repeat constructor; intros []. }
  rewrite <- Hnames in Hn, Hnd.
  rewrite (grammar_accepts _ (Options s t) path Hok Hn Hnd).
  cbn [sensitive trailing]. rewrite tokens_terms_app, literal_terms.
  cbn [fst snd tokens_terms]. destruct (token_terms 0 last) as [terms g] eqn:Et.
  cbn [fst]. rewrite app_nil_r.
  set (ic := negb (default false s)).
  assert (Hfree : anchor_free (mk_seq terms) = true).
  { apply mk_seq_anchor_free. pose proof (token_anchor_free 0 last) as H.
    rewrite Et in H. exact H. }
  assert (HU : forall i u rest,
            lang ic (mk_seq (List.map RChar (render (List.map TLit ws)))) i u rest
            <-> (if default false s then u = render (List.map TLit ws)
                 else same_ci u (render (List.map TLit ws)))).
  { intros i u rest. rewrite lang_chars. subst ic. destruct (default false s); cbn [negb canon].
    - apply Forall2_eq_same.
    - reflexivity. }
  split.
  - intros (x & v & -> & Hx & Hv). apply lang_mk_seq_app in Hx.
    destruct Hx as (u & w & -> & Hu & Hw).
    exists u, w, v. rewrite <- app_assoc. split; [reflexivity|].
    split; [apply (HU 0 u (w ++ [])); exact Hu|]. split.
    + exact (lang_anchor_free ic _ Hfree _ _ _ _ _ Hw).
    + apply lang_tail_iff in Hv. exact Hv.
  - intros (u & w & v & -> & Hu & Hw & Hv). exists (u ++ w), v.
    rewrite <- app_assoc. split; [reflexivity|]. split.
    + apply lang_mk_seq_app. exists u, w. split; [reflexivity|]. split.
      * apply HU. exact Hu.
      * exact (lang_anchor_free ic _ Hfree _ _ _ _ _ Hw).
    + apply lang_tail_iff. exact Hv.
Qed.

(** X7.  A route made of literal segments and a named parameter accepts
    exactly the text of the segments (in any case unless [sensitive] is
    true), a slash, one or more code units other than the slash, and, when
    [trailing] is true or absent, one slash or none. *)
Theorem param_route_paths (ws : list jsstring) (n : jsstring) (s t : option bool)
  (path : jsstring) :
  Forall (fun w => token_ok (TLit w)) ws -> token_ok (TParam n) -> name_ok n ->
  accepts (compiled (render (List.map TLit ws ++ [TParam n])) (Options s t)) path = true
  <-> exists u seg v,
        path = u ++ cu "/" :: seg ++ v
        /\ (if default false s then u = render (List.map TLit ws)
            else same_ci u (render (List.map TLit ws)))
        /\ seg <> [] /\ ~ In (cu "/") seg
        /\ (v = [] \/ (default true t = true /\ v = [cu "/"])).
Proof.
  intros Hws Hp Hn.
  rewrite (literal_then_accepts ws (TParam n) s t path Hws Hp
             ltac:(constructor; [exact Hn|constructor])).
  cbn [token_terms fst mk_seq fold_right].
  split.
  - intros (u & w & v & -> & Hu & Hw & Hv).
    cbn [lang] in Hw.
    destruct Hw as (w1 & w2 & -> & (x1 & x2 & -> & (a & -> & Ha) & y1 & y2 & -> & Hy & ->)
                    & ->).
    apply canon_slash in Ha. subst a.
    change (lang (negb (default false s)) (named_body [CChar (cu "/"); CChar (cu "/")])
                 (0 + List.length [cu "/"]) y1 ([] ++ [] ++ [])) in Hy.
    apply lang_named_region in Hy. destruct Hy as [Hne Hs].
    exists u, y1, v. rewrite !app_nil_r. cbn [app]. auto.
  - intros (u & seg & v & -> & Hu & Hne & Hs & Hv).
    exists u, (cu "/" :: seg), v. split; [reflexivity|]. split; [exact Hu|].
    split; [|exact Hv].
    cbn [lang]. exists (cu "/" :: seg), []. rewrite app_nil_r.
    split; [reflexivity|]. split; [|reflexivity].
    exists [cu "/"], seg. split; [reflexivity|]. split; [exists (cu "/"); auto|].
    exists seg, []. rewrite app_nil_r. split; [reflexivity|]. split; [|reflexivity].
    apply lang_named_region. auto.
Qed.

Lemma param_route_paths_witness :
  accepts (compiled (render (List.map TLit [str "users"] ++ [TParam (str "id")]))
                    (Options None None)) (str "/Users/42/") = true.
Proof.
  apply (param_route_paths [str "users"] (str "id") None None (str "/Users/42/")).
  - repeat constructor; discriminate.
  - repeat constructor; discriminate.
  - repeat constructor.
  - exists (str "/Users"), (str "42"), (str "/"). split; [reflexivity|].
    split; [cbn; repeat constructor|]. split; [discriminate|]. split.
    + cbn. intuition discriminate.
    + right. split; reflexivity.
Defined.

Lemma slash_no_terminator (rest : jsstring) :
  no_line_terminator rest -> no_line_terminator (rest ++ [cu "/"]).
Proof. intro H. apply Forall_app. split; [exact H|repeat constructor]. Qed.

Lemma tail_no_terminator (g v : jsstring) (trail : Prop) :
  no_line_terminator g -> (v = [] \/ (trail /\ v = [cu "/"])) ->
  no_line_terminator (g ++ v).
Proof.
  intros Hg [->|[_ ->]]; [rewrite app_nil_r; exact Hg|apply slash_no_terminator; exact Hg].
Qed.

(** What an optional run of any code units consumes. *)
Lemma lang_optional_run (ic gr : bool) (g i : nat) (w rest : jsstring) :
  lang ic (RRepeat 0 (Some 1) gr (RGroup g None any_run)) i w rest
  <-> no_line_terminator w.
Proof.
  split.
  - cbn [lang]. intros (ws & -> & Hws & _ & Hmax).
    destruct ws as [|u [|u' ws]]; [constructor| |cbn in Hmax; lia].
    cbn [List.concat lang_iter] in *. rewrite app_nil_r. destruct Hws as [Hu _].
    exact (lang_any_run_inv ic _ _ _ Hu).
  - intro H. apply lang_once. change (lang ic any_run i w rest).
    apply lang_any_run. exact H.
Qed.

(** X8.  A route made of literal segments and a greedy parameter accepts
    exactly the text of the segments (in any case unless [sensitive] is
    true), a slash, and any code units but line terminators, slashes
    included: the slash is required, and the option [trailing] makes no
    difference. *)
Theorem greedy_route_paths (ws : list jsstring) (n : jsstring) (s t : option bool)
  (path : jsstring) :
  Forall (fun w => token_ok (TLit w)) ws -> token_ok (TGreedy n) -> name_ok n ->
  accepts (compiled (render (List.map TLit ws ++ [TGreedy n])) (Options s t)) path = true
  <-> exists u rest,
        path = u ++ cu "/" :: rest
        /\ (if default false s then u = render (List.map TLit ws)
            else same_ci u (render (List.map TLit ws)))
        /\ no_line_terminator rest.
Proof.
  intros Hws Hp Hn.
  rewrite (literal_then_accepts ws (TGreedy n) s t path Hws Hp
             ltac:(constructor; [exact Hn|constructor])).
  cbn [token_terms fst mk_seq fold_right]. unfold greedy_body.
  split.
  - intros (u & w & v & -> & Hu & Hw & Hv).
    cbn [lang] in Hw.
    destruct Hw as (w1 & w2 & -> & (x1 & x2 & -> & (a & -> & Ha) & y1 & y2 & ->
                                    & (z1 & z2 & -> & Hz & ->) & ->) & ->).
    apply canon_slash in Ha. subst a.
    assert (Hz' : no_line_terminator z1).
    { apply (lang_optional_run (negb (default false s)) true 3
                               (0 + List.length [cu "/"]) z1 ([] ++ [] ++ [] ++ [])).
      exact Hz. }
    rewrite !app_nil_r. cbn [app]. exists u, (z1 ++ v).
    split; [reflexivity|]. split; [exact Hu|].
    exact (tail_no_terminator z1 v _ Hz' Hv).
  - intros (u & rest & -> & Hu & Hrest).
    exists u, (cu "/" :: rest), []. rewrite app_nil_r.
    split; [reflexivity|]. split; [exact Hu|]. split; [|left; reflexivity].
    cbn [lang]. exists (cu "/" :: rest), []. rewrite app_nil_r.
    split; [reflexivity|]. split; [|reflexivity].
    exists [cu "/"], rest. split; [reflexivity|]. split; [exists (cu "/"); auto|].
    exists rest, []. rewrite app_nil_r. split; [reflexivity|]. split; [|reflexivity].
    exists rest, []. rewrite app_nil_r. split; [reflexivity|]. split; [|reflexivity].
    apply (lang_optional_run (negb (default false s)) true 3). exact Hrest.
Qed.

Lemma greedy_route_paths_witness :
  accepts (compiled (render (List.map TLit [str "docs"] ++ [TGreedy (str "path")]))
                    (Options None None)) (str "/docs/a/b/") = true.
Proof.
  apply (greedy_route_paths [str "docs"] (str "path") None None (str "/docs/a/b/")).
  - repeat constructor; discriminate.
  - repeat constructor; discriminate.
  - repeat constructor.
  - exists (str "/docs"), (str "a/b/"). split; [reflexivity|].
    split; cbn; repeat constructor.
Defined.

(** X9.  A route made of literal segments and a wildcard accepts exactly
    the text of the segments (in any case unless [sensitive] is true),
    alone or followed by a slash and any code units but line terminators;
    the option [trailing] makes no difference. *)
Theorem wildcard_route_paths (ws : list jsstring) (s t : option bool)
  (path : jsstring) :
  Forall (fun w => token_ok (TLit w)) ws ->
  accepts (compiled (render (List.map TLit ws ++ [TWild])) (Options s t)) path = true
  <-> exists u,
        (if default false s then u = render (List.map TLit ws)
         else same_ci u (render (List.map TLit ws)))
        /\ (path = u \/ exists rest, path = u ++ cu "/" :: rest /\ no_line_terminator rest).
Proof.
  intros Hws.
  rewrite (literal_then_accepts ws TWild s t path Hws I ltac:(constructor)).
  cbn [token_terms fst mk_seq fold_right]. unfold wildcard_region.
  split.
  - intros (u & w & v & -> & Hu & Hw & Hv). exists u. split; [exact Hu|].
    cbn [lang] in Hw.
    destruct Hw as (w1 & w2 & -> & (zs & -> & Hzs & _ & Hmax) & ->).
    rewrite app_nil_r.
    destruct zs as [|z [|z' zs]]; [| |cbn in Hmax; lia]; cbn [List.concat lang_iter app] in *.
    + destruct Hv as [->|[_ ->]]; [left; rewrite app_nil_r; reflexivity|].
      right. exists []. split; [reflexivity|constructor].
    + rewrite app_nil_r in *. destruct Hzs as [(x1 & x2 & -> & (a & -> & Ha) & Hx) _].
      apply canon_slash in Ha. subst a. apply lang_any_run_inv in Hx.
      right. exists (x2 ++ v). cbn [app].
      split; [reflexivity|]. exact (tail_no_terminator x2 v _ Hx Hv).
  - intros (u & Hu & [->|(rest & -> & Hrest)]).
    + exists u, [], []. rewrite app_nil_r. split; [reflexivity|]. split; [exact Hu|].
      split; [|left; reflexivity].
      cbn [lang]. exists [], []. split; [reflexivity|]. split; [|reflexivity].
      exists []. cbn. repeat split; lia.
    + exists u, (cu "/" :: rest), []. rewrite app_nil_r.
      split; [reflexivity|]. split; [exact Hu|]. split; [|left; reflexivity].
      rewrite <- (app_nil_r (cu "/" :: rest)). apply lang_seq; [|reflexivity].
      apply lang_once.
      change (lang (negb (default false s)) (RSeq (RChar (cu "/")) any_run) 0
                   (cu "/" :: rest) ([] ++ [])).
      apply lang_seq_char; [reflexivity|]. apply lang_any_run. exact Hrest.
Qed.

Lemma wildcard_route_paths_witness :
  accepts (compiled (render (List.map TLit [str "files"] ++ [TWild]))
                    (Options None (Some false))) (str "/files/") = true.
Proof.
  apply (wildcard_route_paths [str "files"] None (Some false) (str "/files/")).
  - repeat constructor; discriminate.
  - exists (str "/files"). split; [cbn; repeat constructor|].
    right. exists []. split; [reflexivity|constructor].
Defined.

(** ** The value of a named parameter *)

(** A lazy quantifier over single code units stops at the first place
    where the rest of the pattern matches. *)
Lemma repeat_lazy_run (m : mstate -> cont -> option mstate) (p : codeunit -> bool)
  (c : cont) (rest : jsstring) (caps : list (option jsstring)) (z : mstate) :
  (forall x k, m x k = step_char p x k) ->
  forall run i fuel,
    List.length run < fuel ->
    Forall (fun a => p a = true) run ->
    (forall pre post, run = pre ++ post -> post <> [] ->
                      c (MState (i + List.length pre) (post ++ rest) caps) = None) ->
    c (MState (i + List.length run) rest caps) = Some z ->
    repeat_matcher m [] false c fuel 0 None (MState i (run ++ rest) caps) = Some z.
Proof.
  intro Hm. induction run as [|a run IH]; intros i fuel Hf Hp Hmid Hend;
    (destruct fuel as [|fuel]; [cbn in Hf; lia|]);
    cbn [repeat_matcher max_is_zero Nat.eqb negb andb pred_max Nat.pred app].
  - cbn [List.length] in Hend. rewrite Nat.add_0_r in Hend.
    unfold or_else. rewrite Hend. reflexivity.
  - pose proof (Hmid [] (a :: run) eq_refl ltac:(discriminate)) as H0.
    cbn [List.length app] in H0. rewrite Nat.add_0_r in H0.
    unfold or_else. rewrite H0. rewrite Hm. unfold clear_caps, step_char.
    cbn [fold_left m_rest m_idx m_caps].
    inversion Hp as [|? ? Ha Hrun]; subst. rewrite Ha.
    replace (S i =? i) with false by (symmetry; apply Nat.eqb_neq; lia).
    apply IH.
    + cbn [List.length] in Hf. lia.
    + exact Hrun.
    + intros pre post E Hpost.
      pose proof (Hmid (a :: pre) post ltac:(cbn; congruence) Hpost) as H.
      cbn [List.length] in H. rewrite Nat.add_succ_r in H. exact H.
    + cbn [List.length] in Hend. rewrite Nat.add_succ_r in Hend. exact Hend.
Qed.

Lemma named_body_run (ic : bool) (items : list class_item) (c : cont)
  (run rest : jsstring) (i : nat) (caps : list (option jsstring)) (z : mstate) :
  run <> [] ->
  Forall (fun a => class_has ic true items a = true) run ->
  (forall pre post, run = pre ++ post -> pre <> [] -> post <> [] ->
                    c (MState (i + List.length pre) (post ++ rest) caps) = None) ->
  c (MState (i + List.length run) rest caps) = Some z ->
  rmatch ic (named_body items) (MState i (run ++ rest) caps) c = Some z.
Proof.
  intros Hne Hp Hmid Hend. destruct run as [|a run]; [congruence|].
  inversion Hp as [|? ? Ha Hrun]; subst.
  unfold named_body.
  change (repeat_matcher (rmatch ic (RClass true items)) [] false (fun y => c y)
            (S (1 + List.length ((a :: run) ++ rest))) 1 None
            (MState i ((a :: run) ++ rest) caps) = Some z).
  cbn [repeat_matcher max_is_zero Nat.eqb negb andb pred_max Nat.pred app].
  unfold clear_caps. cbn [fold_left rmatch]. unfold step_char at 1.
  cbn [m_rest m_idx m_caps]. rewrite Ha.
  apply (repeat_lazy_run _ (class_has ic true items)).
  - intros x k. reflexivity.
  - cbn [List.length]. rewrite length_app. lia.
  - exact Hrun.
  - intros pre post E Hpost.
    pose proof (Hmid (a :: pre) post ltac:(cbn; congruence) ltac:(discriminate) Hpost) as H.
    cbn [List.length] in H. rewrite Nat.add_succ_r in H. exact H.
  - cbn [List.length] in Hend. rewrite Nat.add_succ_r in Hend. exact Hend.
Qed.

(** A run of literal code units consumes its like, whatever the case of
    the letters when the matcher ignores it. *)
Lemma rmatch_chars_ci (ic : bool) (u0 : jsstring) :
  forall (u : jsstring) (R : list regex) (i : nat) (s : jsstring)
         (caps : list (option jsstring)) (c : cont),
    Forall2 (fun a b => canon ic a = canon ic b) u u0 ->
    rmatch ic (mk_seq (List.map RChar u0 ++ R)) (MState i (u ++ s) caps) c
    = rmatch ic (mk_seq R) (MState (i + List.length u) s caps) c.
Proof.
  unfold mk_seq. induction u0 as [|b u0 IH]; intros u R i s caps c Hu;
    inversion Hu as [|a ? u' ? Hab Hu']; subst;
    cbn [List.map app fold_right List.length].
  - rewrite Nat.add_0_r. reflexivity.
  - cbn [rmatch]. unfold step_char. cbn [m_rest m_idx m_caps].
    rewrite Hab, N.eqb_refl, (IH _ _ _ _ _ _ Hu'). rewrite Nat.add_succ_r. reflexivity.
Qed.

Lemma firstn_exact {A} (a b : list A) : firstn (List.length a) (a ++ b) = a.
Proof. induction a as [|x a IH]; [reflexivity|]. cbn. rewrite IH. reflexivity. Qed.




(** ** The value of a greedy parameter *)




(** ** Patterns without markers *)

Lemma static_not (c : codeunit) (a : ascii) :
  static c = true -> In (cu a) (str ":*+?()[]{}\^$|") -> is_ch a c = false.
Proof.
  unfold static. intros H Hin.
  apply orb_true_iff in H. destruct H as [H|H]; [apply orb_true_iff in H; destruct H as [H|H]|].
  - apply (plain_not c a H). right. right. exact Hin.
  - apply N.eqb_eq in H. subst c. unfold is_ch.
    cbn [str list_ascii_of_string List.map In] in Hin.
    repeat (destruct Hin as [Hin|Hin]; [rewrite <- Hin; reflexivity|]). destruct Hin.
  - apply N.eqb_eq in H. subst c. unfold is_ch.
    cbn [str list_ascii_of_string List.map In] in Hin.
    repeat (destruct Hin as [Hin|Hin]; [rewrite <- Hin; reflexivity|]). destruct Hin.
Qed.

Lemma scan_all_id (sc : scanner) (s : jsstring) :
  (forall pre post, s = pre ++ post -> sc post = None) -> scan_all sc s = s.
Proof.
  induction s as [|c s IH]; intro H.
  - apply scan_all_nil. exact (H [] [] eq_refl).
  - rewrite (scan_all_skip _ _ _ (H [] (c :: s) eq_refl)). rewrite IH; [reflexivity|].
    intros pre post E. apply (H (c :: pre) post). cbn. congruence.
Qed.

Lemma marker_needs_colon (s : jsstring) :
  Forall (fun c => is_ch ":" c = false) s -> marker s = None.
Proof.
  intro H. unfold marker, take_ch.
  destruct s as [|a s]; [reflexivity|]. inversion H as [|? ? Ha Hs]; subst.
  destruct (is_ch "/" a).
  - destruct s as [|b s]; [reflexivity|]. inversion Hs as [|? ? Hb Hs']; subst.
    destruct (is_ch "." b).
    + destruct s as [|c s]; [reflexivity|]. inversion Hs' as [|? ? Hc _]; subst.
      rewrite Hc. reflexivity.
    + rewrite Hb. reflexivity.
  - destruct (is_ch "." a).
    + destruct s as [|b s]; [reflexivity|]. inversion Hs as [|? ? Hb _]; subst.
      rewrite Hb. reflexivity.
    + rewrite Ha. reflexivity.
Qed.

Lemma no_marker_steps (s : jsstring) :
  Forall (fun c => is_ch ":" c = false) s ->
  scan_all sc_greedy s = s /\ scan_all sc_named s = s.
Proof.
  intro H.
  assert (Hm : forall pre post, s = pre ++ post -> marker post = None).
  { intros pre post E. apply marker_needs_colon. subst s.
    apply Forall_app in H. exact (proj2 H). }
  split; apply scan_all_id; intros pre post E; unfold sc_greedy, sc_named;
    rewrite (Hm pre post E); reflexivity.
Qed.

Lemma no_star_step (s : jsstring) :
  Forall (fun c => is_ch "*" c = false) s -> scan_all sc_wildcard s = s.
Proof.
  intro H. apply scan_all_id. intros pre post E. subst s.
  apply Forall_app in H. destruct H as [_ H]. unfold sc_wildcard.
  destruct post as [|c post]; [reflexivity|]. inversion H as [|? ? Hc Hp]; subst.
  rewrite Hc. destruct (is_ch "/" c); [|reflexivity].
  destruct post as [|d post]; [reflexivity|]. inversion Hp as [|? ? Hd _]; subst.
  rewrite Hd. reflexivity.
Qed.

(** The fourth step of [compile] puts a backslash before every dot. *)
Lemma dot_step (s : jsstring) : scan_all sc_dot s = escape_dots s.
Proof.
  induction s as [|c s IH]; [apply scan_all_nil; reflexivity|].
  unfold escape_dots. cbn [flat_map]. fold (escape_dots s). rewrite <- IH.
  destruct (is_ch "." c) eqn:E.
  - apply (scan_all_hit _ _ _ _ sc_dot_progresses). unfold sc_dot. rewrite E. reflexivity.
  - apply scan_all_skip. unfold sc_dot. rewrite E. reflexivity.
Qed.

Lemma escape_dots_no_star (q : jsstring) :
  Forall (fun c => static c = true) q ->
  Forall (fun c => is_ch "*" c = false) (escape_dots q).
Proof.
  induction 1 as [|c q Hc Hq IH]; [constructor|].
  unfold escape_dots. cbn [flat_map]. fold (escape_dots q).
  destruct (is_ch "." c).
  - cbn [str list_ascii_of_string List.map app]. repeat constructor. exact IH.
  - cbn [app]. constructor; [|exact IH]. apply (static_not c "*" Hc). vm_compute. tauto.
Qed.

(** The five steps on a pattern without markers that step 1 leaves as it
    is: the dots are escaped and nothing else changes. *)
Lemma rewrite_static (q : jsstring) :
  Forall (fun c => static c = true) q -> tidy q = true -> rewrite q = escape_dots q.
Proof.
  intros Hq Ht. rewrite rewrite_is_rewrite_steps. unfold rewrite_steps.
  rewrite (scan_slashes_fixed q Ht).
  assert (Hc : Forall (fun c => is_ch ":" c = false) q).
  { eapply Forall_impl; [|exact Hq]. intros c Hc. apply (static_not c ":" Hc).
    vm_compute. tauto. }
  destruct (no_marker_steps q Hc) as [-> ->].
  rewrite dot_step. apply no_star_step. apply escape_dots_no_star. exact Hq.
Qed.

Lemma static_literal (c : codeunit) :
  static c = true -> is_ch "." c = false -> literal_char c = true.
Proof.
  intros Hc Hdot. unfold literal_char. apply negb_true_iff. apply not_true_is_false.
  intro E. apply existsb_exists in E. destruct E as (x & Hx & Hcx).
  apply N.eqb_eq in Hcx. subst x. cbn [str list_ascii_of_string List.map In] in Hx.
  repeat (destruct Hx as [Hx|Hx];
          [subst c; try (vm_compute in Hc; discriminate Hc);
           vm_compute in Hdot; discriminate Hdot|]).
  exact Hx.
Qed.

Lemma no_quant_static (q tail : jsstring) :
  Forall (fun c => static c = true) q -> no_quant tail ->
  no_quant (escape_dots q ++ tail).
Proof.
  intros Hq Ht. destruct Hq as [|c q Hc Hq]; [exact Ht|].
  unfold escape_dots. cbn [flat_map]. destruct (is_ch "." c).
  - cbn. repeat split; reflexivity.
  - cbn [app no_quant].
    repeat split; apply (static_not c _ Hc); vm_compute; tauto.
Qed.

Lemma escape_dots_length (q : jsstring) :
  List.length q <= List.length (escape_dots q).
Proof.
  induction q as [|c q IH]; [cbn; lia|]. unfold escape_dots. cbn [flat_map].
  fold (escape_dots q). rewrite length_app. destruct (is_ch "." c); cbn; lia.
Qed.

(** [RegExp] on the text of a pattern without markers. *)
Lemma parse_static (q : jsstring) :
  forall (fuel : nat) (alts cur : list regex) (tail : jsstring) (g : nat),
    Forall (fun c => static c = true) q -> no_quant tail ->
    List.length (escape_dots q ++ tail) < fuel ->
    exists fuel',
      List.length tail < fuel'
      /\ parse_disj fuel alts cur (escape_dots q ++ tail) g
         = parse_disj fuel' alts (rev (List.map RChar q) ++ cur) tail g.
Proof.
  induction q as [|c q IH]; intros fuel alts cur tail g Hq Ht Hf.
  - exists fuel. split; [exact Hf|reflexivity].
  - inversion Hq as [|? ? Hc Hq']; subst.
    pose proof (no_quant_static q tail Hq' Ht) as Hnq.
    unfold escape_dots in *. cbn [flat_map] in *. fold (escape_dots q) in *.
    rewrite <- app_assoc in *. rewrite length_app in Hf.
    destruct fuel as [|fuel]; [lia|].
    destruct (is_ch "." c) eqn:Ed.
    + apply N.eqb_eq in Ed. subst c.
      cbn [str list_ascii_of_string List.map app List.length] in *.
      rewrite (parse_disj_escaped_dot _ _ _ _ _ Hnq).
      destruct (IH fuel alts (RChar (cu ".") :: cur) tail g Hq' Ht ltac:(lia))
        as (f & Hf' & ->).
      exists f. split; [exact Hf'|]. cbn [List.map rev]. rewrite <- app_assoc. reflexivity.
    + cbn [app List.length] in *.
      rewrite (parse_disj_char _ _ _ c _ _ (static_literal c Hc Ed) Hnq).
      destruct (IH fuel alts (RChar c :: cur) tail g Hq' Ht ltac:(lia))
        as (f & Hf' & ->).
      exists f. split; [exact Hf'|]. cbn [List.map rev]. rewrite <- app_assoc. reflexivity.
Qed.

(** The matcher of a pattern without markers. *)
Lemma compile_static (q : jsstring) (o : options) :
  Forall (fun c => static c = true) q -> tidy q = true ->
  compile q o = POk (compiled q o)
  /\ re_ast (compiled q o) = static_ast (default true (trailing o)) q
  /\ re_ignoreCase (compiled q o) = negb (default false (sensitive o)).
Proof.
  intros Hq Ht.
  assert (H : exists re, compile q o = POk re
                         /\ re_ast re = static_ast (default true (trailing o)) q
                         /\ re_ignoreCase re = negb (default false (sensitive o))).
  { unfold compile. rewrite (rewrite_static q Hq Ht).
    set (trail := default true (trailing o)). set (sens := default false (sensitive o)).
    assert (Hsrc : str "^" ++ (if trail then escape_dots q ++ str "(?:\/)?"
                               else escape_dots q) ++ str "$"
                   = cu "^" :: escape_dots q
                       ++ (if trail then str "(?:\/)?" else []) ++ str "$").
    { destruct trail; cbn [str list_ascii_of_string List.map app];
        rewrite <- ?app_assoc; reflexivity. }
    rewrite Hsrc. unfold RegExp.
    replace (parse_flags (if sens then str "" else str "i")) with (POk (negb sens, false))
      by (destruct sens; reflexivity).
    cbn [List.length]. rewrite parse_disj_bol.
    destruct (parse_static q (S (List.length (escape_dots q
                                               ++ (if trail then str "(?:\/)?" else [])
                                               ++ str "$")))
                [] [RBol] ((if trail then str "(?:\/)?" else []) ++ str "$") 0 Hq)
      as (f & Hf & ->).
    { destruct trail; cbn; repeat split; reflexivity. }
    { lia. }
    rewrite (parse_tail trail f _ _ Hf).
    rewrite rev_app_distr, rev_involutive. cbn [rev app].
    change (mk_seq (RBol :: List.map RChar q ++ (if trail then [trailing_slash] else [])
                      ++ [REol]))
      with (static_ast trail q).
    assert (Hg : groups (static_ast trail q) = []).
    { unfold static_ast. rewrite groups_mk_seq, !flat_map_app, groups_chars.
      destruct trail; reflexivity. }
    rewrite Hg. cbn [named List.map has_dup]. eexists. split; [reflexivity|]. cbn. auto. }
  destruct H as (re & Hc & Hast & Hic). unfold compiled. rewrite Hc. auto.
Qed.

Lemma static_accepts (q : jsstring) (o : options) (path : jsstring) :
  Forall (fun c => static c = true) q -> tidy q = true ->
  accepts (compiled q o) path = true
  <-> exists u v,
        path = u ++ v
        /\ (if default false (sensitive o) then u = q else same_ci u q)
        /\ (v = [] \/ (default true (trailing o) = true /\ v = [cu "/"])).
Proof.
  intros Hq Ht. destruct (compile_static q o Hq Ht) as (_ & Hast & Hic).
  set (ic := negb (default false (sensitive o))) in *.
  set (trail := default true (trailing o)) in *.
  assert (HU : forall i u rest,
            lang ic (mk_seq (List.map RChar q)) i u rest
            <-> (if default false (sensitive o) then u = q else same_ci u q)).
  { intros i u rest. rewrite lang_chars. subst ic.
    destruct (default false (sensitive o)); cbn [negb canon].
    - apply Forall2_eq_same.
    - reflexivity. }
  split.
  - intro Hacc. unfold accepts in Hacc.
    destruct (exec (compiled q o) path) as [m|] eqn:Hex; [clear Hacc|discriminate].
    destruct (exec_sound (fun _ _ => True) _ _ _ (groups_sat_any _ _) Hex)
      as (_ & _ & pre & post & Hpath & _ & HL).
    rewrite Hast, Hic in HL. unfold static_ast in HL.
    apply lang_mk_seq_app in HL. destruct HL as (w1 & w2 & Et & H1 & H2).
    cbn [mk_seq fold_right lang] in H1.
    destruct H1 as (x1 & x2 & -> & (-> & Hpre) & ->).
    apply length_zero_iff_nil in Hpre. subst pre. cbn [app List.length] in *.
    apply lang_mk_seq_app in H2. destruct H2 as (u & v & -> & HT & Htail).
    destruct (lang_tail _ _ _ _ _ Htail) as [-> _]. rewrite Et, app_nil_r in Hpath.
    exists u, v. split; [exact Hpath|]. split; [exact (proj1 (HU _ _ _) HT)|].
    apply (lang_tail_iff ic trail) in Htail. exact Htail.
  - intros (u & v & -> & Hu & Hv). apply accepts_complete. rewrite Hast, Hic.
    unfold static_ast.
    apply lang_mk_seq_app. exists [], (u ++ v). split; [reflexivity|]. split.
    + cbn. exists [], []. auto.
    + cbn [List.length Nat.add]. apply lang_mk_seq_app. exists u, v.
      split; [reflexivity|]. split; [exact (proj2 (HU _ _ _) Hu)|].
      apply (lang_tail_iff ic trail). exact Hv.
Qed.

Lemma skip_slashes_forall (P : codeunit -> Prop) (s : jsstring) :
  Forall P s -> Forall P (skip_slashes s).
Proof.
  intro H. destruct (skip_slashes_spec s) as (run & E & _ & _).
  rewrite E in H. apply Forall_app in H. exact (proj2 H).
Qed.

Lemma scan_slashes_forall (P : codeunit -> Prop) (n : nat) :
  forall s, List.length s < n -> Forall P s -> Forall P (scan_all sc_slashes s).
Proof.
  induction n as [|n IH]; intros s Hn Hs; [lia|].
  destruct s as [|c s]; [rewrite scan_all_nil by reflexivity; constructor|].
  cbn [List.length] in Hn. inversion Hs as [|? ? Hc Hs']; subst.
  destruct (sc_slashes (c :: s)) as [[out rest]|] eqn:E.
  - pose proof (sc_slashes_progresses _ _ _ E) as Hp. cbn [List.length] in Hp.
    rewrite (scan_all_hit _ _ _ _ sc_slashes_progresses E).
    unfold sc_slashes in E. destruct (is_ch "/" c) eqn:Ec; [|discriminate].
    apply N.eqb_eq in Ec. subst c.
    pose proof (skip_slashes_forall P s Hs') as Hr.
    destruct (skip_slashes s) as [|x r] eqn:Es.
    + injection E as <- <-. rewrite scan_all_nil by reflexivity. constructor.
    + destruct s as [|d s]; [discriminate|]. destruct (is_ch "/" d); [|discriminate].
      injection E as <- <-. cbn [str list_ascii_of_string List.map app].
      constructor; [exact Hc|]. apply IH; [lia|exact Hr].
  - rewrite (scan_all_skip _ _ _ E). constructor; [exact Hc|]. apply IH; [lia|exact Hs'].
Qed.

Lemma first_step_static (p : jsstring) :
  Forall (fun c => static c = true) p ->
  Forall (fun c => static c = true) (replace p re_slashes (str "$1"))
  /\ tidy (replace p re_slashes (str "$1")) = true.
Proof.
  intro Hp. rewrite (replace_scan _ _ _ re_slashes_refines). split.
  - apply (scan_slashes_forall _ (S (List.length p))); [lia|exact Hp].
  - apply (scan_slashes_tidy (S (List.length p))). lia.
Qed.

Lemma compile_first_step (p : jsstring) (o : options) :
  compile (replace p re_slashes (str "$1")) o = compile p o.
Proof.
  unfold compile, rewrite.
  assert (H : replace (replace p re_slashes (str "$1")) re_slashes (str "$1")
              = replace p re_slashes (str "$1")).
  { rewrite !(replace_scan _ _ _ re_slashes_refines). apply scan_slashes_fixed.
    apply (scan_slashes_tidy (S (List.length p))). lia. }
  rewrite H. reflexivity.
Qed.

(** X12.  A pattern without markers (plain code units, slashes and dots)
    compiles, and its matcher accepts exactly the text the first step
    leaves of it, in any case unless [sensitive] is true, followed by one
    slash or none when [trailing] is true or absent: a dot of the pattern
    matches a dot and nothing else. *)
Theorem static_route_paths (p : jsstring) (o : options) (path : jsstring) :
  Forall (fun c => static c = true) p ->
  compile p o = POk (compiled p o)
  /\ (accepts (compiled p o) path = true
      <-> exists u v,
            path = u ++ v
            /\ (if default false (sensitive o)
                then u = replace p re_slashes (str "$1")
                else same_ci u (replace p re_slashes (str "$1")))
            /\ (v = [] \/ (default true (trailing o) = true /\ v = [cu "/"]))).
Proof.
  intro Hp. destruct (first_step_static p Hp) as [Hq Ht].
  set (q := replace p re_slashes (str "$1")) in *.
  destruct (compile_static q o Hq Ht) as (Hc & _).
  assert (E : compiled p o = compiled q o).
  { unfold compiled. unfold q. rewrite (compile_first_step p o). reflexivity. }
  rewrite E. split.
  - unfold q. rewrite <- (compile_first_step p o). exact Hc.
  - apply static_accepts; assumption.
Qed.

Lemma static_route_paths_witness :
  compile (str "/v1.0//robots.txt/") (Options None None)
  = POk (compiled (str "/v1.0//robots.txt/") (Options None None))
  /\ accepts (compiled (str "/v1.0//robots.txt/") (Options None None))
             (str "/V1.0/robots.txt") = true.
Proof.
  destruct (static_route_paths (str "/v1.0//robots.txt/") (Options None None)
              (str "/V1.0/robots.txt")) as [Hc Ha].
  - repeat constructor.
  - split; [exact Hc|]. apply Ha.
    exists (str "/V1.0/robots.txt"), []. split; [reflexivity|]. split.
    + assert (Hr : replace (str "/v1.0//robots.txt/") re_slashes (str "$1")
                   = str "/v1.0/robots.txt") by (vm_compute; reflexivity).
      cbn [sensitive default]. rewrite Hr. cbn. repeat constructor.
    + left. reflexivity.
Defined.

(** ** Routes made of segments *)

Lemma slash_led_tail (ic trail : bool) :
  slash_led ic ((if trail then [trailing_slash] else []) ++ [REol]).
Proof.
  intros i b s caps c Hb.
  assert (E : (canon ic b =? canon ic 47)%N = false).
  { apply N.eqb_neq. intro H. apply (canon_slash ic) in H. contradiction. }
  destruct trail; cbn -[canon]; rewrite ?E; reflexivity.
Qed.

Lemma slash_led_token (ic : bool) (g : nat) (t : token) (R : list regex) :
  segment_token t = true -> slash_led ic (fst (token_terms g t) ++ R).
Proof.
  intros Ht i b s caps c Hb.
  assert (E : (canon ic b =? canon ic 47)%N = false).
  { apply N.eqb_neq. intro H. apply (canon_slash ic) in H. contradiction. }
  destruct t; try discriminate Ht; cbn [token_terms fst app mk_seq fold_right rmatch];
    unfold step_char; cbn -[canon]; rewrite E; reflexivity.
Qed.

Lemma slash_led_tokens (ic : bool) (g : nat) (ts : list token) (R : list regex) :
  forallb segment_token ts = true -> slash_led ic R ->
  slash_led ic (fst (tokens_terms g ts) ++ R).
Proof.
  destruct ts as [|t ts]; intros Hts HR; [exact HR|].
  cbn [forallb] in Hts. apply andb_true_iff in Hts. destruct Hts as [Ht _].
  cbn [tokens_terms]. pose proof (slash_led_token ic g t) as H.
  destruct (token_terms g t) as [a g1]. destruct (tokens_terms g1 ts) as [b g2].
  cbn [fst] in *. rewrite <- app_assoc. apply H. exact Ht.
Qed.

(** The terms of a named parameter consume the slash and the segment, and
    fill the two groups, when what follows them in the pattern matches
    after the segment and at no place inside it. *)
Lemma param_step_at (ic : bool) (g : nat) (n : jsstring) (R : list regex)
  (seg s : jsstring) (i : nat) (caps : list (option jsstring)) (c : cont) (z : mstate) :
  seg <> [] -> ~ In (cu "/") seg ->
  (forall pre b post caps',
     seg = pre ++ b :: post ->
     rmatch ic (mk_seq R) (MState (S (i + List.length pre)) (b :: post ++ s) caps') c
     = None) ->
  rmatch ic (mk_seq R)
         (MState (S (i + List.length seg)) s
                 (set_nth g (Some (cu "/" :: seg)) (set_nth (S g) (Some seg) caps))) c
  = Some z ->
  rmatch ic (mk_seq (fst (token_terms g (TParam n)) ++ R))
         (MState i (cu "/" :: seg ++ s) caps) c = Some z.
Proof.
  intros Hne Hseg HR Hend.
  cbn [token_terms fst app].
  change (mk_seq (?a :: R)) with (RSeq a (mk_seq R)).
  cbn -[named_body consumed canon mk_seq].
  unfold mk_seq at 1. cbn [fold_right rmatch]. unfold step_char at 1.
  cbn [m_rest m_idx m_caps]. rewrite N.eqb_refl.
  assert (Hcls : Forall (fun a => class_has ic true [CChar (cu "/"); CChar (cu "/")] a
                                  = true) seg).
  { apply Forall_forall. intros a Ha. apply not_slash_class. intros ->. exact (Hseg Ha). }
  apply named_body_run; [exact Hne|exact Hcls| |].
  - intros pre [|b post] E _ Hpost; [congruence|].
    cbn [rmatch]. unfold set_cap. cbn [m_idx m_rest m_caps app Nat.add]. apply HR. exact E.
  - cbn [rmatch]. unfold set_cap, consumed. cbn [m_idx m_rest m_caps Nat.pred].
    replace (S i + List.length seg - S i) with (List.length seg) by lia.
    replace (S i + List.length seg - i) with (S (List.length seg)) by lia.
    cbn [firstn]. rewrite !firstn_exact. exact Hend.
Qed.

Lemma param_step (ic : bool) (g : nat) (n : jsstring) (R : list regex)
  (seg s : jsstring) (i : nat) (caps : list (option jsstring)) (c : cont) (z : mstate) :
  seg <> [] -> ~ In (cu "/") seg -> slash_led ic R ->
  rmatch ic (mk_seq R)
         (MState (S (i + List.length seg)) s
                 (set_nth g (Some (cu "/" :: seg)) (set_nth (S g) (Some seg) caps))) c
  = Some z ->
  rmatch ic (mk_seq (fst (token_terms g (TParam n)) ++ R))
         (MState i (cu "/" :: seg ++ s) caps) c = Some z.
Proof.
  intros Hne Hseg HR. apply param_step_at; [exact Hne|exact Hseg|].
  intros pre b post caps' E. apply HR.
  intros ->. apply Hseg. rewrite E. apply in_or_app. right. left. reflexivity.
Qed.

Lemma join_cons (seg : jsstring) (segs : list jsstring) :
  join (seg :: segs) = cu "/" :: seg ++ join segs.
Proof. reflexivity. Qed.

Lemma fits_literal (ic : bool) (w seg : jsstring) :
  fits (negb ic) (TLit w) seg <-> Forall2 (fun a b => canon ic a = canon ic b) seg w.
Proof.
  destruct ic; cbn [fits negb canon].
  - reflexivity.
  - symmetry. apply Forall2_eq_same.
Qed.

(** The terms of segment tokens consume the segments of a path one after
    the other, when what follows them in the pattern starts with a
    slash. *)
Lemma segments_run (ic : bool) (ts : list token) :
  forall (segs : list jsstring) (g : nat) (R : list regex) (i : nat) (s : jsstring)
         (caps : list (option jsstring)) (c : cont) (z : mstate),
    forallb segment_token ts = true ->
    Forall2 (fits (negb ic)) ts segs ->
    slash_led ic R ->
    rmatch ic (mk_seq R)
           (MState (i + List.length (join segs)) s (captured g ts segs caps)) c = Some z ->
    rmatch ic (mk_seq (fst (tokens_terms g ts) ++ R)) (MState i (join segs ++ s) caps) c
    = Some z.
Proof.
  induction ts as [|t ts IH]; intros segs g R i s caps c z Hts HF HR Hend;
    inversion HF as [|? seg ? segs' Hfit HF']; subst.
  - cbn in *. rewrite Nat.add_0_r in Hend. exact Hend.
  - cbn [forallb] in Hts. apply andb_true_iff in Hts. destruct Hts as [Ht Hts].
    cbn [tokens_terms].
    pose proof (slash_led_tokens ic (snd (token_terms g t)) ts R Hts HR) as HR'.
    specialize (IH segs' (snd (token_terms g t)) R).
    destruct (token_terms g t) as [a g1] eqn:Et. cbn [fst snd] in *.
    destruct (tokens_terms g1 ts) as [b g2] eqn:Ets.
    cbn [fst snd] in *. rewrite <- app_assoc.
    rewrite join_cons in *. rewrite <- app_comm_cons, <- app_assoc.
    cbn [List.length] in Hend. rewrite length_app in Hend.
    destruct t; try discriminate Ht; cbn [token_terms] in Et; injection Et as <- <-.
    + change (RChar (cu "/") :: List.map RChar w) with (List.map RChar (cu "/" :: w)).
      change (cu "/" :: seg ++ join segs' ++ s) with ((cu "/" :: seg) ++ join segs' ++ s).
      rewrite (rmatch_chars_ci ic (cu "/" :: w) (cu "/" :: seg)).
      * apply IH; auto. cbn [captured List.length] in *.
        replace (i + S (List.length seg) + List.length (join segs'))
          with (i + S (List.length seg + List.length (join segs'))) by lia.
        exact Hend.
      * constructor; [reflexivity|]. apply fits_literal. exact Hfit.
    + destruct Hfit as [Hne Hseg].
      pose proof (param_step ic g name (b ++ R) seg (join segs' ++ s) i caps c z
                    Hne Hseg HR') as H.
      cbn [token_terms fst] in H. apply H.
      apply IH; auto. cbn [captured] in Hend.
      replace (S (i + List.length seg) + List.length (join segs'))
        with (i + S (List.length seg + List.length (join segs'))) by lia.
      exact Hend.
Qed.

Lemma set_nth_length {A} (n : nat) (v : A) (l : list A) :
  List.length (set_nth n v l) = List.length l.
Proof.
  revert n. induction l as [|a l IH]; intros [|n]; cbn; auto.
Qed.

Lemma nth_set_nth_same {A} (n : nat) (v d : A) (l : list A) :
  n < List.length l -> nth n (set_nth n v l) d = v.
Proof.
  revert n. induction l as [|a l IH]; intros [|n] H; cbn in *; try lia; auto.
  apply IH. lia.
Qed.

Lemma nth_set_nth_other {A} (n k : nat) (v d : A) (l : list A) :
  k <> n -> nth k (set_nth n v l) d = nth k l d.
Proof.
  revert n k. induction l as [|a l IH]; intros [|n] [|k] H; cbn; try congruence; auto.
Qed.


Lemma captured_below (ts : list token) :
  forall segs g caps k, k < g -> nth k (captured g ts segs caps) None = nth k caps None.
Proof.
  induction ts as [|t ts IH]; intros [|seg segs] g caps k Hk; try reflexivity.
  - destruct t; reflexivity.
  - destruct t; cbn [captured]; rewrite IH by lia; try reflexivity.
    rewrite !nth_set_nth_other by lia. reflexivity.
Qed.

(** The object [groups] of the match: the segments of the named
    parameters under their names, in the order of the pattern. *)
Lemma captured_bindings (ts : list token) :
  forall segs g caps,
    forallb segment_token ts = true -> List.length ts = List.length segs ->
    snd (tokens_terms g ts) <= List.length caps ->
    List.map (fun gn => (snd gn, nth (Nat.pred (fst gn)) (captured g ts segs caps) None))
             (named (flat_map groups (fst (tokens_terms g ts))))
    = bindings ts segs.
Proof.
  induction ts as [|t ts IH]; intros [|seg segs] g caps Hts Hlen Hcaps;
    try discriminate Hlen; [reflexivity|].
  cbn [forallb] in Hts. apply andb_true_iff in Hts. destruct Hts as [Ht Hts].
  injection Hlen as Hlen. cbn [tokens_terms] in *.
  destruct t as [w|n|n| |n]; try discriminate Ht; cbn [token_terms] in *.
  - specialize (IH segs g caps Hts Hlen).
    destruct (tokens_terms g ts) as [b g2]. cbn [fst snd] in *.
    rewrite flat_map_app.
    change (RChar (cu "/") :: List.map RChar w) with (List.map RChar (cu "/" :: w)).
    rewrite groups_chars. cbn [app captured bindings]. apply IH. exact Hcaps.
  - pose proof (tokens_mono ts (S (S g))) as Hmono.
    specialize (IH segs (S (S g))
                   (set_nth g (Some (cu "/" :: seg)) (set_nth (S g) (Some seg) caps))
                   Hts Hlen).
    destruct (tokens_terms (S (S g)) ts) as [b g2]. cbn [fst snd] in *.
    cbn [flat_map groups mk_seq fold_right app named_body named List.map fst snd
         Nat.pred captured bindings].
    rewrite IH by (rewrite !set_nth_length; exact Hcaps).
    rewrite captured_below by lia.
    rewrite nth_set_nth_other by lia. rewrite nth_set_nth_same by lia. reflexivity.
Qed.



Lemma Forall2_same_length {A B} (P : A -> B -> Prop) (l : list A) (l' : list B) :
  Forall2 P l l' -> List.length l = List.length l'.
Proof. induction 1; cbn; congruence. Qed.

(** The match of a route made of segments on a path made of as many
    segments that fit. *)
Lemma segments_exec (ts : list token) (segs : list jsstring) (s t : option bool)
  (v : jsstring) :
  Forall token_ok ts -> forallb segment_token ts = true ->
  Forall name_ok (flat_map token_names ts) -> NoDup (flat_map token_names ts) ->
  Forall2 (fits (default false s)) ts segs ->
  (v = [] \/ (default true t = true /\ v = [cu "/"])) ->
  exists m,
    exec (compiled (render ts) (Options s t)) (join segs ++ v) = Some m
    /\ mr_groups m = match bindings ts segs with
                     | [] => None
                     | bs => Some bs
                     end.
Proof.
  intros Hok Hseg Hn Hnd HF Hv.
  destruct (compiled_grammar ts (Options s t) Hok Hn Hnd) as (Hast & Hic & Hng).
  cbn [sensitive trailing] in Hast, Hic.
  unfold grammar_ast in Hast.
  rewrite (exec_anchored _ _ _ Hast). unfold match_at. rewrite Hast, Hng, Hic.
  set (ic := negb (default false s)). set (trail := default true t) in *.
  set (N := snd (tokens_terms 0 ts)).
  set (caps' := captured 0 ts segs (repeat None N)).
  assert (HF' : Forall2 (fits (negb ic)) ts segs).
  { subst ic. rewrite negb_involutive. exact HF. }
  assert (HA : exists z,
            rmatch ic (mk_seq ([RBol] ++ fst (tokens_terms 0 ts)
                               ++ (if trail then [trailing_slash] else []) ++ [REol]))
                   (MState 0 (join segs ++ v) (repeat None N)) (fun y => Some y) = Some z
            /\ m_caps z = caps').
  { cbn [app]. change (mk_seq (RBol :: ?L)) with (RSeq RBol (mk_seq L)).
    cbn [rmatch m_idx Nat.eqb].
    destruct Hv as [->|[Ht ->]].
    - eexists. split; [|shelve].
      apply segments_run; [exact Hseg|exact HF'|apply slash_led_tail|].
      fold caps'. destruct trail; cbn -[canon]; reflexivity.
    - eexists. split; [|shelve].
      apply segments_run; [exact Hseg|exact HF'|apply slash_led_tail|].
      rewrite Ht.
      repeat (progress (cbn -[canon Nat.eqb]; rewrite ?N.eqb_refl; norm_idx)).
      reflexivity. }
  Unshelve. all: try reflexivity.
  destruct HA as (z & -> & Hcaps). eexists. split; [reflexivity|].
  cbn [mr_groups]. rewrite Hcaps. unfold groups_object.
  rewrite groups_mk_seq, !flat_map_app, !named_app.
  assert (Ht : named (flat_map groups (if trail then [trailing_slash] else [])) = [])
    by (destruct trail; reflexivity).
  rewrite Ht. cbn [flat_map groups named app]. rewrite app_nil_r.
  pose proof (captured_bindings ts segs 0 (repeat None N) Hseg
                (Forall2_same_length _ _ _ HF)
                ltac:(rewrite repeat_length; unfold N; lia)) as HB.
  fold caps' in HB. rewrite <- HB.
  destruct (named (flat_map groups (fst (tokens_terms 0 ts)))); reflexivity.
Qed.

(** What the terms of segment tokens consume: as many segments as there
    are tokens, each after a slash and fitting its token. *)
Lemma lang_segments (ic : bool) (ts : list token) :
  forallb segment_token ts = true ->
  forall g i w rest,
    lang ic (mk_seq (fst (tokens_terms g ts))) i w rest ->
    exists segs, w = join segs /\ Forall2 (fits (negb ic)) ts segs.
Proof.
  induction ts as [|t ts IH]; intros Hts g i w rest H.
  - cbn in H. subst w. exists []. split; [reflexivity|constructor].
  - cbn [forallb] in Hts. apply andb_true_iff in Hts. destruct Hts as [Ht Hts].
    cbn [tokens_terms] in H. specialize (IH Hts (snd (token_terms g t))).
    destruct (token_terms g t) as [a g1] eqn:Et. cbn [snd] in IH.
    destruct (tokens_terms g1 ts) as [b g2] eqn:Ets. cbn [fst] in *.
    apply lang_mk_seq_app in H. destruct H as (w1 & w2 & -> & H1 & H2).
    destruct (IH _ _ _ H2) as (segs & -> & HF).
    destruct t; try discriminate Ht; cbn [token_terms] in Et; injection Et as <- <-.
    + apply (lang_chars ic (cu "/" :: w)) in H1. inversion H1 as [|a ? seg ? Ha Hseg]; subst.
      apply canon_slash in Ha. subst a. exists (seg :: segs). split; [reflexivity|].
      constructor; [apply fits_literal; exact Hseg|exact HF].
    + cbn [mk_seq fold_right lang] in H1.
      destruct H1 as (x & y & -> & (x1 & x2 & -> & (a & -> & Ha) & y1 & y2 & -> & Hy & ->)
                      & ->).
      apply canon_slash in Ha. subst a.
      apply lang_named_region in Hy. exists (y1 :: segs). rewrite !app_nil_r.
      split; [reflexivity|]. constructor; [exact Hy|exact HF].
Qed.

(** X13.  A route made of literal segments and named parameters, in any
    order, accepts exactly the paths made of as many segments, each after a
    slash: the segment of a literal is the literal (in any case unless
    [sensitive] is true), the segment of a parameter is not empty and holds
    no slash; with [trailing] true or absent one more slash may follow. *)
Theorem segment_route_paths (ts : list token) (s t : option bool) (path : jsstring) :
  Forall token_ok ts -> forallb segment_token ts = true ->
  Forall name_ok (flat_map token_names ts) -> NoDup (flat_map token_names ts) ->
  accepts (compiled (render ts) (Options s t)) path = true
  <-> exists segs v,
        path = join segs ++ v
        /\ Forall2 (fits (default false s)) ts segs
        /\ (v = [] \/ (default true t = true /\ v = [cu "/"])).
Proof.
  intros Hok Hseg Hn Hnd. split.
  - intro Hacc. apply (grammar_accepts ts (Options s t) path Hok Hn Hnd) in Hacc.
    destruct Hacc as (u & v & -> & Hu & Hv). cbn [sensitive trailing] in Hu, Hv.
    destruct (lang_segments _ ts Hseg _ _ _ _ Hu) as (segs & -> & HF).
    rewrite negb_involutive in HF. exists segs, v. split; [reflexivity|].
    split; [exact HF|]. apply lang_tail_iff in Hv. exact Hv.
  - intros (segs & v & -> & HF & Hv).
    destruct (segments_exec ts segs s t v Hok Hseg Hn Hnd HF Hv) as (m & Hex & _).
    unfold accepts. rewrite Hex. reflexivity.
Qed.

Lemma segment_route_paths_witness :
  accepts (compiled (render [TLit (str "users"); TParam (str "id"); TLit (str "posts");
                             TParam (str "post")])
                    (Options None None))
          (str "/Users/7/posts/a.b/") = true.
Proof.
  apply (segment_route_paths
           [TLit (str "users"); TParam (str "id"); TLit (str "posts"); TParam (str "post")]
           None None (str "/Users/7/posts/a.b/")).
  - repeat constructor; discriminate.
  - reflexivity.
  - repeat constructor.
  - repeat constructor; cbn; intuition discriminate.
  - exists [str "Users"; str "7"; str "posts"; str "a.b"], (str "/").
    split; [reflexivity|]. split.
    + constructor; [cbn; repeat constructor|].
      constructor; [cbn; split; [discriminate|intuition discriminate]|].
      constructor; [cbn; repeat constructor|].
      constructor; [cbn; split; [discriminate|intuition discriminate]|constructor].
    + right. split; reflexivity.
Defined.



(** ** A parameter with an extension *)

Lemma canon_dot (ic : bool) (a : codeunit) :
  canon ic a = canon ic (cu ".") -> a = cu ".".
Proof.
  destruct ic; cbn; [|auto]. unfold upcase, is_lower.
  destruct (97 <=? a)%N eqn:E1; cbn [andb]; [|auto].
  destruct (a <=? 122)%N eqn:E2; [|auto].
  apply N.leb_le in E1. intro H. lia.
Qed.

Lemma ext_class (ic : bool) (c : codeunit) :
  class_has ic true [CChar (cu "."); CChar (cu "/")] c = true
  <-> c <> cu "." /\ c <> cu "/".
Proof.
  unfold class_has. cbn [existsb item_has]. rewrite orb_false_r.
  destruct (N.eqb_spec (canon ic (cu ".")) (canon ic c)) as [E|E]; cbn [xorb negb orb].
  - split; [discriminate|]. intros [H _]. exfalso. apply H. apply (canon_dot ic). congruence.
  - destruct (N.eqb_spec (canon ic (cu "/")) (canon ic c)) as [E'|E']; cbn [negb].
    + split; [discriminate|]. intros [_ H]. exfalso. apply H. apply (canon_slash ic).
      congruence.
    + split; [|reflexivity]. intros _. split; intros ->; [apply E|apply E']; reflexivity.
Qed.

(** A lazy quantifier over code units other than [d] fails on an input
    that holds [d], when what follows it fails on every such input. *)
Lemma repeat_lazy_fail (m : mstate -> cont -> option mstate) (p : codeunit -> bool)
  (c : cont) (caps : list (option jsstring)) (d : codeunit) :
  (forall x k, m x k = step_char p x k) ->
  (forall a, p a = true -> a <> d) ->
  (forall i s, In d s -> c (MState i s caps) = None) ->
  forall fuel mn s i,
    In d s -> repeat_matcher m [] false c fuel mn None (MState i s caps) = None.
Proof.
  intros Hm Hp Hc. induction fuel as [|fuel IH]; intros mn s i Hd; [reflexivity|].
  cbn [repeat_matcher max_is_zero]. unfold clear_caps. cbn [fold_left].
  rewrite Hm. unfold step_char. cbn [m_rest m_idx m_caps].
  assert (Hstep : match s with
                  | [] => None
                  | a :: rest =>
                      if p a
                      then if (mn =? 0) && (S i =? i) then None
                           else repeat_matcher m [] false c fuel (Nat.pred mn) None
                                               (MState (S i) rest caps)
                      else None
                  end = None).
  { destruct s as [|a rest]; [reflexivity|]. destruct (p a) eqn:Ea; [|reflexivity].
    destruct ((mn =? 0) && (S i =? i)); [reflexivity|]. apply IH.
    destruct Hd as [->|Hd]; [|exact Hd]. exfalso. exact (Hp _ Ea eq_refl). }
  destruct (mn =? 0) eqn:Emn; cbn [negb].
  - unfold or_else. rewrite (Hc _ _ Hd). cbn [andb] in Hstep. exact Hstep.
  - cbn [andb] in Hstep. exact Hstep.
Qed.

Lemma named_body_fail (ic : bool) (items : list class_item) (c : cont) (d : codeunit)
  (s : jsstring) (i : nat) (caps : list (option jsstring)) :
  (forall a, class_has ic true items a = true -> a <> d) ->
  (forall i' s', In d s' -> c (MState i' s' caps) = None) ->
  In d s ->
  rmatch ic (named_body items) (MState i s caps) c = None.
Proof.
  intros Hp Hc Hd. unfold named_body. cbn [rmatch groups].
  apply (repeat_lazy_fail _ (class_has ic true items) _ caps d); auto.
Qed.

(** The end of the matcher fails on an input that holds a dot. *)
Lemma tail_fails_dot (ic trail : bool) (i : nat) (s : jsstring)
  (caps : list (option jsstring)) (c : cont) :
  In (cu ".") s ->
  rmatch ic (mk_seq ((if trail then [trailing_slash] else []) ++ [REol]))
         (MState i s caps) c = None.
Proof.
  intro Hd. destruct s as [|a [|b s]]; [destruct Hd| |].
  - destruct Hd as [->|[]]. destruct trail, ic; reflexivity.
  - destruct trail; cbn -[canon Nat.eqb]; [|reflexivity].
    destruct (canon ic a =? canon ic 47)%N; [|reflexivity].
    destruct (S i =? i); reflexivity.
Qed.

(** The terms of an extension followed by the end of the matcher fail when
    a dot comes after the first code unit. *)
Lemma ext_then_tail_fails (ic trail : bool) (g : nat) (e : jsstring) (i : nat)
  (b : codeunit) (s : jsstring) (caps : list (option jsstring)) (c : cont) :
  In (cu ".") s ->
  rmatch ic (mk_seq (fst (token_terms g (TExt e))
                     ++ (if trail then [trailing_slash] else []) ++ [REol]))
         (MState i (b :: s) caps) c = None.
Proof.
  intro Hd. cbn [token_terms fst app].
  change (mk_seq (?a :: ?L)) with (RSeq a (mk_seq L)).
  cbn -[named_body consumed canon mk_seq].
  unfold mk_seq at 1. cbn [fold_right rmatch]. unfold step_char at 1.
  cbn [m_rest m_idx m_caps].
  destruct (canon ic b =? canon ic 46)%N; [|reflexivity].
  apply (named_body_fail ic _ _ (cu ".")).
  - intros a Ha. apply ext_class in Ha. tauto.
  - intros i' s' Hs'. cbn [rmatch]. unfold set_cap. cbn [m_idx m_rest m_caps].
    apply tail_fails_dot. exact Hs'.
  - exact Hd.
Qed.

(** The terms of an extension consume the dot and the extension, and fill
    the two groups. *)
Lemma ext_step (ic : bool) (g : nat) (e : jsstring) (R : list regex)
  (ext s : jsstring) (i : nat) (caps : list (option jsstring)) (c : cont) (z : mstate) :
  ext <> [] -> ~ In (cu ".") ext -> ~ In (cu "/") ext -> slash_led ic R ->
  rmatch ic (mk_seq R)
         (MState (S (i + List.length ext)) s
                 (set_nth g (Some (cu "." :: ext)) (set_nth (S g) (Some ext) caps))) c
  = Some z ->
  rmatch ic (mk_seq (fst (token_terms g (TExt e)) ++ R))
         (MState i (cu "." :: ext ++ s) caps) c = Some z.
Proof.
  intros Hne Hdot Hsl HR Hend.
  cbn [token_terms fst app].
  change (mk_seq (?a :: R)) with (RSeq a (mk_seq R)).
  cbn -[named_body consumed canon mk_seq].
  unfold mk_seq at 1. cbn [fold_right rmatch]. unfold step_char at 1.
  cbn [m_rest m_idx m_caps]. rewrite N.eqb_refl.
  assert (Hcls : Forall (fun a => class_has ic true [CChar (cu "."); CChar (cu "/")] a
                                  = true) ext).
  { apply Forall_forall. intros a Ha. apply ext_class.
    split; intros ->; [exact (Hdot Ha)|exact (Hsl Ha)]. }
  apply named_body_run; [exact Hne|exact Hcls| |].
  - intros pre [|b post] E _ Hpost; [congruence|].
    cbn [rmatch]. unfold set_cap. cbn [m_idx m_rest m_caps app Nat.add]. apply HR.
    intros ->. apply Hsl. rewrite E. apply in_or_app. right. left. reflexivity.
  - cbn [rmatch]. unfold set_cap, consumed. cbn [m_idx m_rest m_caps Nat.pred].
    replace (S i + List.length ext - S i) with (List.length ext) by lia.
    replace (S i + List.length ext - i) with (S (List.length ext)) by lia.
    cbn [firstn]. rewrite !firstn_exact. exact Hend.
Qed.

(** What the region of an extension consumes: one or more code units other
    than the dot and the slash. *)
Lemma lang_ext_region (ic : bool) (i : nat) (w rest : jsstring) :
  lang ic (named_body [CChar (cu "."); CChar (cu "/")]) i w rest ->
  w <> [] /\ ~ In (cu ".") w /\ ~ In (cu "/") w.
Proof.
  intro H.
  destruct (negated_class_run_lang ic (named_body [CChar (cu "."); CChar (cu "/")])
              [CChar (cu "."); CChar (cu "/")] i w rest eq_refl H) as [Hne Hex].
  split; [exact Hne|]. split; apply Hex; reflexivity.
Qed.

Lemma extension_exec (ws : list jsstring) (n e : jsstring) (s t : option bool)
  (u name ext v : jsstring) :
  Forall (fun w => token_ok (TLit w)) ws -> token_ok (TParam n) -> token_ok (TExt e) ->
  name_ok n -> name_ok e -> n <> e ->
  (if default false s then u = render (List.map TLit ws)
   else same_ci u (render (List.map TLit ws))) ->
  name <> [] -> ~ In (cu "/") name ->
  ext <> [] -> ~ In (cu ".") ext -> ~ In (cu "/") ext ->
  (v = [] \/ (default true t = true /\ v = [cu "/"])) ->
  exists m,
    exec (compiled (render (List.map TLit ws ++ [TParam n; TExt e])) (Options s t))
         (u ++ cu "/" :: name ++ cu "." :: ext ++ v) = Some m
    /\ mr_groups m = Some [(n, Some name); (e, Some ext)].
Proof.
  intros Hws Hp He Hn Hne' Hdiff Hu Hname Hnsl Hext Hedot Hesl Hv.
  assert (Hnames : flat_map token_names (List.map TLit ws ++ [TParam n; TExt e]) = [n; e])
    by (rewrite flat_map_app, literal_names; reflexivity).
  destruct (compiled_grammar (List.map TLit ws ++ [TParam n; TExt e]) (Options s t))
    as (Hast & Hic & Hng).
  { apply Forall_app. split; [apply Forall_map; exact Hws|].
    constructor; [exact Hp|constructor; [exact He|constructor]]. }
  { rewrite Hnames. constructor; [exact Hn|constructor; [exact Hne'|constructor]]. }
  { rewrite Hnames. constructor; [intros [H|[]]; congruence|].
    constructor; [intros []|constructor]. }
  rewrite tokens_terms_app, literal_terms in Hng. cbn in Hng.
  unfold grammar_ast in Hast. rewrite tokens_terms_app, literal_terms in Hast.
  cbn [fst snd sensitive trailing] in Hast, Hic.
  assert (ET : fst (tokens_terms 0 [TParam n; TExt e])
               = fst (token_terms 0 (TParam n)) ++ fst (token_terms 2 (TExt e)))
    by reflexivity.
  rewrite ET in Hast. clear ET.
  set (u0 := render (List.map TLit ws)) in *.
  rewrite (exec_anchored _ _ _ Hast).
  unfold match_at. rewrite Hast, Hng, Hic.
  set (ic := negb (default false s)). set (trail := default true t) in *.
  assert (Hu' : Forall2 (fun a b => canon ic a = canon ic b) u u0).
  { subst ic. destruct (default false s); cbn [negb canon].
    - apply Forall2_eq_same. exact Hu.
    - exact Hu. }
  clear Hast Hic Hng Hu.
  cbn [app]. change (mk_seq (RBol :: ?L)) with (RSeq RBol (mk_seq L)).
  cbn [rmatch m_idx Nat.eqb]. rewrite <- app_assoc, (rmatch_chars_ci ic u0 u _ _ _ _ _ Hu').
  cbn [Nat.add]. generalize (List.length u). intro k.
  set (tail := (if trail then [trailing_slash] else []) ++ [REol]).
  assert (HA : exists z,
            rmatch ic
                   (mk_seq ((fst (token_terms 0 (TParam n)) ++ fst (token_terms 2 (TExt e)))
                            ++ tail))
                   (MState k (cu "/" :: name ++ cu "." :: ext ++ v) (repeat None 4))
                   (fun y => Some y) = Some z
            /\ m_caps z = [Some (cu "/" :: name); Some name;
                           Some (cu "." :: ext); Some ext]).
  { rewrite <- app_assoc.
    assert (Hend : exists z,
              rmatch ic (mk_seq tail)
                     (MState (S (S (k + List.length name) + List.length ext)) v
                             [Some (cu "/" :: name); Some name;
                              Some (cu "." :: ext); Some ext])
                     (fun y => Some y) = Some z
              /\ m_caps z = [Some (cu "/" :: name); Some name;
                             Some (cu "." :: ext); Some ext]).
    { subst tail. destruct Hv as [->|[Ht ->]].
      - eexists. split; [destruct trail; cbn -[canon]; reflexivity|reflexivity].
      - rewrite Ht. eexists. split; [|shelve].
        repeat (progress (cbn -[canon Nat.eqb]; rewrite ?N.eqb_refl; norm_idx)).
        reflexivity. }
    Unshelve. all: try reflexivity.
    destruct Hend as (z & Hz & Hcaps). exists z. split; [|exact Hcaps].
    apply param_step_at; [exact Hname|exact Hnsl| |].
    - intros pre b post caps' E. subst tail.
      apply ext_then_tail_fails. apply in_or_app. right. left. reflexivity.
    - apply ext_step; [exact Hext|exact Hedot|exact Hesl|apply slash_led_tail|].
      exact Hz. }
  destruct HA as (z & -> & Hcaps). eexists. split; [reflexivity|].
  cbn [mr_groups]. rewrite Hcaps. unfold groups_object.
  change (RSeq RBol (mk_seq ?L)) with (mk_seq (RBol :: L)).
  rewrite groups_mk_seq. cbn [flat_map groups app]. rewrite !flat_map_app, groups_chars.
  subst tail. destruct trail; reflexivity.
Qed.

(** X15.  A route made of literal segments, a named parameter and an
    extension, as [/img/:name.:ext], accepts exactly the text of the
    segments (in any case unless [sensitive] is true), a slash, one or more
    code units other than the slash, a dot, one or more code units other
    than the dot and the slash, and, when [trailing] is true or absent, one
    slash or none. *)
Theorem extension_route_paths (ws : list jsstring) (n e : jsstring) (s t : option bool)
  (path : jsstring) :
  Forall (fun w => token_ok (TLit w)) ws -> token_ok (TParam n) -> token_ok (TExt e) ->
  name_ok n -> name_ok e -> n <> e ->
  accepts (compiled (render (List.map TLit ws ++ [TParam n; TExt e])) (Options s t)) path
  = true
  <-> exists u name ext v,
        path = u ++ cu "/" :: name ++ cu "." :: ext ++ v
        /\ (if default false s then u = render (List.map TLit ws)
            else same_ci u (render (List.map TLit ws)))
        /\ name <> [] /\ ~ In (cu "/") name
        /\ ext <> [] /\ ~ In (cu ".") ext /\ ~ In (cu "/") ext
        /\ (v = [] \/ (default true t = true /\ v = [cu "/"])).
Proof.
  intros Hws Hp He Hn Hne Hdiff. split.
  - intro Hacc.
    assert (Hnames : flat_map token_names (List.map TLit ws ++ [TParam n; TExt e]) = [n; e])
      by (rewrite flat_map_app, literal_names; reflexivity).
    apply grammar_accepts in Hacc.
    + destruct Hacc as (x & v & -> & Hx & Hv). cbn [sensitive trailing] in Hx, Hv.
      rewrite tokens_terms_app, literal_terms in Hx. cbn [fst snd] in Hx.
      apply lang_mk_seq_app in Hx. destruct Hx as (u & w & -> & Hu & Hw).
      apply lang_chars in Hu.
      cbn [tokens_terms token_terms fst app mk_seq fold_right lang] in Hw.
      destruct Hw as (w1 & w2 & -> & (x1 & x2 & -> & (a & -> & Ha) & y1 & y2 & -> & Hy & ->)
                      & (w3 & w4 & -> & (x3 & x4 & -> & (b & -> & Hb)
                                         & y3 & y4 & -> & Hy' & ->) & ->)).
      apply canon_slash in Ha. subst a. apply canon_dot in Hb. subst b.
      apply lang_named_region in Hy. destruct Hy as [Hy1 Hy2].
      apply lang_ext_region in Hy'. destruct Hy' as (Hz1 & Hz2 & Hz3).
      exists u, y1, y3, v. rewrite !app_nil_r. cbn [app]. rewrite <- !app_assoc.
      cbn [app]. rewrite <- !app_assoc. cbn [app].
      split; [reflexivity|]. split.
      * destruct (default false s); cbn [negb canon] in Hu.
        -- apply Forall2_eq_same. exact Hu.
        -- exact Hu.
      * apply lang_tail_iff in Hv. auto 10.
    + apply Forall_app. split; [apply Forall_map; exact Hws|].
      constructor; [exact Hp|constructor; [exact He|constructor]].
    + rewrite Hnames. constructor; [exact Hn|constructor; [exact Hne|constructor]].
    + rewrite Hnames. constructor; [intros [Hq|[]]; congruence|].
      constructor; [intros []|constructor].
  - intros (u & name & ext & v & -> & Hu & H1 & H2 & H3 & H4 & H5 & Hv).
    destruct (extension_exec ws n e s t u name ext v Hws Hp He Hn Hne Hdiff Hu
                H1 H2 H3 H4 H5 Hv) as (m & Hex & _).
    unfold accepts. rewrite Hex. reflexivity.
Qed.

Lemma extension_route_paths_witness :
  accepts (compiled (render (List.map TLit [str "img"]
                             ++ [TParam (str "name"); TExt (str "ext")]))
                    (Options None None)) (str "/img/a.b.PNG") = true.
Proof.
  apply (extension_route_paths [str "img"] (str "name") (str "ext") None None
           (str "/img/a.b.PNG")).
  - repeat constructor; discriminate.
  - repeat constructor; discriminate.
  - repeat constructor; discriminate.
  - repeat constructor.
  - repeat constructor.
  - discriminate.
  - exists (str "/img"), (str "a.b"), (str "PNG"), [].
    split; [reflexivity|]. split; [cbn; repeat constructor|].
    split; [discriminate|]. split; [cbn; intuition discriminate|].
    split; [discriminate|]. split; [cbn; intuition discriminate|].
    split; [cbn; intuition discriminate|]. left. reflexivity.
Defined.



(** ** Patterns that hold regular expression syntax *)

Lemma escape_dots_keeps_stars_out (q : jsstring) :
  Forall (fun c => is_ch "*" c = false) q ->
  Forall (fun c => is_ch "*" c = false) (escape_dots q).
Proof.
  induction 1 as [|c q Hc Hq IH]; [constructor|].
  unfold escape_dots. cbn [flat_map]. fold (escape_dots q).
  destruct (is_ch "." c).
  - cbn [str list_ascii_of_string List.map app]. repeat constructor. exact IH.
  - cbn [app]. constructor; [exact Hc|exact IH].
Qed.

(** X17.  Of the characters that mean something to [RegExp], [compile]
    escapes the dot and no other: a pattern without a colon and without a
    star reaches [RegExp] as the first step leaves it, with a backslash
    before each dot, between [^] and the end of the expression. *)
Theorem unmarked_pattern_source (p : jsstring) (o : options) :
  Forall (fun c => is_ch ":" c = false /\ is_ch "*" c = false) p ->
  compile p o
  = RegExp (str "^"
            ++ (if default true (trailing o)
                then escape_dots (replace p re_slashes (str "$1")) ++ str "(?:\/)?"
                else escape_dots (replace p re_slashes (str "$1")))
            ++ str "$")
           (if default false (sensitive o) then str "" else str "i").
Proof.
  intro Hp.
  assert (Hr : rewrite p = escape_dots (replace p re_slashes (str "$1"))).
  { rewrite rewrite_is_rewrite_steps. unfold rewrite_steps.
    rewrite (replace_scan _ _ _ re_slashes_refines).
    set (q := scan_all sc_slashes p).
    assert (Hq : Forall (fun c => is_ch ":" c = false /\ is_ch "*" c = false) q).
    { apply (scan_slashes_forall _ (S (List.length p))); [lia|exact Hp]. }
    assert (Hc : Forall (fun c => is_ch ":" c = false) q).
    { eapply Forall_impl; [|exact Hq]. intros c H. exact (proj1 H). }
    assert (Hs : Forall (fun c => is_ch "*" c = false) q).
    { eapply Forall_impl; [|exact Hq]. intros c H. exact (proj2 H). }
    destruct (no_marker_steps q Hc) as [-> ->].
    rewrite dot_step. apply no_star_step. apply escape_dots_keeps_stars_out. exact Hs. }
  unfold compile. rewrite Hr. reflexivity.
Qed.

Lemma unmarked_pattern_source_witness :
  compile (str "/v1.0//(a|b)+/") (Options None None)
  = RegExp (str "^/v1\.0/(a|b)+(?:\/)?$") (str "i").
Proof.
  rewrite (unmarked_pattern_source (str "/v1.0//(a|b)+/") (Options None None)).
  - reflexivity.
  - repeat constructor.
Defined.

(** ** Segments before a wildcard or a greedy parameter *)













(** ** The root route *)

Lemma tidy_slashes_nil (q : jsstring) :
  Forall (fun c => c = cu "/") q -> tidy q = true -> q = [].
Proof.
  intros Hq Ht. destruct q as [|c q]; [reflexivity|].
  inversion Hq as [|? ? Hc Hq']; subst. cbn [tidy] in Ht.
  change (is_ch "/" (cu "/")) with true in Ht. cbn iota in Ht.
  destruct q as [|d q]; [discriminate|].
  inversion Hq' as [|? ? Hd _]; subst.
  change (is_ch "/" (cu "/")) with true in Ht. discriminate.
Qed.

Lemma first_step_slashes (k : nat) :
  replace (repeat (cu "/") k) re_slashes (str "$1") = [].
Proof.
  apply tidy_slashes_nil.
  - rewrite (replace_scan _ _ _ re_slashes_refines).
    apply (scan_slashes_forall _ (S (List.length (repeat (cu "/") k)))); [lia|].
    apply Forall_forall. intros c Hc. exact (repeat_spec _ _ _ Hc).
  - rewrite (replace_scan _ _ _ re_slashes_refines).
    apply (scan_slashes_tidy (S (List.length (repeat (cu "/") k)))). lia.
Qed.

(** X20.  A pattern made of slashes only, as the root route [/], compiles
    to a matcher of the empty path, and of the path [/] when [trailing] is
    true or absent: with [trailing] false the route [/] does not match the
    path [/]. *)
Theorem root_route_paths (k : nat) (o : options) (path : jsstring) :
  accepts (compiled (repeat (cu "/") k) o) path = true
  <-> path = [] \/ (default true (trailing o) = true /\ path = [cu "/"]).
Proof.
  assert (E : compiled (repeat (cu "/") k) o = compiled [] o).
  { unfold compiled. rewrite <- (compile_first_step (repeat (cu "/") k) o).
    rewrite first_step_slashes. reflexivity. }
  rewrite E. rewrite (static_accepts [] o path (Forall_nil _) eq_refl).
  split.
  - intros (u & v & -> & Hu & Hv).
    assert (u = []) as ->.
    { destruct (default false (sensitive o)); [exact Hu|inversion Hu; reflexivity]. }
    exact Hv.
  - intro Hv. exists [], path. split; [reflexivity|]. split; [|exact Hv].
    destruct (default false (sensitive o)); [reflexivity|constructor].
Qed.
